(** * DashVideoSource: live seek window, target update time and MPD refresh

    A shallow embedding of [lib/player/dash_video_source.js]: every method of
    [shaka.player.DashVideoSource], and the functions it passes to [then] and
    to [window.setTimeout].

    - JavaScript numbers are IEEE 754 binary64.  A finite double is the
      rational it denotes ([Q]); module [Binary64] defines the rounding of
      the code's operations (to nearest, ties to even), and its laws are
      proved below: results are doubles, rounding is monotone, exact on
      doubles, and moves a number by at most half a unit in the last place.
      The model is compared with the floats of Rocq's kernel on the
      computations the properties turn on ([binary64_as_the_kernel]).
    - The methods that compute are embedded twice.  Module [Rounded] has
      every [+], [-], [*] and [/] of the source as binary64 computes it; the
      properties of the seek range and of seek validation, where rounding
      decides a branch or adds up over time, are stated of these methods.
      The methods at top level have the same operations without rounding;
      they carry the properties about timers, requests, events and the
      manifest.  The two agree wherever no operation rounds
      ([advance_agrees_when_exact]).
    - [Date.now()] yields integer milliseconds ([Z]).
    - The object's fields are a record; every method is a computation in a
      small state-and-exception monad over the object and its host (the timer
      table of [window], the video element, the requests sent, the events
      dispatched).
    - [shaka.asserts.assert] and [shaka.log.*] are diagnostics: they do not
      change the state or the control flow. *)

From Stdlib Require Import QArith Qminmax Qround Qabs Qpower Lqa ZArith Bool List Lia.
From Stdlib Require Import Morphisms.
From Stdlib Require PrimFloat FloatOps Uint63.
From stdpp Require Import gmap strings.

Local Open Scope Q_scope.

(** ** JavaScript values *)

Module Js.

(** [a >= b], [a < b], [a > b] on numbers ([a <= b] is [Qle_bool]). *)
Definition ge (a b : Q) : bool := Qle_bool b a.
Definition lt (a b : Q) : bool := negb (Qle_bool b a).
Definition gt (a b : Q) : bool := negb (Qle_bool a b).

(** [Math.max(a, b)]. *)
Definition Math_max (a b : Q) : Q := if Qle_bool a b then b else a.

(** Truthiness of a [?number]: [null] and [0] are falsy. *)
Definition truthy (x : option Q) : bool :=
  match x with
  | Some q => negb (Qeq_bool q 0)
  | None => false
  end.

(** [ToNumber] of a [?number]: [null] counts as [0] in arithmetic and in
    comparisons. *)
Definition to_number (x : option Q) : Q :=
  match x with
  | Some q => q
  | None => 0
  end.

(** [x || 0]. *)
Definition or_zero (x : option Q) : Q :=
  if truthy x then to_number x else 0.

(** What a script can raise here: reading a property of [null]. *)
Inductive Error : Set := TypeError.

End Js.

(** ** JavaScript numbers: IEEE 754 binary64 *)

(** A finite double is the rational it denotes; an operation of the code is
    the exact operation followed by [round], rounding to nearest with ties to
    even.  Doubles have 53 significant bits and a least exponent of -1074
    (subnormals included).  The exponent is not bounded above, so the model
    describes every computation that does not overflow; [0] and [-0] are one
    number; [NaN] and the infinities do not arise from [+], [-], [*] and
    [/ 1000] on finite numbers short of overflow. *)
Module Binary64.

Definition pow2 (e : Z) : Q := 2 ^ e.

(** The integer [l] with [2^l <= |q| < 2^(l+1)], for [q] other than [0]. *)
Definition ilog2 (q : Q) : Z :=
  let l := (Z.log2 (Z.abs (Qnum q)) - Z.log2 (Zpos (Qden q)))%Z in
  if Qle_bool (pow2 l) (Qabs q) then l else (l - 1)%Z.

(** The nearest integer, ties to even. *)
Definition rne (x : Q) : Z :=
  let f := Qfloor x in
  match Qcompare (x - inject_Z f) (1 # 2) with
  | Lt => f
  | Gt => (f + 1)%Z
  | Eq => if Z.even f then f else (f + 1)%Z
  end.

(** The exponent of the last bit of the doubles near [q]. *)
Definition exponent (q : Q) : Z := Z.max (ilog2 q - 52) (-1074).

(** The double nearest to [q]. *)
Definition round (q : Q) : Q :=
  if Qeq_bool q 0 then 0
  else inject_Z (rne (q / pow2 (exponent q))) * pow2 (exponent q).

(** [x + y], [x - y], [x * y] and [x / y] as the code computes them. *)
Definition add (x y : Q) : Q := round (x + y).
Definition sub (x y : Q) : Q := round (x - y).
Definition mul (x y : Q) : Q := round (x * y).
Definition div (x y : Q) : Q := round (x / y).

(** A decimal literal of the source, such as [0.01]. *)
Definition number (literal : Q) : Q := round literal.

(** [x] is a double. *)
Definition isDouble (x : Q) : Prop := round x == x.

(** A bound on how far rounding moves [q]: half a unit in the last place
    of [q], which is at most [2^-53] of [|q|] for normal [q] and [2^-1075]
    for subnormal [q]. *)
Definition maxError (q : Q) : Q := Qabs q * pow2 (-53) + pow2 (-1075).

End Binary64.

(** ** The manifest, as the code reads it *)

(** Modelled from the spec: [shaka.media.SegmentReference] and
    [shaka.media.SegmentIndex] are not part of this file; a segment index is
    an ordered sequence of references, each with a start time, read through
    [getNumReferences()] and [getReference(i)] (which answers [null] outside
    the sequence, as the caller's [if (reference)] expects). *)
Record SegmentReference : Set := { startTime : Q }.

Record SegmentIndex : Set := { references : list SegmentReference }.

Definition getNumReferences (si : SegmentIndex) : Z :=
  Z.of_nat (length (references si)).

Definition getReference (si : SegmentIndex) (index : Z) : option SegmentReference :=
  if ((index <? 0) || (getNumReferences si <=? index))%Z then None
  else references si !! Z.to_nat index.

(** Modelled from the spec: the manifest snapshot is a tree of periods, stream
    sets and streams; a stream optionally holds a segment index. *)
Record StreamInfo : Set := { segmentIndex : option SegmentIndex }.

Record StreamSetInfo : Set := { streamInfos : list StreamInfo }.

Record PeriodInfo : Set := { streamSetInfos : list StreamSetInfo }.

Record ManifestInfo : Set := { live : bool; periodInfos : list PeriodInfo }.

(** Modelled from the spec: the parsed MPD, of which this file reads
    [timeShiftBufferDepth] and [minUpdatePeriod] (both optional). *)
Record Mpd : Set := {
  timeShiftBufferDepth : option Q;
  minUpdatePeriod : option Q;
  mpdContent : string
}.

(** The result of [computeStreamLimits()]. *)
Record StreamLimits : Set := { limitsStart : Q; limitsEnd : Q }.

(** The application's callback for ContentProtection elements. *)
Record ContentProtection : Set := { schemeIdUri : string }.

Record DrmSchemeInfo : Set := { keySystem : string }.

Definition ContentProtectionCallback : Set :=
  ContentProtection -> option DrmSchemeInfo.

(** ** The object and its host *)

(** What a timer of [window.setTimeout] runs when it fires. *)
Inductive Callback : Set :=
| OnUpdate
| OnSeekRangeUpdate (startWallTime : Z).

(** The 'seekrangechanged' event. *)
Record SeekRangeChanged : Set := { eventStart : Q; eventEnd : Q }.

(** Timer handles are the positive integers [window.setTimeout] returns, so a
    handle held in a field is always truthy. *)
Record DashVideoSource : Set := mkDashVideoSource {
  (* inherited from StreamVideoSource *)
  manifestInfo : option ManifestInfo;
  streamResyncs : nat;
  (* own fields *)
  mpdUrl_ : string;
  interpretContentProtection_ : option ContentProtectionCallback;
  targetUpdateTime_ : option Q;
  lastMpdFetchTime_ : option Q;
  updateTimer_ : option positive;
  timeShiftBufferDepth_ : Q;
  seekStartTime_ : Q;
  seekEndTime_ : Q;
  seekRangeUpdateTimer_ : option positive
}.

Record Host : Set := mkHost {
  timers : gmap positive (Callback * Q);   (* pending timeouts: callback, ms *)
  nextTimer : positive;
  clockReads : nat;                        (* calls of Date.now() so far *)
  videoCurrentTime : Q;                    (* this.video.currentTime *)
  mpdRequests : list string;               (* MpdRequest(url).send() so far *)
  dispatched : list SeekRangeChanged;
  playListener : bool                      (* listen(video, 'play', onPlay_) *)
}.

Record World : Set := mkWorld { self : DashVideoSource; host : Host }.

(** The constructor. *)
Definition new_DashVideoSource (mpdUrl : string)
    (interpretContentProtection : option ContentProtectionCallback) : DashVideoSource :=
  {| manifestInfo := None;
     streamResyncs := 0;
     mpdUrl_ := mpdUrl;
     interpretContentProtection_ := interpretContentProtection;
     targetUpdateTime_ := None;
     lastMpdFetchTime_ := None;
     updateTimer_ := None;
     timeShiftBufferDepth_ := 0;
     seekStartTime_ := 0;
     seekEndTime_ := 0;
     seekRangeUpdateTimer_ := None |}.

(** Field assignments. *)
Definition set_manifestInfo (v : option ManifestInfo) (d : DashVideoSource) :=
  mkDashVideoSource v (streamResyncs d) (mpdUrl_ d) (interpretContentProtection_ d)
    (targetUpdateTime_ d) (lastMpdFetchTime_ d) (updateTimer_ d)
    (timeShiftBufferDepth_ d) (seekStartTime_ d) (seekEndTime_ d)
    (seekRangeUpdateTimer_ d).

Definition set_streamResyncs (v : nat) (d : DashVideoSource) :=
  mkDashVideoSource (manifestInfo d) v (mpdUrl_ d) (interpretContentProtection_ d)
    (targetUpdateTime_ d) (lastMpdFetchTime_ d) (updateTimer_ d)
    (timeShiftBufferDepth_ d) (seekStartTime_ d) (seekEndTime_ d)
    (seekRangeUpdateTimer_ d).

Definition set_interpretContentProtection_ (v : option ContentProtectionCallback)
    (d : DashVideoSource) :=
  mkDashVideoSource (manifestInfo d) (streamResyncs d) (mpdUrl_ d) v
    (targetUpdateTime_ d) (lastMpdFetchTime_ d) (updateTimer_ d)
    (timeShiftBufferDepth_ d) (seekStartTime_ d) (seekEndTime_ d)
    (seekRangeUpdateTimer_ d).

Definition set_targetUpdateTime_ (v : option Q) (d : DashVideoSource) :=
  mkDashVideoSource (manifestInfo d) (streamResyncs d) (mpdUrl_ d)
    (interpretContentProtection_ d) v (lastMpdFetchTime_ d) (updateTimer_ d)
    (timeShiftBufferDepth_ d) (seekStartTime_ d) (seekEndTime_ d)
    (seekRangeUpdateTimer_ d).

Definition set_lastMpdFetchTime_ (v : option Q) (d : DashVideoSource) :=
  mkDashVideoSource (manifestInfo d) (streamResyncs d) (mpdUrl_ d)
    (interpretContentProtection_ d) (targetUpdateTime_ d) v (updateTimer_ d)
    (timeShiftBufferDepth_ d) (seekStartTime_ d) (seekEndTime_ d)
    (seekRangeUpdateTimer_ d).

Definition set_updateTimer_ (v : option positive) (d : DashVideoSource) :=
  mkDashVideoSource (manifestInfo d) (streamResyncs d) (mpdUrl_ d)
    (interpretContentProtection_ d) (targetUpdateTime_ d) (lastMpdFetchTime_ d) v
    (timeShiftBufferDepth_ d) (seekStartTime_ d) (seekEndTime_ d)
    (seekRangeUpdateTimer_ d).

Definition set_timeShiftBufferDepth_ (v : Q) (d : DashVideoSource) :=
  mkDashVideoSource (manifestInfo d) (streamResyncs d) (mpdUrl_ d)
    (interpretContentProtection_ d) (targetUpdateTime_ d) (lastMpdFetchTime_ d)
    (updateTimer_ d) v (seekStartTime_ d) (seekEndTime_ d)
    (seekRangeUpdateTimer_ d).

Definition set_seekStartTime_ (v : Q) (d : DashVideoSource) :=
  mkDashVideoSource (manifestInfo d) (streamResyncs d) (mpdUrl_ d)
    (interpretContentProtection_ d) (targetUpdateTime_ d) (lastMpdFetchTime_ d)
    (updateTimer_ d) (timeShiftBufferDepth_ d) v (seekEndTime_ d)
    (seekRangeUpdateTimer_ d).

Definition set_seekEndTime_ (v : Q) (d : DashVideoSource) :=
  mkDashVideoSource (manifestInfo d) (streamResyncs d) (mpdUrl_ d)
    (interpretContentProtection_ d) (targetUpdateTime_ d) (lastMpdFetchTime_ d)
    (updateTimer_ d) (timeShiftBufferDepth_ d) (seekStartTime_ d) v
    (seekRangeUpdateTimer_ d).

Definition set_seekRangeUpdateTimer_ (v : option positive) (d : DashVideoSource) :=
  mkDashVideoSource (manifestInfo d) (streamResyncs d) (mpdUrl_ d)
    (interpretContentProtection_ d) (targetUpdateTime_ d) (lastMpdFetchTime_ d)
    (updateTimer_ d) (timeShiftBufferDepth_ d) (seekStartTime_ d) (seekEndTime_ d) v.

Definition set_timers (v : gmap positive (Callback * Q)) (h : Host) :=
  mkHost v (nextTimer h) (clockReads h) (videoCurrentTime h) (mpdRequests h)
    (dispatched h) (playListener h).

Definition set_nextTimer (v : positive) (h : Host) :=
  mkHost (timers h) v (clockReads h) (videoCurrentTime h) (mpdRequests h)
    (dispatched h) (playListener h).

Definition set_clockReads (v : nat) (h : Host) :=
  mkHost (timers h) (nextTimer h) v (videoCurrentTime h) (mpdRequests h)
    (dispatched h) (playListener h).

Definition set_videoCurrentTime (v : Q) (h : Host) :=
  mkHost (timers h) (nextTimer h) (clockReads h) v (mpdRequests h) (dispatched h)
    (playListener h).

Definition set_mpdRequests (v : list string) (h : Host) :=
  mkHost (timers h) (nextTimer h) (clockReads h) (videoCurrentTime h) v
    (dispatched h) (playListener h).

Definition set_dispatched (v : list SeekRangeChanged) (h : Host) :=
  mkHost (timers h) (nextTimer h) (clockReads h) (videoCurrentTime h)
    (mpdRequests h) v (playListener h).

Definition set_playListener (v : bool) (h : Host) :=
  mkHost (timers h) (nextTimer h) (clockReads h) (videoCurrentTime h)
    (mpdRequests h) (dispatched h) v.

(** ** Computations: state over [World], with JavaScript exceptions *)

Inductive Completion (A : Type) : Type :=
| Normal (a : A)
| Throw (e : Js.Error).

Arguments Normal {A} a.
Arguments Throw {A} e.

Definition M (A : Type) : Type := World -> Completion A * World.

Definition ret {A} (a : A) : M A := fun w => (Normal a, w).

Definition bind {A B} (m : M A) (k : A -> M B) : M B :=
  fun w =>
    match m w with
    | (Normal a, w') => k a w'
    | (Throw e, w') => (Throw e, w')
    end.

Definition throw {A} (e : Js.Error) : M A := fun w => (Throw e, w).

Declare Scope js_scope.
Delimit Scope js_scope with js.
Notation "x <- m ;; k" := (bind m (fun x => k))
  (at level 100, m at next level, k at level 200, right associativity) : js_scope.
Notation "m ;; k" := (bind m (fun _ => k))
  (at level 100, k at level 200, right associativity) : js_scope.
Local Open Scope js_scope.

Definition this : M DashVideoSource := fun w => (Normal (self w), w).

Definition assign (f : DashVideoSource -> DashVideoSource) : M unit :=
  fun w => (Normal tt, mkWorld (f (self w)) (host w)).

Definition the_host : M Host := fun w => (Normal (host w), w).

Definition on_host (f : Host -> Host) : M unit :=
  fun w => (Normal tt, mkWorld (self w) (f (host w))).

(** The world a computation leaves, and whether it completed normally. *)
Definition exec {A} (m : M A) (w : World) : World := snd (m w).

Definition completes {A} (m : M A) (w : World) : bool :=
  match fst (m w) with
  | Normal _ => true
  | Throw _ => false
  end.

(** [shaka.asserts.assert(cond)]: a diagnostic only. *)
Definition assert_ (cond : bool) : M unit := ret tt.

(** ** The methods *)

(** The methods, computing without rounding.  Module [Rounded], further
    down, has the methods with arithmetic as binary64 computes it. *)

(** [shaka.player.DashVideoSource.MIN_UPDATE_INTERVAL_]: the minimum time, in
    seconds, between MPD fetches. *)
Definition MIN_UPDATE_INTERVAL_ : Q := 3.

(** How the promise of [mpdRequest.send()] settles. *)
Inductive Settlement : Set :=
| Fulfilled (mpd : Mpd)
| Rejected (reason : string).

(** Lines 380-394 of [onSeekRangeUpdate_]: the seek range after [offset]
    seconds of wall time, without rounding ([Rounded.advance] rounds). *)
Definition advance (offset : Q) (d : DashVideoSource) : DashVideoSource :=
  let seekWindow := seekEndTime_ d - seekStartTime_ d in
  if Js.gt (seekWindow + offset) (timeShiftBufferDepth_ d) then
    set_seekEndTime_ (seekEndTime_ d + offset)
      (set_seekStartTime_ (seekStartTime_ d + offset) d)
  else
    set_seekEndTime_ (seekEndTime_ d + offset) d.

(** The body of the innermost loop of [setTargetUpdateTime_]. *)
Definition visitStreamInfo (max : Q) (streamInfo : StreamInfo) : Q :=
  match segmentIndex streamInfo with
  | None => max                                            (* continue *)
  | Some segmentIndex =>
      let index := Z.max 0 (getNumReferences segmentIndex - 2) in
      match getReference segmentIndex index with
      | Some reference => Js.Math_max max (startTime reference)
      | None => max
      end
  end.

(** The three nested loops of [setTargetUpdateTime_], from [max = 0]. *)
Definition largestSecondLastStart (m : ManifestInfo) : Q :=
  fold_left
    (fun max periodInfo =>
       fold_left
         (fun max streamSetInfo =>
            fold_left visitStreamInfo (streamInfos streamSetInfo) max)
         (streamSetInfos periodInfo) max)
    (periodInfos m) 0.

(** The value [setTargetUpdateTime_] stores. *)
Definition targetUpdateTime (m : ManifestInfo) : option Q :=
  let networkLatency := 2 in
  let t := largestSecondLastStart m - networkLatency in
  if Js.ge t 0 then Some t else None.

Section Methods.

(** The wall clock: what the n-th call of [Date.now()] returns. *)
Variable wall_clock : nat -> Z.

(** [new shaka.dash.MpdProcessor(cb)], [process(mpd)], [.manifestInfo]. *)
Variable process : option ContentProtectionCallback -> Mpd -> ManifestInfo.

(** [StreamVideoSource.prototype.computeStreamLimits], which reads the
    streams of the current manifest. *)
Variable computeStreamLimits : option ManifestInfo -> option StreamLimits.

(** *** The host *)

Definition Date_now : M Z :=
  b <- the_host ;;
  on_host (set_clockReads (S (clockReads b))) ;;
  ret (wall_clock (clockReads b)).

Definition setTimeout (callback : Callback) (ms : Q) : M positive :=
  b <- the_host ;;
  let handle := nextTimer b in
  on_host (fun b => set_nextTimer (Pos.succ handle)
                      (set_timers (<[handle := (callback, ms)]> (timers b)) b)) ;;
  ret handle.

Definition clearTimeout (handle : positive) : M unit :=
  on_host (fun b => set_timers (delete handle (timers b)) b).

Definition MpdRequest_send (url : string) : M unit :=
  on_host (fun b => set_mpdRequests (mpdRequests b ++ [url]) b).

Definition dispatchEvent (event : SeekRangeChanged) : M unit :=
  on_host (fun b => set_dispatched (dispatched b ++ [event]) b).

(** [this.manifestInfo.x]: a TypeError when [manifestInfo] is [null]. *)
Definition this_manifestInfo : M ManifestInfo :=
  d <- this ;;
  match manifestInfo d with
  | Some m => ret m
  | None => throw Js.TypeError
  end.

(** *** The base class *)

(** Modelled from the spec: [StreamVideoSource.prototype.destroy] is not
    part of this file; the snapshot is destroyed when the scheduler is torn
    down. *)
Definition StreamVideoSource_destroy : M unit :=
  assign (set_manifestInfo None).

(** Modelled from the spec: [StreamVideoSource.prototype.onSeeking] is not
    part of this file; it accepts the seek and resynchronises the streams,
    leaving the video's current time as it is. *)
Definition StreamVideoSource_onSeeking : M unit :=
  assign (fun d => set_streamResyncs (S (streamResyncs d)) d).

(** Modelled from the spec: [StreamVideoSource.prototype.updateManifest] is
    not part of this file; the new snapshot replaces the prior one. *)
Definition updateManifest (m : ManifestInfo) : M unit :=
  assign (set_manifestInfo (Some m)).

(** *** DashVideoSource *)

Definition cancelUpdateTimer_ : M unit :=
  d <- this ;;
  match updateTimer_ d with
  | Some handle =>
      clearTimeout handle ;;
      assign (set_updateTimer_ None)
  | None => ret tt
  end.

Definition cancelSeekRangeUpdateTimer_ : M unit :=
  d <- this ;;
  match seekRangeUpdateTimer_ d with
  | Some handle =>
      clearTimeout handle ;;
      assign (set_seekRangeUpdateTimer_ None)
  | None => ret tt
  end.

Definition destroy : M unit :=
  cancelUpdateTimer_ ;;
  cancelSeekRangeUpdateTimer_ ;;
  assign (set_interpretContentProtection_ None) ;;
  StreamVideoSource_destroy.

Definition setUpdateTimer_ (minUpdatePeriod : Q) : M unit :=
  d <- this ;;
  assert_ (match manifestInfo d with Some m => live m | None => false end) ;;
  assert_ (match updateTimer_ d with None => true | Some _ => false end) ;;
  let updateInterval := Js.Math_max minUpdatePeriod MIN_UPDATE_INTERVAL_ in
  let ms := 1000 * updateInterval in
  handle <- setTimeout OnUpdate ms ;;
  assign (set_updateTimer_ (Some handle)).

Definition setTargetUpdateTime_ : M unit :=
  m <- this_manifestInfo ;;
  assign (set_targetUpdateTime_ (targetUpdateTime m)).

Definition fireSeekRangeChangedEvent_ : M unit :=
  d <- this ;;
  assert_ (negb (Qeq_bool (seekEndTime_ d) 0)) ;;
  dispatchEvent {| eventStart := seekStartTime_ d; eventEnd := seekEndTime_ d |}.

Definition setSeekRangeUpdateTimer_ : M unit :=
  d <- this ;;
  assert_ (match manifestInfo d with Some m => live m | None => false end) ;;
  assert_ (negb (Qeq_bool (seekEndTime_ d) 0)) ;;
  assert_ (match seekRangeUpdateTimer_ d with None => true | Some _ => false end) ;;
  now <- Date_now ;;
  handle <- setTimeout (OnSeekRangeUpdate now) 1000 ;;
  assign (set_seekRangeUpdateTimer_ (Some handle)).

Definition onStartStreams : M unit :=
  d <- this ;;
  match computeStreamLimits (manifestInfo d) with
  | None => ret tt
  | Some streamLimits =>
      m <- this_manifestInfo ;;
      (if live m then
         assign (set_seekStartTime_
                   (Js.Math_max (limitsEnd streamLimits - timeShiftBufferDepth_ d)
                                (limitsStart streamLimits)))
       else
         assign (set_seekStartTime_ (limitsStart streamLimits))) ;;
      assign (set_seekEndTime_ (limitsEnd streamLimits)) ;;
      setTargetUpdateTime_ ;;
      fireSeekRangeChangedEvent_ ;;
      m <- this_manifestInfo ;;
      if live m then setSeekRangeUpdateTimer_ else ret tt
  end.

(** Assigning [video.currentTime] raises a further 'seeking' event, which
    the host delivers later as another call of [onSeeking].  The bounds are
    computed without rounding here ([Rounded.onSeeking] rounds). *)
Definition onSeeking : M unit :=
  d <- this ;;
  assert_ (match manifestInfo d with Some _ => true | None => false end) ;;
  b <- the_host ;;
  let currentTime := videoCurrentTime b in
  let tolerance := 0.01 in
  if Js.ge currentTime (seekStartTime_ d - tolerance) &&
     Qle_bool currentTime (seekEndTime_ d + tolerance)
  then StreamVideoSource_onSeeking
  else
    targetTime <-
      (if Js.lt currentTime (seekStartTime_ d) then ret (seekStartTime_ d)
       else
         assert_ (Js.gt currentTime (seekEndTime_ d)) ;;
         ret (seekEndTime_ d)) ;;
    on_host (set_videoCurrentTime targetTime).

Definition onPlay_ : M unit := onSeeking.

(** [attach], once the base class's [attach] has returned its promise [p]:
    whether the function below was passed to [p.then]. *)
Definition attach : M bool :=
  m <- this_manifestInfo ;;
  ret (live m).

(** The function [attach] passes to [then]: if the video pauses, it may have
    to seek back into the seek window when playback resumes. *)
Definition attach_then : M unit :=
  on_host (set_playListener true).

(** The video element raises 'play'. *)
Definition video_play : M unit :=
  b <- the_host ;;
  if playListener b then onPlay_ else ret tt.

(** [load] up to and including [mpdRequest.send()]. *)
Definition load : M unit :=
  now <- Date_now ;;
  assign (set_lastMpdFetchTime_ (Some (inject_Z now / 1000))) ;;
  d <- this ;;
  MpdRequest_send (mpdUrl_ d).

(** The function [load] passes to [then], once the base class's [load] has
    returned its promise [p]: whether the function below was passed to
    [p.then]. *)
Definition load_then (mpd : Mpd) : M bool :=
  d <- this ;;
  let manifestInfo := process (interpretContentProtection_ d) mpd in
  assign (set_timeShiftBufferDepth_ (Js.or_zero (timeShiftBufferDepth mpd))) ;;
  assign (set_manifestInfo (Some manifestInfo)) ;;
  m <- this_manifestInfo ;;
  ret (live m).

(** The function [load] passes to [p.then]: a timer to call [onUpdate_], so
    the manifest is updated at least every [minUpdatePeriod] seconds. *)
Definition load_then_then (mpd : Mpd) : M unit :=
  setUpdateTimer_ (Js.or_zero (minUpdatePeriod mpd)).

(** [onUpdate_] up to and including [mpdRequest.send()]. *)
Definition onUpdate_ : M unit :=
  d <- this ;;
  assert_ (match manifestInfo d with Some m => live m | None => false end) ;;
  cancelUpdateTimer_ ;;
  now <- Date_now ;;
  let currentTime := inject_Z now / 1000 in
  let secondsSinceLastUpdate := currentTime - Js.to_number (lastMpdFetchTime_ d) in
  assign (set_lastMpdFetchTime_ (Some currentTime)) ;;
  MpdRequest_send (mpdUrl_ d).

(** The function [onUpdate_] passes to [then]. *)
Definition onUpdate_then (mpd : Mpd) : M unit :=
  d <- this ;;
  let manifestInfo := process (interpretContentProtection_ d) mpd in
  assign (set_timeShiftBufferDepth_ (Js.or_zero (timeShiftBufferDepth mpd))) ;;
  updateManifest manifestInfo ;;
  setUpdateTimer_ (Js.or_zero (minUpdatePeriod mpd)) ;;
  setTargetUpdateTime_.

(** The request of [onUpdate_] settles: [then] was given no rejection
    handler, so a rejection runs no code of this object. *)
Definition onUpdate_settled (s : Settlement) : M unit :=
  match s with
  | Fulfilled mpd => onUpdate_then mpd
  | Rejected _ => ret tt
  end.

(** The seconds are computed without rounding here
    ([Rounded.onSeekRangeUpdate_] rounds). *)
Definition onSeekRangeUpdate_ (startWallTime : Z) : M unit :=
  d <- this ;;
  assert_ (match manifestInfo d with Some m => live m | None => false end) ;;
  assert_ (negb (Qeq_bool (seekEndTime_ d) 0)) ;;
  cancelSeekRangeUpdateTimer_ ;;
  assert_ (Js.ge (seekEndTime_ d - seekStartTime_ d) 0) ;;
  now <- Date_now ;;
  let offset := inject_Z (now - startWallTime) / 1000 in
  assign (advance offset) ;;
  d <- this ;;
  (if Js.truthy (targetUpdateTime_ d) &&
      Js.ge (seekEndTime_ d) (Js.to_number (targetUpdateTime_ d))
   then
     now <- Date_now ;;
     let secondsSinceLastUpdate :=
       inject_Z now / 1000 - Js.to_number (lastMpdFetchTime_ d) in
     if Js.ge secondsSinceLastUpdate MIN_UPDATE_INTERVAL_ then onUpdate_
     else ret tt
   else ret tt) ;;
  fireSeekRangeChangedEvent_ ;;
  setSeekRangeUpdateTimer_.

(** The bound functions given to [window.setTimeout]. *)
Definition run (callback : Callback) : M unit :=
  match callback with
  | OnUpdate => onUpdate_
  | OnSeekRangeUpdate startWallTime => onSeekRangeUpdate_ startWallTime
  end.

(** A pending timer fires: the host drops it from its table and runs its
    callback. *)
Definition timer_fires (handle : positive) : M unit :=
  b <- the_host ;;
  match timers b !! handle with
  | Some (callback, _) => clearTimeout handle ;; run callback
  | None => ret tt
  end.

End Methods.

(** ** Observations used by the properties *)

(** The width of the seek range, [end - start] ([seekWindow] in
    [onSeekRangeUpdate_], before any rounding). *)
Definition seekWindow (d : DashVideoSource) : Q :=
  seekEndTime_ d - seekStartTime_ d.

(** The video element reports [requestedTime] and raises 'seeking'. *)
Definition seekTo (requestedTime : Q) (w : World) : World :=
  exec onSeeking (mkWorld (self w) (set_videoCurrentTime requestedTime (host w))).

(** What became of the seek: handed to the base class, or the video's time
    set to a clamped time instead. *)
Inductive SeekResult : Set :=
| Accepted
| Clamped (clampedTime : Q).

Definition validate (w : World) (requestedTime : Q) : SeekResult :=
  let w' := seekTo requestedTime w in
  if (streamResyncs (self w') =? S (streamResyncs (self w)))%nat then Accepted
  else Clamped (videoCurrentTime (host w')).

(** The host once the timer a field holds, if any, is cleared. *)
Definition cleared (handle : option positive) (b : Host) : Host :=
  match handle with
  | Some h => set_timers (delete h (timers b)) b
  | None => b
  end.

(** *** The estimate, in the words of the specification *)

(** Every stream of every stream set of every period. *)
Definition allStreamInfos (m : ManifestInfo) : list StreamInfo :=
  flat_map (fun periodInfo => flat_map streamInfos (streamSetInfos periodInfo))
    (periodInfos m).

(** The start time of the reference at index [max(0, referenceCount - 2)] of
    a stream that has a segment index (and a reference there). *)
Definition referenceStart (s : StreamInfo) : option Q :=
  match segmentIndex s with
  | None => None
  | Some si =>
      let referenceCount := length (references si) in
      match references si !! Nat.max 0 (referenceCount - 2) with
      | Some reference => Some (startTime reference)
      | None => None
      end
  end.

(** The maximum [m] of these start times, less 2 seconds of network latency,
    when that is not negative; [null] otherwise, and when there is none. *)
Definition spec_estimate (m : ManifestInfo) : option Q :=
  match omap referenceStart (allStreamInfos m) with
  | [] => None
  | t :: ts =>
      let m := fold_right Qmax t ts in
      if Qle_bool 0 (m - 2) then Some (m - 2) else None
  end.

(** Two optional times are the same number, or both undefined. *)
Definition sameTime (x y : option Q) : Prop :=
  match x, y with
  | Some a, Some b => a == b
  | None, None => True
  | _, _ => False
  end.

(** *** Concrete inputs *)

Definition segmentIndexOf (starts : list Q) : SegmentIndex :=
  {| references := map Build_SegmentReference starts |}.

(** A live manifest of one period and one stream set; each stream is given
    by the start times of its references, or has no segment index. *)
Definition manifestOf (streams : list (option (list Q))) : ManifestInfo :=
  {| live := true;
     periodInfos :=
       [ {| streamSetInfos :=
              [ {| streamInfos :=
                     map (fun o => {| segmentIndex := option_map segmentIndexOf o |})
                         streams |} ] |} ] |}.

Definition freshHost : Host :=
  {| timers := ∅; nextTimer := 1; clockReads := 0; videoCurrentTime := 0;
     mpdRequests := []; dispatched := []; playListener := false |}.

(** A source whose seek range is [[seekStart, seekEnd]]. *)
Definition sourceWith (m : option ManifestInfo) (depth seekStart seekEnd : Q)
  : DashVideoSource :=
  set_seekEndTime_ seekEnd
    (set_seekStartTime_ seekStart
       (set_timeShiftBufferDepth_ depth
          (set_manifestInfo m (new_DashVideoSource "live.mpd" None)))).

Definition worldWith (m : option ManifestInfo) (depth seekStart seekEnd : Q) : World :=
  mkWorld (sourceWith m depth seekStart seekEnd) freshHost.

(** A clock that stands at [ms]. *)
Definition clockAt (ms : Z) : nat -> Z := fun _ => ms.

(** Stream limits that do not depend on the manifest. *)
Definition limits (streamsStart streamsEnd : Q)
  : option ManifestInfo -> option StreamLimits :=
  fun _ => Some {| limitsStart := streamsStart; limitsEnd := streamsEnd |}.

(** A live source whose seek range is [[5, 100]]. *)
Definition seekWorld : World := worldWith (Some (manifestOf [])) 0 5 100.

(** A clock that reads 9 seconds at first and 10 seconds from then on. *)
Definition clock_9_10 : nat -> Z :=
  fun n => match n with O => 9000%Z | S _ => 10000%Z end.

(** A live source, fetched at time 0, whose seek range is [[0, 10]] under a
    depth of 40, whose only stream has references at [starts], and whose seek
    range timer was set at 9 seconds. *)
Definition timerWorld (starts : list Q) : World :=
  let m := manifestOf [Some starts] in
  exec (setTargetUpdateTime_ ;; setSeekRangeUpdateTimer_ clock_9_10)
    (mkWorld (set_lastMpdFetchTime_ (Some 0) (sourceWith (Some m) 40 0 10))
       freshHost).

(** An MPD processor that always yields [m]. *)
Definition processTo (m : ManifestInfo)
  : option ContentProtectionCallback -> Mpd -> ManifestInfo :=
  fun _ _ => m.

Definition refreshedMpd : Mpd :=
  {| timeShiftBufferDepth := Some 60; minUpdatePeriod := Some 1;
     mpdContent := "<MPD/>" |}.

(** A live source with both timers set and a refresh request in flight. *)
Definition refreshingWorld : World :=
  exec (setUpdateTimer_ 5 ;; setSeekRangeUpdateTimer_ (clockAt 0) ;;
        onUpdate_ (clockAt 0))
    (worldWith (Some (manifestOf [Some [10; 20; 30]])) 40 10 50).

(** *** Timers and the fields that hold their handles *)

(** A pending timer whose handle [window.setTimeout] has given out and which
    the field of its role holds. *)
Definition ownedBy (updateTimer seekRangeUpdateTimer : option positive)
    (next : positive) (handle : positive) (timer : Callback * Q) : Prop :=
  (handle < next)%positive /\
  match fst timer with
  | OnUpdate => updateTimer = Some handle
  | OnSeekRangeUpdate _ => seekRangeUpdateTimer = Some handle
  end.

(** Every pending timer is the one its role's field holds: at most one
    update timer and one seek range timer are pending, and [destroy] can
    reach both. *)
Definition timersOwned (w : World) : Prop :=
  map_Forall
    (ownedBy (updateTimer_ (self w)) (seekRangeUpdateTimer_ (self w))
       (nextTimer (host w)))
    (timers (host w)).

(** The wall time a run of window updates covers. *)
Definition total (elapsed : list Q) : Q := fold_right Qplus 0 elapsed.

(** The seek range of a source, as the event carries it. *)
Definition seekRange (d : DashVideoSource) : SeekRangeChanged :=
  {| eventStart := seekStartTime_ d; eventEnd := seekEndTime_ d |}.

(** A clock that advances by one second per reading, from 0. *)
Definition clockTicking : nat -> Z := fun n => (1000 * Z.of_nat n)%Z.

(** A manifest like [manifestOf streams], of a stream that is not live. *)
Definition staticManifestOf (streams : list (option (list Q))) : ManifestInfo :=
  {| live := false; periodInfos := periodInfos (manifestOf streams) |}.

(** An MPD without [timeShiftBufferDepth] and [minUpdatePeriod]. *)
Definition bareMpd : Mpd :=
  {| timeShiftBufferDepth := None; minUpdatePeriod := None;
     mpdContent := "<MPD/>" |}.

(** An MPD whose [timeShiftBufferDepth] is 20 seconds. *)
Definition shallowMpd : Mpd :=
  {| timeShiftBufferDepth := Some 20; minUpdatePeriod := Some 5;
     mpdContent := "<MPD/>" |}.

(** A live source just after a refresh: the update timer is pending. *)
Definition refreshedWorld : World :=
  exec (onUpdate_then (processTo (manifestOf [Some [10; 20; 30]])) refreshedMpd)
    (worldWith (Some (manifestOf [Some [10; 20; 30]])) 40 10 50).

(** ** The methods, computing in binary64 *)

(** The methods again, with every [+], [-], [*] and [/] of the source as the
    binary64 operation.  The methods above compute the same expressions
    without rounding; the two agree whenever every intermediate result is a
    double.  Methods without arithmetic are shared. *)
Module Rounded.

(** Lines 380-394 of [onSeekRangeUpdate_]: the seek range after [offset]
    seconds of wall time. *)
Definition advance (offset : Q) (d : DashVideoSource) : DashVideoSource :=
  let seekWindow := Binary64.sub (seekEndTime_ d) (seekStartTime_ d) in
  if Js.gt (Binary64.add seekWindow offset) (timeShiftBufferDepth_ d) then
    set_seekEndTime_ (Binary64.add (seekEndTime_ d) offset)
      (set_seekStartTime_ (Binary64.add (seekStartTime_ d) offset) d)
  else
    set_seekEndTime_ (Binary64.add (seekEndTime_ d) offset) d.

(** The value [setTargetUpdateTime_] stores. *)
Definition targetUpdateTime (m : ManifestInfo) : option Q :=
  let networkLatency := 2 in
  let t := Binary64.sub (largestSecondLastStart m) networkLatency in
  if Js.ge t 0 then Some t else None.

Section Methods.

Variable wall_clock : nat -> Z.
Variable process : option ContentProtectionCallback -> Mpd -> ManifestInfo.
Variable computeStreamLimits : option ManifestInfo -> option StreamLimits.

Definition setUpdateTimer_ (minUpdatePeriod : Q) : M unit :=
  d <- this ;;
  assert_ (match manifestInfo d with Some m => live m | None => false end) ;;
  assert_ (match updateTimer_ d with None => true | Some _ => false end) ;;
  let updateInterval := Js.Math_max minUpdatePeriod MIN_UPDATE_INTERVAL_ in
  let ms := Binary64.mul 1000 updateInterval in
  handle <- setTimeout OnUpdate ms ;;
  assign (set_updateTimer_ (Some handle)).

Definition setTargetUpdateTime_ : M unit :=
  m <- this_manifestInfo ;;
  assign (set_targetUpdateTime_ (targetUpdateTime m)).

Definition onStartStreams : M unit :=
  d <- this ;;
  match computeStreamLimits (manifestInfo d) with
  | None => ret tt
  | Some streamLimits =>
      m <- this_manifestInfo ;;
      (if live m then
         assign (set_seekStartTime_
                   (Js.Math_max
                      (Binary64.sub (limitsEnd streamLimits) (timeShiftBufferDepth_ d))
                      (limitsStart streamLimits)))
       else
         assign (set_seekStartTime_ (limitsStart streamLimits))) ;;
      assign (set_seekEndTime_ (limitsEnd streamLimits)) ;;
      setTargetUpdateTime_ ;;
      fireSeekRangeChangedEvent_ ;;
      m <- this_manifestInfo ;;
      if live m then setSeekRangeUpdateTimer_ wall_clock else ret tt
  end.

Definition onSeeking : M unit :=
  d <- this ;;
  assert_ (match manifestInfo d with Some _ => true | None => false end) ;;
  b <- the_host ;;
  let currentTime := videoCurrentTime b in
  let tolerance := Binary64.number 0.01 in
  if Js.ge currentTime (Binary64.sub (seekStartTime_ d) tolerance) &&
     Qle_bool currentTime (Binary64.add (seekEndTime_ d) tolerance)
  then StreamVideoSource_onSeeking
  else
    targetTime <-
      (if Js.lt currentTime (seekStartTime_ d) then ret (seekStartTime_ d)
       else
         assert_ (Js.gt currentTime (seekEndTime_ d)) ;;
         ret (seekEndTime_ d)) ;;
    on_host (set_videoCurrentTime targetTime).

Definition onPlay_ : M unit := onSeeking.

(** The video element raises 'play'. *)
Definition video_play : M unit :=
  b <- the_host ;;
  if playListener b then onPlay_ else ret tt.

(** [load] up to and including [mpdRequest.send()]. *)
Definition load : M unit :=
  now <- Date_now wall_clock ;;
  assign (set_lastMpdFetchTime_ (Some (Binary64.div (inject_Z now) 1000))) ;;
  d <- this ;;
  MpdRequest_send (mpdUrl_ d).

Definition load_then_then (mpd : Mpd) : M unit :=
  setUpdateTimer_ (Js.or_zero (minUpdatePeriod mpd)).

(** [onUpdate_] up to and including [mpdRequest.send()]. *)
Definition onUpdate_ : M unit :=
  d <- this ;;
  assert_ (match manifestInfo d with Some m => live m | None => false end) ;;
  cancelUpdateTimer_ ;;
  now <- Date_now wall_clock ;;
  let currentTime := Binary64.div (inject_Z now) 1000 in
  let secondsSinceLastUpdate :=
    Binary64.sub currentTime (Js.to_number (lastMpdFetchTime_ d)) in
  assign (set_lastMpdFetchTime_ (Some currentTime)) ;;
  MpdRequest_send (mpdUrl_ d).

(** The function [onUpdate_] passes to [then]. *)
Definition onUpdate_then (mpd : Mpd) : M unit :=
  d <- this ;;
  let manifestInfo := process (interpretContentProtection_ d) mpd in
  assign (set_timeShiftBufferDepth_ (Js.or_zero (timeShiftBufferDepth mpd))) ;;
  updateManifest manifestInfo ;;
  setUpdateTimer_ (Js.or_zero (minUpdatePeriod mpd)) ;;
  setTargetUpdateTime_.

Definition onUpdate_settled (s : Settlement) : M unit :=
  match s with
  | Fulfilled mpd => onUpdate_then mpd
  | Rejected _ => ret tt
  end.

Definition onSeekRangeUpdate_ (startWallTime : Z) : M unit :=
  d <- this ;;
  assert_ (match manifestInfo d with Some m => live m | None => false end) ;;
  assert_ (negb (Qeq_bool (seekEndTime_ d) 0)) ;;
  cancelSeekRangeUpdateTimer_ ;;
  assert_ (Js.ge (Binary64.sub (seekEndTime_ d) (seekStartTime_ d)) 0) ;;
  now <- Date_now wall_clock ;;
  let offset :=
    Binary64.div (Binary64.sub (inject_Z now) (inject_Z startWallTime)) 1000 in
  assign (advance offset) ;;
  d <- this ;;
  (if Js.truthy (targetUpdateTime_ d) &&
      Js.ge (seekEndTime_ d) (Js.to_number (targetUpdateTime_ d))
   then
     now <- Date_now wall_clock ;;
     let secondsSinceLastUpdate :=
       Binary64.sub (Binary64.div (inject_Z now) 1000)
                    (Js.to_number (lastMpdFetchTime_ d)) in
     if Js.ge secondsSinceLastUpdate MIN_UPDATE_INTERVAL_ then onUpdate_
     else ret tt
   else ret tt) ;;
  fireSeekRangeChangedEvent_ ;;
  setSeekRangeUpdateTimer_ wall_clock.

(** The bound functions given to [window.setTimeout]. *)
Definition run (callback : Callback) : M unit :=
  match callback with
  | OnUpdate => onUpdate_
  | OnSeekRangeUpdate startWallTime => onSeekRangeUpdate_ startWallTime
  end.

(** A pending timer fires. *)
Definition timer_fires (handle : positive) : M unit :=
  b <- the_host ;;
  match timers b !! handle with
  | Some (callback, _) => clearTimeout handle ;; run callback
  | None => ret tt
  end.

End Methods.

(** A run of window updates, oldest first. *)
Definition advances (elapsed : list Q) (d : DashVideoSource) : DashVideoSource :=
  fold_left (fun d offset => advance offset d) elapsed d.

(** The video element reports [requestedTime] and raises 'seeking'. *)
Definition seekTo (requestedTime : Q) (w : World) : World :=
  exec onSeeking (mkWorld (self w) (set_videoCurrentTime requestedTime (host w))).

Definition validate (w : World) (requestedTime : Q) : SeekResult :=
  let w' := seekTo requestedTime w in
  if (streamResyncs (self w') =? S (streamResyncs (self w)))%nat then Accepted
  else Clamped (videoCurrentTime (host w')).

End Rounded.

(** [timerWorld starts], with the target update time as binary64 computes
    it. *)
Definition roundedTimerWorld (starts : list Q) : World :=
  let m := manifestOf [Some starts] in
  exec (Rounded.setTargetUpdateTime_ ;; setSeekRangeUpdateTimer_ clock_9_10)
    (mkWorld (set_lastMpdFetchTime_ (Some 0) (sourceWith (Some m) 40 0 10))
       freshHost).

(** The latest time value of a [Date], in milliseconds: 100,000,000 days
    from the epoch. *)
Definition maxTimeValue : Z := 8640000000000000.

(** *** The kernel's binary64, for comparison *)

(** The rational a float of Rocq's kernel (an IEEE 754 binary64 number)
    denotes, when it is finite. *)
Definition valueOf (f : PrimFloat.float) : option Q :=
  match FloatOps.Prim2SF f with
  | SpecFloat.S754_zero _ => Some 0
  | SpecFloat.S754_finite s m e =>
      Some (inject_Z (if s then Zneg m else Zpos m) * Binary64.pow2 e)
  | _ => None
  end.

(** The float of a natural number below [2^63]. *)
Definition ofZ (z : Z) : PrimFloat.float := PrimFloat.of_uint63 (Uint63.of_Z z).

(** The float [f] denotes the number [q]. *)
Definition denotes (f : PrimFloat.float) (q : Q) : Prop :=
  match valueOf f with
  | Some v => v == q
  | None => False
  end.

(** ** Comparisons of the code, as propositions *)

Section Comparisons.

Implicit Types a b : Q.

Lemma ge_true a b : Js.ge a b = true <-> b <= a.
Proof. unfold Js.ge. apply Qle_bool_iff. Qed.

Lemma ge_false a b : Js.ge a b = false <-> a < b.
Proof.
  unfold Js.ge. rewrite <- not_true_iff_false, Qle_bool_iff.
  split; intros H; [ apply Qnot_le_lt, H | apply Qlt_not_le, H ].
Qed.

Lemma le_true a b : Qle_bool a b = true <-> a <= b.
Proof. apply Qle_bool_iff. Qed.

Lemma le_false a b : Qle_bool a b = false <-> b < a.
Proof. apply (ge_false b a). Qed.

Lemma gt_true a b : Js.gt a b = true <-> b < a.
Proof. unfold Js.gt. rewrite negb_true_iff. apply le_false. Qed.

Lemma gt_false a b : Js.gt a b = false <-> a <= b.
Proof. unfold Js.gt. rewrite negb_false_iff. apply le_true. Qed.

Lemma lt_true a b : Js.lt a b = true <-> a < b.
Proof. unfold Js.lt. rewrite negb_true_iff. apply le_false. Qed.

Lemma lt_false a b : Js.lt a b = false <-> b <= a.
Proof. unfold Js.lt. rewrite negb_false_iff. apply le_true. Qed.

Lemma Math_max_cases a b :
  (a <= b /\ Js.Math_max a b = b) \/ (b < a /\ Js.Math_max a b = a).
Proof.
  unfold Js.Math_max. destruct (Qle_bool a b) eqn:E.
  - left. split; [ apply le_true, E | reflexivity ].
  - right. split; [ apply le_false, E | reflexivity ].
Qed.

End Comparisons.

(** Case analysis on one comparison of the code, keeping the fact it decides. *)
Ltac js_case c :=
  let E := fresh "E" in
  destruct c eqn:E;
  first [ apply ge_true in E | apply ge_false in E
        | apply gt_true in E | apply gt_false in E
        | apply lt_true in E | apply lt_false in E
        | apply le_true in E | apply le_false in E ].

(** * Binary64 arithmetic *)

Module Binary64Facts.

Import Binary64.

(** ** Rounding to the nearest integer, ties to even *)

Lemma rne_cases x :
  let f := Qfloor x in
  inject_Z f <= x < inject_Z f + 1 /\
  ((x - inject_Z f < 1 # 2 /\ rne x = f) \/
   (1 # 2 < x - inject_Z f /\ rne x = (f + 1)%Z) \/
   (x - inject_Z f == 1 # 2 /\ rne x = if Z.even f then f else (f + 1)%Z)).
Proof.
  cbv zeta. split.
  - split; [ apply Qfloor_le |].
    pose proof (Qlt_floor x) as H. rewrite inject_Z_plus in H. exact H.
  - unfold rne. destruct (Qcompare (x - inject_Z (Qfloor x)) (1 # 2)) eqn:E.
    + right. right. split; [ apply Qeq_alt, E | reflexivity ].
    + left. split; [ apply Qlt_alt, E | reflexivity ].
    + right. left. split; [ apply Qgt_alt, E | reflexivity ].
Qed.

Lemma rne_range x : (Qfloor x <= rne x <= Qfloor x + 1)%Z.
Proof.
  destruct (rne_cases x) as (_ & [[_ ->] | [[_ ->] | [_ ->]]]);
    try destruct (Z.even _); lia.
Qed.

Lemma rne_bounds x : x - (1 # 2) <= inject_Z (rne x) <= x + (1 # 2).
Proof.
  destruct (rne_cases x) as ((Hlow & Hhigh) & [[H ->] | [[H ->] | [H ->]]]);
    try destruct (Z.even _); rewrite ?inject_Z_plus; change (inject_Z 1) with 1;
    split; lra.
Qed.

Lemma rne_Z z : rne (inject_Z z) = z.
Proof.
  destruct (rne_cases (inject_Z z)) as (_ & H). rewrite Qfloor_Z in H.
  destruct H as [[_ H] | [[H _] | [H _]]]; [ exact H | lra | lra ].
Qed.

Lemma rne_monotone x y : x <= y -> (rne x <= rne y)%Z.
Proof.
  intros Hxy. pose proof (Qfloor_resp_le x y Hxy) as Hfloor.
  destruct (Z.eq_dec (Qfloor x) (Qfloor y)) as [Heq | Hne].
  - destruct (rne_cases x) as (_ & Hx). destruct (rne_cases y) as (_ & Hy).
    rewrite <- Heq in Hy.
    destruct Hx as [[Hx ->] | [[Hx ->] | [Hx ->]]];
      destruct Hy as [[Hy ->] | [[Hy ->] | [Hy ->]]];
      try destruct (Z.even _); try lia; lra.
  - pose proof (rne_range x). pose proof (rne_range y). lia.
Qed.

Lemma rne_proper x y : x == y -> rne x = rne y.
Proof.
  intros H. unfold rne. rewrite (Qfloor_comp x y H).
  assert (Hc : Qcompare (x - inject_Z (Qfloor y)) (1 # 2)
               = Qcompare (y - inject_Z (Qfloor y)) (1 # 2))
    by (apply Qcompare_comp; [ rewrite H; reflexivity | reflexivity ]).
  rewrite Hc. reflexivity.
Qed.

Lemma rne_opp x : rne (- x) = (- rne x)%Z.
Proof.
  destruct (rne_cases x) as ((Hlow & Hhigh) & Hx).
  destruct (rne_cases (- x)) as ((Hlow' & Hhigh') & Hx').
  set (f := Qfloor x) in *. set (g := Qfloor (- x)) in *. clearbody f g.
  assert (Hg : g = (- f)%Z \/ g = (- f - 1)%Z).
  { assert (H1 : (g < - f + 1)%Z).
    { rewrite Zlt_Qlt, inject_Z_plus, inject_Z_opp. change (inject_Z 1) with 1. lra. }
    assert (H2 : (- f - 2 < g)%Z).
    { rewrite Zlt_Qlt. unfold Z.sub. rewrite inject_Z_plus, !inject_Z_opp.
      change (inject_Z 2) with 2. lra. }
    lia. }
  destruct Hg as [Hg | Hg]; rewrite Hg in *.
  - rewrite inject_Z_opp in *.
    assert (Hint : x == inject_Z f) by lra.
    destruct Hx as [[Hx ->] | [[Hx _] | [Hx _]]]; [| lra | lra ].
    destruct Hx' as [[Hx' ->] | [[Hx' _] | [Hx' _]]]; [ reflexivity | lra | lra ].
  - unfold Z.sub in *. rewrite inject_Z_plus, !inject_Z_opp in *.
    change (inject_Z 1) with 1 in *.
    destruct Hx as [[Hx ->] | [[Hx ->] | [Hx ->]]];
      destruct Hx' as [[Hx' ->] | [[Hx' ->] | [Hx' ->]]]; try lra; try lia.
    assert (He : Z.even (- f + - (1)) = negb (Z.even f))
      by (rewrite Z.even_add, Z.even_opp; destruct (Z.even f); reflexivity).
    rewrite He. destruct (Z.even f); cbn [negb]; lia.
Qed.

(** ** Powers of two and the binary exponent *)

Lemma pow2_pos e : 0 < pow2 e.
Proof. apply Qpower_0_lt. reflexivity. Qed.

Lemma pow2_add a b : pow2 (a + b) == pow2 a * pow2 b.
Proof. apply Qpower_plus. discriminate. Qed.

Lemma pow2_le a b : (a <= b)%Z -> pow2 a <= pow2 b.
Proof. intros H. apply Qpower_le_compat_l; [ exact H | discriminate ]. Qed.

Lemma pow2_lt a b : (a < b)%Z -> pow2 a < pow2 b.
Proof. intros H. apply Qpower_lt_compat_l; [ exact H | reflexivity ]. Qed.

Lemma pow2_lt_inv a b : pow2 a < pow2 b -> (a < b)%Z.
Proof. intros H. apply (Qpower_lt_compat_l_inv 2); [ exact H | reflexivity ]. Qed.

Lemma pow2_Z e : (0 <= e)%Z -> pow2 e == inject_Z (2 ^ e).
Proof. intros H. unfold pow2. rewrite Zpower_Qpower by exact H. reflexivity. Qed.

Lemma pow2_div a b : pow2 a / pow2 b == pow2 (a - b).
Proof.
  replace a with ((a - b) + b)%Z at 1 by ring. rewrite pow2_add.
  field. pose proof (pow2_pos b). lra.
Qed.

Lemma Qabs_num_den q :
  Qabs q * inject_Z (Zpos (Qden q)) == inject_Z (Z.abs (Qnum q)).
Proof.
  destruct q as [n d]. unfold Qabs, Qeq, Qmult, inject_Z. cbn. lia.
Qed.

Lemma Z_log2_pow2 n :
  (0 < n)%Z -> pow2 (Z.log2 n) <= inject_Z n /\ inject_Z n < pow2 (Z.log2 n + 1).
Proof.
  intros Hn. destruct (Z.log2_spec n Hn) as [Hlow Hhigh].
  pose proof (Z.log2_nonneg n) as Hnonneg.
  rewrite !pow2_Z by lia. rewrite <- Zle_Qle, <- Zlt_Qlt.
  unfold Z.succ in Hhigh. split; assumption.
Qed.

Lemma ilog2_spec q :
  ~ q == 0 -> pow2 (ilog2 q) <= Qabs q /\ Qabs q < pow2 (ilog2 q + 1).
Proof.
  intros Hq. unfold ilog2.
  set (n := Z.abs (Qnum q)). set (d := Zpos (Qden q)).
  assert (Hn : (0 < n)%Z).
  { subst n. destruct q as [[| p | p] dq]; cbn; try lia.
    exfalso. apply Hq. reflexivity. }
  assert (Hd : (0 < d)%Z) by (subst d; lia).
  destruct (Z_log2_pow2 n Hn) as [Hn1 Hn2].
  destruct (Z_log2_pow2 d Hd) as [Hd1 Hd2].
  pose proof (Qabs_num_den q) as Hfrac. fold n d in Hfrac.
  set (a := Z.log2 n) in *. set (b := Z.log2 d) in *.
  pose proof (pow2_pos b) as Hb. pose proof (pow2_pos (a - b)) as Hab.
  assert (Hup : Qabs q < pow2 (a - b + 1)).
  { apply Qnot_le_lt. intros Hge.
    assert (H1 : pow2 (a - b + 1) * pow2 b <= Qabs q * inject_Z d).
    { apply Qmult_le_compat_nonneg; split; try lra.
      pose proof (pow2_pos (a - b + 1)). lra. }
    rewrite <- pow2_add in H1. replace (a - b + 1 + b)%Z with (a + 1)%Z in H1 by ring.
    lra. }
  assert (Hdown : pow2 (a - b - 1) < Qabs q).
  { apply Qnot_le_lt. intros Hle.
    assert (H1 : Qabs q * inject_Z d <= pow2 (a - b - 1) * inject_Z d).
    { apply Qmult_le_compat_r; [ exact Hle | lra ]. }
    assert (H2 : pow2 (a - b - 1) * inject_Z d < pow2 (a - b - 1) * pow2 (b + 1)).
    { apply Qmult_lt_l; [ apply pow2_pos | exact Hd2 ]. }
    rewrite <- pow2_add in H2. replace (a - b - 1 + (b + 1))%Z with a in H2 by ring.
    lra. }
  destruct (Qle_bool (pow2 (a - b)) (Qabs q)) eqn:E.
  - apply Qle_bool_iff in E. split; assumption.
  - assert (Hlt : Qabs q < pow2 (a - b)).
    { apply Qnot_le_lt. intros H. apply Qle_bool_iff in H. congruence. }
    replace (a - b - 1 + 1)%Z with (a - b)%Z by ring. split; lra.
Qed.

Lemma ilog2_unique q l :
  ~ q == 0 -> pow2 l <= Qabs q -> Qabs q < pow2 (l + 1) -> ilog2 q = l.
Proof.
  intros Hq Hlow Hhigh. destruct (ilog2_spec q Hq) as [Hlow' Hhigh'].
  assert (H1 : (l < ilog2 q + 1)%Z) by (apply pow2_lt_inv; lra).
  assert (H2 : (ilog2 q < l + 1)%Z) by (apply pow2_lt_inv; lra).
  lia.
Qed.

Lemma ilog2_proper x y : x == y -> ~ x == 0 -> ilog2 x = ilog2 y.
Proof.
  intros H Hx. destruct (ilog2_spec x Hx) as [Hlow Hhigh].
  symmetry. apply ilog2_unique.
  - rewrite <- H. exact Hx.
  - rewrite <- H. exact Hlow.
  - rewrite <- H. exact Hhigh.
Qed.

Lemma ilog2_pos_spec q :
  0 < q -> pow2 (ilog2 q) <= q /\ q < pow2 (ilog2 q + 1).
Proof.
  intros Hq. assert (Hne : ~ q == 0) by lra.
  destruct (ilog2_spec q Hne) as [H1 H2].
  rewrite Qabs_pos in H1, H2 by lra. split; assumption.
Qed.

Lemma ilog2_monotone x y : 0 < x -> x <= y -> (ilog2 x <= ilog2 y)%Z.
Proof.
  intros Hx Hxy.
  destruct (ilog2_pos_spec x Hx) as [Hx1 _].
  destruct (ilog2_pos_spec y) as [_ Hy2]; [ lra |].
  assert (H : (ilog2 x < ilog2 y + 1)%Z) by (apply pow2_lt_inv; lra).
  lia.
Qed.

Lemma Qabs_opp_eq q : Qabs (- q) = Qabs q.
Proof. destruct q as [n d]. unfold Qabs, Qopp. cbn. rewrite Z.abs_opp. reflexivity. Qed.

Lemma ilog2_opp q : ilog2 (- q) = ilog2 q.
Proof.
  unfold ilog2. rewrite Qabs_opp_eq.
  destruct q as [n d]. cbn [Qopp Qnum Qden].
  rewrite Z.abs_opp. reflexivity.
Qed.

(** ** Rounding to binary64 *)

Lemma exponent_min q : (-1074 <= exponent q)%Z.
Proof. unfold exponent. lia. Qed.

Lemma round_nonzero q :
  ~ q == 0 ->
  round q == inject_Z (rne (q / pow2 (exponent q))) * pow2 (exponent q).
Proof.
  intros Hq. unfold round.
  destruct (Qeq_bool q 0) eqn:E; [ apply Qeq_bool_iff in E; contradiction |].
  reflexivity.
Qed.

Lemma round_zero q : q == 0 -> round q == 0.
Proof.
  intros Hq. unfold round. apply Qeq_bool_iff in Hq. rewrite Hq. reflexivity.
Qed.

Lemma round_proper x y : x == y -> round x == round y.
Proof.
  intros H. destruct (Qeq_dec x 0) as [Hx | Hx].
  - rewrite (round_zero x Hx), (round_zero y); [ reflexivity |].
    rewrite <- H. exact Hx.
  - assert (Hy : ~ y == 0) by (rewrite <- H; exact Hx).
    rewrite (round_nonzero x Hx), (round_nonzero y Hy).
    unfold exponent. rewrite (ilog2_proper x y H Hx).
    assert (Hr : rne (x / pow2 (Z.max (ilog2 y - 52) (-1074)))
                 = rne (y / pow2 (Z.max (ilog2 y - 52) (-1074))))
      by (apply rne_proper; rewrite H; reflexivity).
    rewrite Hr. reflexivity.
Qed.

#[global] Instance round_Proper : Proper (Qeq ==> Qeq) round.
Proof. intros x y H. apply round_proper, H. Qed.

Lemma round_opp q : round (- q) == - round q.
Proof.
  destruct (Qeq_dec q 0) as [Hq | Hq].
  - rewrite (round_zero q Hq), (round_zero (- q)); [ reflexivity |].
    rewrite Hq. reflexivity.
  - assert (Hq' : ~ - q == 0) by (intros H; apply Hq; lra).
    rewrite (round_nonzero q Hq), (round_nonzero _ Hq').
    unfold exponent. rewrite ilog2_opp.
    set (e := Z.max (ilog2 q - 52) (-1074)).
    assert (Hr : rne (- q / pow2 e) = (- rne (q / pow2 e))%Z).
    { rewrite <- rne_opp. apply rne_proper. field.
      pose proof (pow2_pos e). lra. }
    rewrite Hr, inject_Z_opp. ring.
Qed.

Lemma rne_nonneg x : 0 <= x -> (0 <= rne x)%Z.
Proof.
  intros H. rewrite <- (rne_Z 0). apply rne_monotone. exact H.
Qed.

Lemma round_nonneg q : 0 <= q -> 0 <= round q.
Proof.
  intros Hq. destruct (Qeq_dec q 0) as [H0 | H0].
  - rewrite (round_zero q H0). lra.
  - rewrite (round_nonzero q H0).
    pose proof (pow2_pos (exponent q)) as Hp.
    assert (Hx : 0 <= q / pow2 (exponent q)).
    { apply Qle_shift_div_l; [ exact Hp | lra ]. }
    apply rne_nonneg in Hx. rewrite Zle_Qle in Hx.
    apply Qmult_le_0_compat; [ exact Hx | lra ].
Qed.

(** The scaled value of a positive number lies below [2^53]. *)
Lemma scaled_bounds q :
  0 < q ->
  q / pow2 (exponent q) < pow2 53 /\
  ((-1074 <= ilog2 q - 52)%Z -> pow2 52 <= q / pow2 (exponent q)).
Proof.
  intros Hq. destruct (ilog2_pos_spec q Hq) as [Hlow Hhigh].
  pose proof (pow2_pos (exponent q)) as Hp.
  split.
  - apply Qlt_shift_div_r; [ exact Hp |].
    rewrite <- pow2_add.
    apply Qlt_le_trans with (1 := Hhigh). apply pow2_le. unfold exponent. lia.
  - intros Hnormal. apply Qle_shift_div_l; [ exact Hp |].
    rewrite <- pow2_add.
    apply Qle_trans with (2 := Hlow). apply pow2_le. unfold exponent. lia.
Qed.

Lemma rne_le_Z x z : x <= inject_Z z -> (rne x <= z)%Z.
Proof. intros H. rewrite <- (rne_Z z). apply rne_monotone, H. Qed.

Lemma rne_ge_Z x z : inject_Z z <= x -> (z <= rne x)%Z.
Proof. intros H. rewrite <- (rne_Z z). apply rne_monotone, H. Qed.

(** A positive number rounds to [n * 2^e] with [0 <= n <= 2^53]. *)
Lemma round_pos_form q :
  0 < q ->
  let n := rne (q / pow2 (exponent q)) in
  round q == inject_Z n * pow2 (exponent q) /\ (0 <= n <= 2 ^ 53)%Z.
Proof.
  intros Hq n. split.
  - apply round_nonzero. lra.
  - destruct (scaled_bounds q Hq) as [Hhigh _].
    pose proof (pow2_pos (exponent q)) as Hp.
    split.
    + apply rne_nonneg. apply Qle_shift_div_l; [ exact Hp | lra ].
    + apply rne_le_Z. rewrite <- pow2_Z by lia. lra.
Qed.

(** A normal positive number rounds into the closure of its binade. *)
Lemma round_pos_binade q :
  0 < q -> pow2 (-1022) <= q ->
  pow2 (ilog2 q) <= round q <= pow2 (ilog2 q + 1).
Proof.
  intros Hq Hnormal.
  destruct (ilog2_pos_spec q Hq) as [Hlow Hhigh].
  assert (Hk : (-1022 <= ilog2 q)%Z).
  { assert (H : (-1022 < ilog2 q + 1)%Z) by (apply pow2_lt_inv; lra). lia. }
  assert (He : exponent q = (ilog2 q - 52)%Z) by (unfold exponent; lia).
  destruct (scaled_bounds q Hq) as [Hs1 Hs2].
  rewrite (round_nonzero q) by lra. rewrite He in *.
  pose proof (pow2_pos (ilog2 q - 52)) as Hp.
  assert (H52 : (2 ^ 52 <= rne (q / pow2 (ilog2 q - 52)))%Z).
  { apply rne_ge_Z. rewrite <- pow2_Z by lia. apply Hs2. lia. }
  assert (H53 : (rne (q / pow2 (ilog2 q - 52)) <= 2 ^ 53)%Z).
  { apply rne_le_Z. rewrite <- pow2_Z by lia. lra. }
  rewrite Zle_Qle in H52, H53. rewrite <- pow2_Z in H52, H53 by lia.
  replace (ilog2 q) with (52 + (ilog2 q - 52))%Z at 1 by ring.
  replace (ilog2 q + 1)%Z with (53 + (ilog2 q - 52))%Z by ring.
  rewrite !pow2_add. split; apply Qmult_le_compat_r; lra.
Qed.

(** ** The numbers that are doubles *)

Lemma round_representable_pos m e :
  (-1074 <= e)%Z -> (0 < m < 2 ^ 53)%Z ->
  round (inject_Z m * pow2 e) == inject_Z m * pow2 e.
Proof.
  intros He Hm. set (q := inject_Z m * pow2 e).
  pose proof (pow2_pos e) as Hpe.
  assert (Hm0 : 0 < inject_Z m) by (change 0 with (inject_Z 0); rewrite <- Zlt_Qlt; lia).
  assert (Hq : 0 < q) by (apply Qmult_lt_0_compat; assumption).
  destruct (ilog2_pos_spec q Hq) as [Hlow Hhigh].
  assert (Hm53 : inject_Z m < pow2 53).
  { rewrite pow2_Z by lia. rewrite <- Zlt_Qlt. lia. }
  assert (Hk : (ilog2 q < 53 + e)%Z).
  { apply pow2_lt_inv. apply Qle_lt_trans with (1 := Hlow).
    rewrite pow2_add. unfold q. apply Qmult_lt_compat_r; assumption. }
  assert (HE : (exponent q <= e)%Z) by (unfold exponent; lia).
  rewrite (round_nonzero q) by lra.
  set (E := exponent q) in *.
  assert (Hscaled : q / pow2 E == inject_Z (m * 2 ^ (e - E))).
  { rewrite inject_Z_mult, <- pow2_Z by lia. unfold q.
    rewrite <- (pow2_div e E). field. pose proof (pow2_pos E). lra. }
  rewrite (rne_proper _ _ Hscaled), rne_Z.
  rewrite inject_Z_mult, <- pow2_Z by lia. unfold q.
  rewrite <- Qmult_assoc, <- pow2_add.
  replace (e - E + E)%Z with e by ring. reflexivity.
Qed.

Lemma round_representable m e :
  (-1074 <= e)%Z -> (Z.abs m <= 2 ^ 53)%Z ->
  round (inject_Z m * pow2 e) == inject_Z m * pow2 e.
Proof.
  intros He Hm.
  assert (Hpos : forall n, (0 < n <= 2 ^ 53)%Z ->
                   round (inject_Z n * pow2 e) == inject_Z n * pow2 e).
  { intros n Hn. destruct (Z.eq_dec n (2 ^ 53)%Z) as [-> | Hne].
    - assert (H : inject_Z (2 ^ 53) * pow2 e == inject_Z (2 ^ 52) * pow2 (e + 1)).
      { rewrite <- !pow2_Z, <- !pow2_add by lia.
        replace (52 + (e + 1))%Z with (53 + e)%Z by ring. reflexivity. }
      rewrite H. apply round_representable_pos; lia.
    - apply round_representable_pos; lia. }
  destruct (Z_dec' m 0) as [[Hneg | Hgt] | ->].
  - assert (H : inject_Z m * pow2 e == - (inject_Z (- m) * pow2 e))
      by (rewrite inject_Z_opp; ring).
    rewrite H, round_opp, Hpos by lia. reflexivity.
  - apply Hpos. lia.
  - assert (H : inject_Z 0 * pow2 e == 0) by (change (inject_Z 0) with 0; ring).
    rewrite H. apply round_zero. reflexivity.
Qed.

Lemma round_idempotent q : round (round q) == round q.
Proof.
  assert (Hpos : forall x, 0 < x -> round (round x) == round x).
  { intros x Hx. destruct (round_pos_form x Hx) as [Hform Hn].
    rewrite Hform. apply round_representable; [ apply exponent_min | lia ]. }
  destruct (Q_dec q 0) as [[Hneg | Hgt] | Hz].
  - assert (H : q == - (- q)) by ring.
    set (p := - q) in *. assert (Hp : 0 < p) by (unfold p; lra). clearbody p.
    rewrite H, (round_opp p), (round_opp (round p)), (Hpos p Hp). reflexivity.
  - apply Hpos, Hgt.
  - rewrite (round_zero q Hz). apply round_zero. reflexivity.
Qed.

Lemma isDouble_round q : isDouble (round q).
Proof. apply round_idempotent. Qed.

Lemma isDouble_opp x : isDouble x -> isDouble (- x).
Proof. unfold isDouble. intros H. rewrite round_opp, H. reflexivity. Qed.

Lemma isDouble_Z z : (Z.abs z <= 2 ^ 53)%Z -> isDouble (inject_Z z).
Proof.
  intros Hz. unfold isDouble.
  assert (H : inject_Z z == inject_Z z * pow2 0) by (unfold pow2; cbn; ring).
  rewrite H at 1. rewrite round_representable by lia. symmetry. exact H.
Qed.

(** ** Rounding is monotone *)

Lemma round_monotone_pos x y : 0 < x -> x <= y -> round x <= round y.
Proof.
  intros Hx Hxy. assert (Hy : 0 < y) by lra.
  pose proof (ilog2_monotone x y Hx Hxy) as Hk.
  destruct (Z.eq_dec (exponent x) (exponent y)) as [He | He].
  - rewrite (round_nonzero x), (round_nonzero y) by lra. rewrite He.
    pose proof (pow2_pos (exponent y)) as Hp.
    apply Qmult_le_compat_r; [| lra ].
    rewrite <- Zle_Qle. apply rne_monotone.
    apply Qmult_le_compat_r; [ exact Hxy |].
    apply Qlt_le_weak, Qinv_lt_0_compat, Hp.
  - assert (Hlt : (exponent x < exponent y)%Z) by (unfold exponent in *; lia).
    assert (Hey : exponent y = (ilog2 y - 52)%Z) by (unfold exponent in *; lia).
    assert (Hkx : (ilog2 x + 1 <= ilog2 y)%Z) by (unfold exponent in *; lia).
    destruct (ilog2_pos_spec x Hx) as [_ Hxhigh].
    destruct (ilog2_pos_spec y Hy) as [Hylow _].
    pose proof (exponent_min x) as Hmin.
    apply Qle_trans with (pow2 (ilog2 y)).
    + rewrite (round_nonzero x) by lra.
      pose proof (pow2_pos (exponent x)) as Hp.
      replace (ilog2 y) with ((ilog2 y - exponent x) + exponent x)%Z at 1 by ring.
      rewrite pow2_add. apply Qmult_le_compat_r; [| lra ].
      rewrite (pow2_Z (ilog2 y - exponent x)) by lia.
      rewrite <- Zle_Qle. apply rne_le_Z.
      rewrite <- pow2_Z by lia.
      apply Qle_shift_div_r; [ exact Hp |].
      rewrite <- pow2_add.
      replace (ilog2 y - exponent x + exponent x)%Z with (ilog2 y) by ring.
      apply Qle_trans with (pow2 (ilog2 x + 1)); [ lra | apply pow2_le; lia ].
    + rewrite (round_nonzero y) by lra. rewrite Hey.
      pose proof (pow2_pos (ilog2 y - 52)) as Hp.
      replace (ilog2 y) with (52 + (ilog2 y - 52))%Z at 1 by ring.
      rewrite pow2_add. apply Qmult_le_compat_r; [| lra ].
      rewrite (pow2_Z 52) by lia. rewrite <- Zle_Qle. apply rne_ge_Z.
      rewrite <- pow2_Z by lia.
      apply Qle_shift_div_l; [ exact Hp |].
      rewrite <- pow2_add.
      replace (52 + (ilog2 y - 52))%Z with (ilog2 y) by ring. exact Hylow.
Qed.

Lemma round_nonpos q : q <= 0 -> round q <= 0.
Proof.
  intros Hq. assert (H : q == - (- q)) by ring.
  rewrite H, round_opp.
  assert (H0 : 0 <= round (- q)) by (apply round_nonneg; lra). lra.
Qed.

Lemma round_monotone x y : x <= y -> round x <= round y.
Proof.
  intros Hxy. destruct (Qlt_le_dec 0 x) as [Hx | Hx].
  - apply round_monotone_pos; assumption.
  - destruct (Qlt_le_dec y 0) as [Hy | Hy].
    + assert (H : round (- y) <= round (- x)) by (apply round_monotone_pos; lra).
      rewrite !round_opp in H. lra.
    + apply Qle_trans with 0; [ apply round_nonpos, Hx | apply round_nonneg, Hy ].
Qed.

(** ** How far rounding moves a number *)

Lemma round_error q : Qabs (round q - q) <= pow2 (exponent q - 1).
Proof.
  pose proof (pow2_pos (exponent q - 1)) as Hhalf.
  destruct (Qeq_dec q 0) as [Hz | Hnz].
  - pose proof (round_zero q Hz) as Hr.
    apply Qabs_Qle_condition. split; lra.
  - rewrite (round_nonzero q Hnz).
    set (E := exponent q) in *. pose proof (pow2_pos E) as Hp.
    destruct (rne_bounds (q / pow2 E)) as [Hlow Hhigh].
    set (n := inject_Z (rne (q / pow2 E))) in *. clearbody n.
    assert (Hq : q == q / pow2 E * pow2 E) by (field; lra).
    assert (HE : pow2 E == 2 * pow2 (E - 1)).
    { replace E with (1 + (E - 1))%Z at 1 by ring. rewrite pow2_add. reflexivity. }
    set (s := q / pow2 E) in *. clearbody s.
    apply Qabs_Qle_condition. rewrite Hq. split.
    + assert (H : 0 <= (n - s + (1 # 2)) * pow2 E)
        by (apply Qmult_le_0_compat; lra).
      lra.
    + assert (H : 0 <= (s + (1 # 2) - n) * pow2 E)
        by (apply Qmult_le_0_compat; lra).
      lra.
Qed.

(** Half a unit in the last place, against the number itself. *)
Lemma half_ulp_le q :
  ~ q == 0 -> pow2 (exponent q - 1) <= Qabs q * pow2 (-53) + pow2 (-1075).
Proof.
  intros Hnz.
  pose proof (pow2_pos (-53)) as H53. pose proof (pow2_pos (-1075)) as Hmin.
  pose proof (Qabs_nonneg q) as Hq.
  destruct (Z_le_gt_dec (-1074) (ilog2 q - 52)) as [Hnormal | Hsub].
  - destruct (ilog2_spec q Hnz) as [Hlow _].
    replace (exponent q - 1)%Z with (ilog2 q + -53)%Z by (unfold exponent; lia).
    rewrite pow2_add.
    assert (H : pow2 (ilog2 q) * pow2 (-53) <= Qabs q * pow2 (-53))
      by (apply Qmult_le_compat_r; lra).
    lra.
  - replace (exponent q - 1)%Z with (-1075)%Z by (unfold exponent; lia).
    assert (H : 0 <= Qabs q * pow2 (-53)) by (apply Qmult_le_0_compat; lra).
    lra.
Qed.

Lemma round_error_zero q : q == 0 -> Qabs (round q - q) == 0.
Proof.
  intros Hz. pose proof (round_zero q Hz) as Hr.
  assert (H : round q - q == 0) by lra. rewrite H. reflexivity.
Qed.

Lemma round_error_relative q :
  Qabs (round q - q) <= Qabs q * pow2 (-53) + pow2 (-1075).
Proof.
  destruct (Qeq_dec q 0) as [Hz | Hnz].
  - rewrite (round_error_zero q Hz).
    pose proof (pow2_pos (-53)). pose proof (pow2_pos (-1075)).
    pose proof (Qabs_nonneg q).
    assert (H2 : 0 <= Qabs q * pow2 (-53)) by (apply Qmult_le_0_compat; lra).
    lra.
  - apply Qle_trans with (1 := round_error q). apply half_ulp_le, Hnz.
Qed.

(** The same, against the rounded number: a double and the numbers that round
    to it. *)
Lemma round_error_result q :
  0 <= q -> Qabs (round q - q) <= round q * pow2 (-53) + pow2 (-1075).
Proof.
  intros Hq.
  pose proof (pow2_pos (-53)) as H53. pose proof (pow2_pos (-1075)) as Hmin.
  pose proof (round_nonneg q Hq) as Hr.
  assert (H0 : 0 <= round q * pow2 (-53)) by (apply Qmult_le_0_compat; lra).
  destruct (Qeq_dec q 0) as [Hz | Hnz].
  - rewrite (round_error_zero q Hz). lra.
  - apply Qle_trans with (1 := round_error q).
    assert (Hpos : 0 < q) by lra.
    destruct (Z_le_gt_dec (-1074) (ilog2 q - 52)) as [Hnormal | Hsub].
    + assert (Hn : pow2 (-1022) <= q).
      { destruct (ilog2_pos_spec q Hpos) as [Hlow _].
        apply Qle_trans with (2 := Hlow). apply pow2_le. lia. }
      destruct (round_pos_binade q Hpos Hn) as [Hlow _].
      replace (exponent q - 1)%Z with (ilog2 q + -53)%Z by (unfold exponent; lia).
      rewrite pow2_add.
      assert (H : pow2 (ilog2 q) * pow2 (-53) <= round q * pow2 (-53))
        by (apply Qmult_le_compat_r; lra).
      lra.
    + replace (exponent q - 1)%Z with (-1075)%Z by (unfold exponent; lia). lra.
Qed.

(** Below [2^(k+1)] rounding moves a number by at most [2^(k-53)]. *)
Lemma round_error_below q k :
  Qabs q < pow2 (k + 1) -> (-1074 <= k - 52)%Z ->
  Qabs (round q - q) <= pow2 (k - 53).
Proof.
  intros Hq Hk. destruct (Qeq_dec q 0) as [Hz | Hnz].
  - rewrite (round_error_zero q Hz). apply Qlt_le_weak, pow2_pos.
  - apply Qle_trans with (1 := round_error q). apply pow2_le.
    destruct (ilog2_spec q Hnz) as [Hlow _].
    assert (H : (ilog2 q < k + 1)%Z) by (apply pow2_lt_inv; lra).
    unfold exponent. lia.
Qed.

End Binary64Facts.

Import Binary64Facts.

(** ** The model of binary64 against the kernel's *)

(** The operations of [Binary64] give what the kernel's floats give, on
    the computations the properties below turn on: the tolerance 0.01 and the
    bounds [5 - 0.01] and [100 + 0.01]; the width of [11.584, 50.584] and
    the guard on it; the seconds of 1002, 1011 and 1029 ms and their running
    sums from 10 and 50; the product [1000 * 3]; and the difference of the
    seconds of 4004 and 1004 ms. *)
Lemma binary64_as_the_kernel :
  let float_div := PrimFloat.div in
  let float_sub := PrimFloat.sub in
  let float_add := PrimFloat.add in
  let float_mul := PrimFloat.mul in
  let seconds := fun ms => float_div (ofZ ms) (ofZ 1000) in
  let Seconds := fun ms => Binary64.div (inject_Z ms) 1000 in
  denotes (float_div (ofZ 1) (ofZ 100)) (Binary64.number 0.01) /\
  denotes (float_sub (ofZ 5) (float_div (ofZ 1) (ofZ 100)))
          (Binary64.sub 5 (Binary64.number 0.01)) /\
  denotes (float_add (ofZ 100) (float_div (ofZ 1) (ofZ 100)))
          (Binary64.add 100 (Binary64.number 0.01)) /\
  denotes (seconds 100010%Z) (Binary64.number 100.01) /\
  denotes (float_sub (seconds 50584%Z) (seconds 11584%Z))
          (Binary64.sub (Binary64.number 50.584) (Binary64.number 11.584)) /\
  denotes (float_add (float_sub (seconds 50584%Z) (seconds 11584%Z)) (ofZ 1))
          (Binary64.add
             (Binary64.sub (Binary64.number 50.584) (Binary64.number 11.584)) 1) /\
  denotes (float_add (float_add (ofZ 50) (seconds 1002%Z)) (seconds 1011%Z))
          (Binary64.add (Binary64.add 50 (Seconds 1002%Z)) (Seconds 1011%Z)) /\
  denotes (float_add (float_add (ofZ 10) (seconds 1002%Z)) (seconds 1011%Z))
          (Binary64.add (Binary64.add 10 (Seconds 1002%Z)) (Seconds 1011%Z)) /\
  denotes (float_add (ofZ 10) (seconds 1029%Z)) (Binary64.add 10 (Seconds 1029%Z)) /\
  denotes (float_add (ofZ 50) (seconds 1029%Z)) (Binary64.add 50 (Seconds 1029%Z)) /\
  denotes (float_mul (ofZ 1000) (ofZ 3)) (Binary64.mul 1000 3) /\
  denotes (float_sub (seconds 4004%Z) (seconds 1004%Z))
          (Binary64.sub (Seconds 4004%Z) (Seconds 1004%Z)).
Proof.
  cbv zeta. unfold denotes. vm_compute. repeat split; reflexivity.
Qed.

(** ** The seek window, without rounding *)

Lemma advance_seekEndTime_ offset d :
  seekEndTime_ (advance offset d) = seekEndTime_ d + offset.
Proof. unfold advance. destruct (Js.gt _ _); reflexivity. Qed.

Lemma advance_slides offset d :
  timeShiftBufferDepth_ d < seekWindow d + offset ->
  seekStartTime_ (advance offset d) = seekStartTime_ d + offset.
Proof.
  intros H. unfold advance. fold (seekWindow d).
  js_case (Js.gt (seekWindow d + offset) (timeShiftBufferDepth_ d)).
  - reflexivity.
  - lra.
Qed.

Lemma advance_grows offset d :
  seekWindow d + offset <= timeShiftBufferDepth_ d ->
  seekStartTime_ (advance offset d) = seekStartTime_ d.
Proof.
  intros H. unfold advance. fold (seekWindow d).
  js_case (Js.gt (seekWindow d + offset) (timeShiftBufferDepth_ d)).
  - lra.
  - reflexivity.
Qed.

(** ** Running the methods *)

(** Reads of fields after assignments. *)
Ltac fields :=
  cbn [fst snd self host
       manifestInfo streamResyncs mpdUrl_ interpretContentProtection_
       targetUpdateTime_ lastMpdFetchTime_ updateTimer_ timeShiftBufferDepth_
       seekStartTime_ seekEndTime_ seekRangeUpdateTimer_
       set_manifestInfo set_streamResyncs set_interpretContentProtection_
       set_targetUpdateTime_ set_lastMpdFetchTime_ set_updateTimer_
       set_timeShiftBufferDepth_ set_seekStartTime_ set_seekEndTime_
       set_seekRangeUpdateTimer_
       timers nextTimer clockReads videoCurrentTime mpdRequests dispatched
       playListener
       set_timers set_nextTimer set_clockReads set_videoCurrentTime
       set_mpdRequests set_dispatched set_playListener] in *.

Lemma bind_normal {A B} (m : M A) (k : A -> M B) w a w' :
  m w = (Normal a, w') -> bind m k w = k a w'.
Proof. intros H. unfold bind. rewrite H. reflexivity. Qed.

(** One statement of a method body whose outcome is known. *)
Ltac step_with lem :=
  erewrite bind_normal by (first [ apply lem | reflexivity ]).

Ltac step := erewrite bind_normal by reflexivity.

Section Runs.

Variable wall_clock : nat -> Z.
Variable process : option ContentProtectionCallback -> Mpd -> ManifestInfo.
Variable computeStreamLimits : option ManifestInfo -> option StreamLimits.

Lemma cancelUpdateTimer_run w :
  cancelUpdateTimer_ w =
    (Normal tt, mkWorld (set_updateTimer_ None (self w))
                        (cleared (updateTimer_ (self w)) (host w))).
Proof.
  destruct w as [[] b]. unfold cancelUpdateTimer_. cbn.
  destruct updateTimer_0; reflexivity.
Qed.

Lemma cancelSeekRangeUpdateTimer_run w :
  cancelSeekRangeUpdateTimer_ w =
    (Normal tt, mkWorld (set_seekRangeUpdateTimer_ None (self w))
                        (cleared (seekRangeUpdateTimer_ (self w)) (host w))).
Proof.
  destruct w as [[] b]. unfold cancelSeekRangeUpdateTimer_. cbn.
  destruct seekRangeUpdateTimer_0; reflexivity.
Qed.

Lemma destroy_run w :
  destroy w =
    (Normal tt,
     mkWorld
       (set_manifestInfo None
          (set_interpretContentProtection_ None
             (set_seekRangeUpdateTimer_ None (set_updateTimer_ None (self w)))))
       (cleared (seekRangeUpdateTimer_ (self w))
          (cleared (updateTimer_ (self w)) (host w)))).
Proof.
  unfold destroy.
  step_with cancelUpdateTimer_run. step_with cancelSeekRangeUpdateTimer_run.
  reflexivity.
Qed.

Lemma setUpdateTimer_run minUpdatePeriod w :
  setUpdateTimer_ minUpdatePeriod w =
    (Normal tt,
     let handle := nextTimer (host w) in
     let ms := 1000 * Js.Math_max minUpdatePeriod MIN_UPDATE_INTERVAL_ in
     mkWorld (set_updateTimer_ (Some handle) (self w))
       (set_nextTimer (Pos.succ handle)
          (set_timers (<[handle := (OnUpdate, ms)]> (timers (host w))) (host w)))).
Proof. reflexivity. Qed.

Lemma this_manifestInfo_run w m :
  manifestInfo (self w) = Some m -> this_manifestInfo w = (Normal m, w).
Proof. intros H. unfold this_manifestInfo, bind, this. rewrite H. reflexivity. Qed.

Lemma setTargetUpdateTime_run w m :
  manifestInfo (self w) = Some m ->
  setTargetUpdateTime_ w =
    (Normal tt, mkWorld (set_targetUpdateTime_ (targetUpdateTime m) (self w)) (host w)).
Proof.
  intros H. unfold setTargetUpdateTime_, this_manifestInfo, bind, this.
  rewrite H. reflexivity.
Qed.

Lemma setTargetUpdateTime_throws w :
  manifestInfo (self w) = None ->
  setTargetUpdateTime_ w = (Throw Js.TypeError, w).
Proof.
  intros H. unfold setTargetUpdateTime_, this_manifestInfo, bind, this.
  rewrite H. reflexivity.
Qed.

Lemma fireSeekRangeChangedEvent_run w :
  fireSeekRangeChangedEvent_ w =
    (Normal tt,
     mkWorld (self w)
       (set_dispatched
          (dispatched (host w) ++
           [ {| eventStart := seekStartTime_ (self w);
                eventEnd := seekEndTime_ (self w) |} ])
          (host w))).
Proof. reflexivity. Qed.

Lemma setSeekRangeUpdateTimer_run w :
  setSeekRangeUpdateTimer_ wall_clock w =
    (Normal tt,
     let handle := nextTimer (host w) in
     let now := wall_clock (clockReads (host w)) in
     mkWorld (set_seekRangeUpdateTimer_ (Some handle) (self w))
       (set_nextTimer (Pos.succ handle)
          (set_timers (<[handle := (OnSeekRangeUpdate now, 1000)]> (timers (host w)))
             (set_clockReads (S (clockReads (host w))) (host w))))).
Proof. reflexivity. Qed.

Lemma onUpdate_run w :
  onUpdate_ wall_clock w =
    (Normal tt,
     let b := cleared (updateTimer_ (self w)) (host w) in
     let currentTime := inject_Z (wall_clock (clockReads b)) / 1000 in
     mkWorld
       (set_lastMpdFetchTime_ (Some currentTime) (set_updateTimer_ None (self w)))
       (set_mpdRequests (mpdRequests b ++ [mpdUrl_ (self w)])
          (set_clockReads (S (clockReads b)) b))).
Proof.
  unfold onUpdate_, assert_. do 2 step.
  step_with cancelUpdateTimer_run. reflexivity.
Qed.

Lemma onUpdate_then_run mpd w :
  onUpdate_then process mpd w =
    (Normal tt,
     let m := process (interpretContentProtection_ (self w)) mpd in
     let handle := nextTimer (host w) in
     let ms :=
       1000 * Js.Math_max (Js.or_zero (minUpdatePeriod mpd)) MIN_UPDATE_INTERVAL_ in
     mkWorld
       (set_targetUpdateTime_ (targetUpdateTime m)
          (set_updateTimer_ (Some handle)
             (set_manifestInfo (Some m)
                (set_timeShiftBufferDepth_ (Js.or_zero (timeShiftBufferDepth mpd))
                   (self w)))))
       (set_nextTimer (Pos.succ handle)
          (set_timers (<[handle := (OnUpdate, ms)]> (timers (host w))) (host w)))).
Proof. reflexivity. Qed.

(** The host's clock and timer table aside, cancelling leaves the host as
    it is. *)
Lemma cleared_clockReads handle b : clockReads (cleared handle b) = clockReads b.
Proof. destruct handle; reflexivity. Qed.

Lemma cleared_mpdRequests handle b : mpdRequests (cleared handle b) = mpdRequests b.
Proof. destruct handle; reflexivity. Qed.

Lemma cleared_timers handle b : timers (cleared handle b) ⊆ timers b.
Proof. destruct handle; cbn; [ apply delete_subseteq | reflexivity ]. Qed.

(** [onSeekRangeUpdate_], statement by statement: the world before the event
    is fired and the timer is set again. *)
Lemma onSeekRangeUpdate_run startWallTime w :
  let b1 := cleared (seekRangeUpdateTimer_ (self w)) (host w) in
  let offset := inject_Z (wall_clock (clockReads b1) - startWallTime) / 1000 in
  let d2 := advance offset (set_seekRangeUpdateTimer_ None (self w)) in
  let b2 := set_clockReads (S (clockReads b1)) b1 in
  let b3 := set_clockReads (S (clockReads b2)) b2 in
  let now := wall_clock (clockReads b2) in
  let secondsSinceLastUpdate :=
    inject_Z now / 1000 - Js.to_number (lastMpdFetchTime_ d2) in
  let w3 :=
    if Js.truthy (targetUpdateTime_ d2) &&
       Js.ge (seekEndTime_ d2) (Js.to_number (targetUpdateTime_ d2))
    then
      if Js.ge secondsSinceLastUpdate MIN_UPDATE_INTERVAL_
      then exec (onUpdate_ wall_clock) (mkWorld d2 b3)
      else mkWorld d2 b3
    else mkWorld d2 b2 in
  onSeekRangeUpdate_ wall_clock startWallTime w =
    (Normal tt,
     exec (setSeekRangeUpdateTimer_ wall_clock) (exec fireSeekRangeChangedEvent_ w3)).
Proof.
  cbv zeta. unfold onSeekRangeUpdate_, assert_. do 3 step.
  step_with cancelSeekRangeUpdateTimer_run. do 4 step.
  cbn [self host].
  set (d2 := advance _ _). set (b1 := cleared _ _).
  destruct (Js.truthy (targetUpdateTime_ d2) && _) eqn:Ecrossed.
  - unfold bind at 1. unfold bind at 1.
    cbn [Date_now bind the_host on_host ret self host fst snd].
    destruct (Js.ge _ MIN_UPDATE_INTERVAL_).
    + unfold exec at 3. rewrite onUpdate_run. reflexivity.
    + reflexivity.
  - reflexivity.
Qed.

Lemma advance_after_cancel offset d :
  let d' := advance offset (set_seekRangeUpdateTimer_ None d) in
  seekStartTime_ d' = seekStartTime_ (advance offset d) /\
  seekEndTime_ d' = seekEndTime_ (advance offset d) /\
  timeShiftBufferDepth_ d' = timeShiftBufferDepth_ d /\
  targetUpdateTime_ d' = targetUpdateTime_ d /\
  lastMpdFetchTime_ d' = lastMpdFetchTime_ d /\
  mpdUrl_ d' = mpdUrl_ d.
Proof.
  unfold advance.
  cbn [seekEndTime_ seekStartTime_ timeShiftBufferDepth_ set_seekRangeUpdateTimer_].
  destruct (Js.gt _ _); repeat split; reflexivity.
Qed.

(** The requests a timer fire sends: one, to the MPD URL, when the code's
    condition holds, none otherwise. *)
Lemma onSeekRangeUpdate_requests startWallTime w :
  let w' := exec (onSeekRangeUpdate_ wall_clock startWallTime) w in
  let offset := inject_Z (wall_clock (clockReads (host w)) - startWallTime) / 1000 in
  let now := wall_clock (S (clockReads (host w))) in
  let secondsSinceLastUpdate :=
    inject_Z now / 1000 - Js.to_number (lastMpdFetchTime_ (self w)) in
  mpdRequests (host w') =
    mpdRequests (host w) ++
    (if Js.truthy (targetUpdateTime_ (self w)) &&
        Js.ge (seekEndTime_ (self w) + offset) (Js.to_number (targetUpdateTime_ (self w))) &&
        Js.ge secondsSinceLastUpdate MIN_UPDATE_INTERVAL_
     then [mpdUrl_ (self w)] else []).
Proof.
  cbv zeta. unfold exec at 1. rewrite onSeekRangeUpdate_run. cbv zeta.
  rewrite cleared_clockReads.
  set (offset := _ / 1000).
  destruct (advance_after_cancel offset (self w)) as (_ & H2 & _ & H4 & H5 & H6).
  rewrite H2, H4, H5, advance_seekEndTime_.
  cbn [clockReads set_clockReads].
  set (d2 := advance _ _) in *. clearbody d2.
  destruct (Js.truthy _ && _); [ destruct (Js.ge _ MIN_UPDATE_INTERVAL_) |];
    unfold exec;
    rewrite ?onUpdate_run, ?fireSeekRangeChangedEvent_run, ?setSeekRangeUpdateTimer_run;
    fields; cbn [andb]; rewrite ?cleared_mpdRequests, ?H6, ?app_nil_r;
    fields; rewrite ?cleared_mpdRequests; reflexivity.
Qed.

End Runs.

(** ** The operations of the code *)

Lemma add_isDouble x y : Binary64.isDouble (Binary64.add x y).
Proof. apply isDouble_round. Qed.

Lemma sub_isDouble x y : Binary64.isDouble (Binary64.sub x y).
Proof. apply isDouble_round. Qed.

Lemma div_isDouble x y : Binary64.isDouble (Binary64.div x y).
Proof. apply isDouble_round. Qed.

Lemma add_exact x y : Binary64.isDouble (x + y) -> Binary64.add x y == x + y.
Proof. intros H. exact H. Qed.

Lemma sub_exact x y : Binary64.isDouble (x - y) -> Binary64.sub x y == x - y.
Proof. intros H. exact H. Qed.

Lemma add_error x y :
  Qabs (Binary64.add x y - (x + y)) <= Binary64.maxError (x + y).
Proof. apply round_error_relative. Qed.

Lemma sub_error x y :
  Qabs (Binary64.sub x y - (x - y)) <= Binary64.maxError (x - y).
Proof. apply round_error_relative. Qed.

Lemma maxError_nonneg q : 0 <= Binary64.maxError q.
Proof.
  unfold Binary64.maxError.
  pose proof (pow2_pos (-53)). pose proof (pow2_pos (-1075)).
  pose proof (Qabs_nonneg q).
  assert (0 <= Qabs q * Binary64.pow2 (-53)) by (apply Qmult_le_0_compat; lra).
  lra.
Qed.

(** Adding a non-negative number to a double never lowers it. *)
Lemma add_nonneg_r x y : Binary64.isDouble x -> 0 <= y -> x <= Binary64.add x y.
Proof.
  intros Hx Hy. unfold Binary64.isDouble in Hx. rewrite <- Hx at 1.
  apply round_monotone. lra.
Qed.

Lemma add_le_compat_r x y o : x <= y -> Binary64.add x o <= Binary64.add y o.
Proof. intros H. apply round_monotone. lra. Qed.

Lemma add_zero_r x : Binary64.isDouble x -> Binary64.add x 0 == x.
Proof.
  intros Hx. unfold Binary64.add.
  assert (H : x + 0 == x) by ring. rewrite H. exact Hx.
Qed.

(** Subtracting a non-negative number from a double never raises it. *)
Lemma sub_nonneg_r x y : Binary64.isDouble x -> 0 <= y -> Binary64.sub x y <= x.
Proof.
  intros Hx Hy. unfold Binary64.isDouble in Hx. rewrite <- Hx at 2.
  apply round_monotone. lra.
Qed.

Lemma sub_nonneg x y : y <= x -> 0 <= Binary64.sub x y.
Proof. intros H. apply round_nonneg. lra. Qed.

Lemma div_1000_nonneg x : 0 <= x -> 0 <= Binary64.div x 1000.
Proof.
  intros H. apply round_nonneg. apply Qle_shift_div_l; [ reflexivity | lra ].
Qed.

Lemma number_nonneg q : 0 <= q -> 0 <= Binary64.number q.
Proof. apply round_nonneg. Qed.

(** ** The seek window, in binary64 *)

Lemma rounded_advance_seekEndTime_ offset d :
  seekEndTime_ (Rounded.advance offset d) = Binary64.add (seekEndTime_ d) offset.
Proof. unfold Rounded.advance. destruct (Js.gt _ _); reflexivity. Qed.

Lemma rounded_advance_timeShiftBufferDepth_ offset d :
  timeShiftBufferDepth_ (Rounded.advance offset d) = timeShiftBufferDepth_ d.
Proof. unfold Rounded.advance. destruct (Js.gt _ _); reflexivity. Qed.

Lemma rounded_advance_slides offset d :
  timeShiftBufferDepth_ d <
    Binary64.add (Binary64.sub (seekEndTime_ d) (seekStartTime_ d)) offset ->
  seekStartTime_ (Rounded.advance offset d) = Binary64.add (seekStartTime_ d) offset.
Proof.
  intros H. unfold Rounded.advance.
  js_case (Js.gt (Binary64.add (Binary64.sub (seekEndTime_ d) (seekStartTime_ d)) offset)
                 (timeShiftBufferDepth_ d)).
  - reflexivity.
  - lra.
Qed.

Lemma rounded_advance_grows offset d :
  Binary64.add (Binary64.sub (seekEndTime_ d) (seekStartTime_ d)) offset <=
    timeShiftBufferDepth_ d ->
  seekStartTime_ (Rounded.advance offset d) = seekStartTime_ d.
Proof.
  intros H. unfold Rounded.advance.
  js_case (Js.gt (Binary64.add (Binary64.sub (seekEndTime_ d) (seekStartTime_ d)) offset)
                 (timeShiftBufferDepth_ d)).
  - lra.
  - reflexivity.
Qed.

(** The two cases of [advance], decided by the guard as the code computes
    it. *)
Lemma rounded_advance_cases offset d :
  let guard := Binary64.add (Binary64.sub (seekEndTime_ d) (seekStartTime_ d)) offset in
  (timeShiftBufferDepth_ d < guard /\
   seekStartTime_ (Rounded.advance offset d) = Binary64.add (seekStartTime_ d) offset) \/
  (guard <= timeShiftBufferDepth_ d /\
   seekStartTime_ (Rounded.advance offset d) = seekStartTime_ d).
Proof.
  cbv zeta.
  destruct (Qlt_le_dec (timeShiftBufferDepth_ d)
              (Binary64.add (Binary64.sub (seekEndTime_ d) (seekStartTime_ d)) offset))
    as [H | H].
  - left. split; [ exact H | apply rounded_advance_slides, H ].
  - right. split; [ exact H | apply rounded_advance_grows, H ].
Qed.

(** A window of doubles with [start <= end]. *)
Lemma rounded_advance_invariant offset d :
  0 <= offset ->
  Binary64.isDouble (seekStartTime_ d) ->
  Binary64.isDouble (seekEndTime_ d) ->
  seekStartTime_ d <= seekEndTime_ d ->
  let d' := Rounded.advance offset d in
  Binary64.isDouble (seekStartTime_ d') /\
  Binary64.isDouble (seekEndTime_ d') /\
  seekStartTime_ d' <= seekEndTime_ d' /\
  seekStartTime_ d <= seekStartTime_ d' /\
  seekEndTime_ d <= seekEndTime_ d'.
Proof.
  intros Hoffset Hstart Hend Horder d'. subst d'.
  rewrite rounded_advance_seekEndTime_.
  pose proof (add_nonneg_r (seekEndTime_ d) offset Hend Hoffset) as Hend'.
  destruct (rounded_advance_cases offset d) as [[_ ->] | [_ ->]].
  - pose proof (add_nonneg_r (seekStartTime_ d) offset Hstart Hoffset).
    pose proof (add_le_compat_r _ _ offset Horder).
    repeat split; try assumption; apply add_isDouble.
  - repeat split; try assumption; try lra. apply add_isDouble.
Qed.

Lemma rounded_advances_cons offset elapsed d :
  Rounded.advances (offset :: elapsed) d =
    Rounded.advances elapsed (Rounded.advance offset d).
Proof. reflexivity. Qed.

Lemma rounded_advances_invariant elapsed :
  forall d,
    Forall (Qle 0) elapsed ->
    Binary64.isDouble (seekStartTime_ d) ->
    Binary64.isDouble (seekEndTime_ d) ->
    seekStartTime_ d <= seekEndTime_ d ->
    let d' := Rounded.advances elapsed d in
    Binary64.isDouble (seekStartTime_ d') /\
    Binary64.isDouble (seekEndTime_ d') /\
    seekStartTime_ d' <= seekEndTime_ d' /\
    seekStartTime_ d <= seekStartTime_ d' /\
    seekEndTime_ d <= seekEndTime_ d' /\
    timeShiftBufferDepth_ d' = timeShiftBufferDepth_ d.
Proof.
  induction elapsed as [| offset elapsed IH]; intros d Hall Hstart Hend Horder.
  - cbn. repeat split; try assumption; lra.
  - inversion Hall as [| ? ? Hoffset Hrest]; subst.
    destruct (rounded_advance_invariant offset d Hoffset Hstart Hend Horder)
      as (H1 & H2 & H3 & H4 & H5).
    destruct (IH (Rounded.advance offset d) Hrest H1 H2 H3)
      as (I1 & I2 & I3 & I4 & I5 & I6).
    rewrite rounded_advances_cons. cbv zeta.
    rewrite rounded_advance_timeShiftBufferDepth_ in I6.
    repeat split; try assumption; lra.
Qed.

(** When only the end moves, the window does not narrow, and it stays within
    the depth up to the rounding of the guard and of the new end. *)
Lemma rounded_advance_width_grows offset d :
  0 <= offset ->
  Binary64.isDouble (seekEndTime_ d) ->
  let computed := Binary64.sub (seekEndTime_ d) (seekStartTime_ d) in
  Binary64.add computed offset <= timeShiftBufferDepth_ d ->
  let d' := Rounded.advance offset d in
  seekWindow d <= seekWindow d' /\
  seekWindow d' <=
    timeShiftBufferDepth_ d +
    (Binary64.maxError (seekEndTime_ d - seekStartTime_ d) +
     Binary64.maxError (computed + offset) +
     Binary64.maxError (seekEndTime_ d + offset)).
Proof.
  intros Hoffset Hend computed Hguard d'. subst d'. unfold seekWindow.
  rewrite rounded_advance_seekEndTime_, (rounded_advance_grows offset d Hguard).
  pose proof (add_nonneg_r (seekEndTime_ d) offset Hend Hoffset) as Hup.
  pose proof (sub_error (seekEndTime_ d) (seekStartTime_ d)) as E1.
  pose proof (add_error computed offset) as E2.
  pose proof (add_error (seekEndTime_ d) offset) as E3.
  apply Qabs_Qle_condition in E1, E2, E3. fold computed in E1.
  split; lra.
Qed.

(** When both ends move, the width changes by no more than the rounding of
    the two sums. *)
Lemma rounded_advance_width_slides offset d :
  timeShiftBufferDepth_ d <
    Binary64.add (Binary64.sub (seekEndTime_ d) (seekStartTime_ d)) offset ->
  let d' := Rounded.advance offset d in
  Qabs (seekWindow d' - seekWindow d) <=
    Binary64.maxError (seekStartTime_ d + offset) +
    Binary64.maxError (seekEndTime_ d + offset).
Proof.
  intros Hguard d'. subst d'. unfold seekWindow.
  rewrite rounded_advance_seekEndTime_, (rounded_advance_slides offset d Hguard).
  pose proof (add_error (seekStartTime_ d) offset) as E1.
  pose proof (add_error (seekEndTime_ d) offset) as E2.
  apply Qabs_Qle_condition in E1, E2.
  apply Qabs_Qle_condition. split; lra.
Qed.

(** ** Running the methods that round *)

Section RoundedRuns.

Variable wall_clock : nat -> Z.
Variable process : option ContentProtectionCallback -> Mpd -> ManifestInfo.
Variable computeStreamLimits : option ManifestInfo -> option StreamLimits.

Lemma rounded_setTargetUpdateTime_run w m :
  manifestInfo (self w) = Some m ->
  Rounded.setTargetUpdateTime_ w =
    (Normal tt,
     mkWorld (set_targetUpdateTime_ (Rounded.targetUpdateTime m) (self w)) (host w)).
Proof.
  intros H. unfold Rounded.setTargetUpdateTime_, this_manifestInfo, bind, this.
  rewrite H. reflexivity.
Qed.

Lemma rounded_onUpdate_run w :
  Rounded.onUpdate_ wall_clock w =
    (Normal tt,
     let b := cleared (updateTimer_ (self w)) (host w) in
     let currentTime := Binary64.div (inject_Z (wall_clock (clockReads b))) 1000 in
     mkWorld
       (set_lastMpdFetchTime_ (Some currentTime) (set_updateTimer_ None (self w)))
       (set_mpdRequests (mpdRequests b ++ [mpdUrl_ (self w)])
          (set_clockReads (S (clockReads b)) b))).
Proof.
  unfold Rounded.onUpdate_, assert_. do 2 step.
  step_with cancelUpdateTimer_run. reflexivity.
Qed.

(** [onSeekRangeUpdate_], statement by statement: the world before the event
    is fired and the timer is set again. *)
Lemma rounded_onSeekRangeUpdate_run startWallTime w :
  let b1 := cleared (seekRangeUpdateTimer_ (self w)) (host w) in
  let offset :=
    Binary64.div
      (Binary64.sub (inject_Z (wall_clock (clockReads b1))) (inject_Z startWallTime))
      1000 in
  let d2 := Rounded.advance offset (set_seekRangeUpdateTimer_ None (self w)) in
  let b2 := set_clockReads (S (clockReads b1)) b1 in
  let b3 := set_clockReads (S (clockReads b2)) b2 in
  let now := wall_clock (clockReads b2) in
  let secondsSinceLastUpdate :=
    Binary64.sub (Binary64.div (inject_Z now) 1000)
                 (Js.to_number (lastMpdFetchTime_ d2)) in
  let w3 :=
    if Js.truthy (targetUpdateTime_ d2) &&
       Js.ge (seekEndTime_ d2) (Js.to_number (targetUpdateTime_ d2))
    then
      if Js.ge secondsSinceLastUpdate MIN_UPDATE_INTERVAL_
      then exec (Rounded.onUpdate_ wall_clock) (mkWorld d2 b3)
      else mkWorld d2 b3
    else mkWorld d2 b2 in
  Rounded.onSeekRangeUpdate_ wall_clock startWallTime w =
    (Normal tt,
     exec (setSeekRangeUpdateTimer_ wall_clock) (exec fireSeekRangeChangedEvent_ w3)).
Proof.
  cbv zeta. unfold Rounded.onSeekRangeUpdate_, assert_. do 3 step.
  step_with cancelSeekRangeUpdateTimer_run. do 4 step.
  cbn [self host].
  set (d2 := Rounded.advance _ _). set (b1 := cleared _ _).
  destruct (Js.truthy (targetUpdateTime_ d2) && _) eqn:Ecrossed.
  - unfold bind at 1. unfold bind at 1.
    cbn [Date_now bind the_host on_host ret self host fst snd].
    destruct (Js.ge _ MIN_UPDATE_INTERVAL_).
    + unfold exec at 3. rewrite rounded_onUpdate_run. reflexivity.
    + reflexivity.
  - reflexivity.
Qed.

Lemma rounded_advance_with_timer offset v d :
  let d' := Rounded.advance offset (set_seekRangeUpdateTimer_ v d) in
  seekStartTime_ d' = seekStartTime_ (Rounded.advance offset d) /\
  seekEndTime_ d' = seekEndTime_ (Rounded.advance offset d) /\
  timeShiftBufferDepth_ d' = timeShiftBufferDepth_ d.
Proof.
  unfold Rounded.advance.
  cbn [seekEndTime_ seekStartTime_ timeShiftBufferDepth_ set_seekRangeUpdateTimer_].
  destruct (Js.gt _ _); repeat split; reflexivity.
Qed.

(** The seek range a timer fire leaves is [advance] of the one it found, by
    the wall time since the timer was set, as the code computes it. *)
Lemma rounded_onSeekRangeUpdate_window startWallTime w :
  let w' := exec (Rounded.onSeekRangeUpdate_ wall_clock startWallTime) w in
  let offset :=
    Binary64.div
      (Binary64.sub (inject_Z (wall_clock (clockReads (host w))))
                    (inject_Z startWallTime))
      1000 in
  seekStartTime_ (self w') = seekStartTime_ (Rounded.advance offset (self w)) /\
  seekEndTime_ (self w') = seekEndTime_ (Rounded.advance offset (self w)) /\
  timeShiftBufferDepth_ (self w') = timeShiftBufferDepth_ (self w).
Proof.
  cbv zeta. unfold exec at 1 2 3. rewrite rounded_onSeekRangeUpdate_run. cbv zeta.
  rewrite cleared_clockReads.
  set (offset := Binary64.div _ 1000).
  destruct (rounded_advance_with_timer offset None (self w)) as (H1 & H2 & H3).
  rewrite <- H1, <- H2, <- H3.
  set (d2 := Rounded.advance _ _). clearbody d2.
  destruct (Js.truthy _ && _); [ destruct (Js.ge _ MIN_UPDATE_INTERVAL_) |];
    unfold exec;
    rewrite ?rounded_onUpdate_run, ?fireSeekRangeChangedEvent_run,
      ?setSeekRangeUpdateTimer_run;
    repeat split; reflexivity.
Qed.

(** The seek range [onStartStreams] sets for a live manifest. *)
Lemma rounded_onStartStreams_window w m streamLimits :
  manifestInfo (self w) = Some m ->
  live m = true ->
  computeStreamLimits (Some m) = Some streamLimits ->
  let w' := exec (Rounded.onStartStreams wall_clock computeStreamLimits) w in
  seekStartTime_ (self w') =
    Js.Math_max
      (Binary64.sub (limitsEnd streamLimits) (timeShiftBufferDepth_ (self w)))
      (limitsStart streamLimits) /\
  seekEndTime_ (self w') = limitsEnd streamLimits /\
  timeShiftBufferDepth_ (self w') = timeShiftBufferDepth_ (self w).
Proof.
  intros Hm Hlive Hlimits. cbv zeta.
  unfold exec, Rounded.onStartStreams. step. rewrite Hm, Hlimits.
  erewrite bind_normal by (apply this_manifestInfo_run; exact Hm).
  rewrite Hlive. do 2 step.
  erewrite bind_normal by (apply rounded_setTargetUpdateTime_run; exact Hm).
  step_with fireSeekRangeChangedEvent_run.
  erewrite bind_normal by (apply this_manifestInfo_run; exact Hm).
  rewrite Hlive, setSeekRangeUpdateTimer_run. repeat split; reflexivity.
Qed.

Lemma rounded_timer_fires_run handle callback ms w :
  timers (host w) !! handle = Some (callback, ms) ->
  Rounded.timer_fires wall_clock handle w =
    Rounded.run wall_clock callback
      (mkWorld (self w) (set_timers (delete handle (timers (host w))) (host w))).
Proof.
  intros H. unfold Rounded.timer_fires. step. rewrite H. step. reflexivity.
Qed.

End RoundedRuns.

(** The window [onStartStreams] sets from well-formed limits is one of
    doubles with [start <= end]. *)
Lemma initial_window_ordered streamsStart streamsEnd depth :
  Binary64.isDouble streamsStart ->
  Binary64.isDouble streamsEnd ->
  streamsStart <= streamsEnd ->
  0 <= depth ->
  let seekStart := Js.Math_max (Binary64.sub streamsEnd depth) streamsStart in
  Binary64.isDouble seekStart /\ seekStart <= streamsEnd /\ streamsStart <= seekStart.
Proof.
  intros Hstart Hend Horder Hdepth seekStart. subst seekStart.
  pose proof (sub_nonneg_r streamsEnd depth Hend Hdepth) as Hsub.
  destruct (Math_max_cases (Binary64.sub streamsEnd depth) streamsStart)
    as [[H ->] | [H ->]].
  - repeat split; try assumption; lra.
  - repeat split; try assumption; try lra. apply sub_isDouble.
Qed.

(** ** The seek window over time *)

(** When no operation of [advance] rounds, the shifts are by [offset]
    itself and the guard is the exact one. *)
Lemma rounded_advance_exact offset d :
  Binary64.isDouble (seekWindow d) ->
  Binary64.isDouble (seekWindow d + offset) ->
  Binary64.isDouble (seekStartTime_ d + offset) ->
  Binary64.isDouble (seekEndTime_ d + offset) ->
  seekEndTime_ (Rounded.advance offset d) == seekEndTime_ d + offset /\
  (timeShiftBufferDepth_ d < seekWindow d + offset ->
   seekStartTime_ (Rounded.advance offset d) == seekStartTime_ d + offset) /\
  (seekWindow d + offset <= timeShiftBufferDepth_ d ->
   seekStartTime_ (Rounded.advance offset d) == seekStartTime_ d).
Proof.
  intros Hwidth Hguard Hstart Hend.
  assert (Hcomputed :
            Binary64.add (Binary64.sub (seekEndTime_ d) (seekStartTime_ d)) offset ==
            seekWindow d + offset).
  { unfold Binary64.add, Binary64.sub. fold (seekWindow d).
    unfold Binary64.isDouble in Hwidth. rewrite Hwidth. exact Hguard. }
  rewrite rounded_advance_seekEndTime_.
  split; [ exact Hend |]. split; intros H.
  - rewrite rounded_advance_slides by (rewrite Hcomputed; exact H). exact Hstart.
  - rewrite rounded_advance_grows by (rewrite Hcomputed; exact H). reflexivity.
Qed.

(** Where no operation of the update rounds, the seek range binary64
    computes is the one exact arithmetic gives. *)
Lemma advance_agrees_when_exact offset d :
  Binary64.isDouble (seekWindow d) ->
  Binary64.isDouble (seekWindow d + offset) ->
  Binary64.isDouble (seekStartTime_ d + offset) ->
  Binary64.isDouble (seekEndTime_ d + offset) ->
  seekStartTime_ (Rounded.advance offset d) == seekStartTime_ (advance offset d) /\
  seekEndTime_ (Rounded.advance offset d) == seekEndTime_ (advance offset d).
Proof.
  intros H1 H2 H3 H4.
  destruct (rounded_advance_exact offset d H1 H2 H3 H4) as (Hend & Hslide & Hgrow).
  rewrite advance_seekEndTime_. split; [| exact Hend ].
  destruct (Qlt_le_dec (timeShiftBufferDepth_ d) (seekWindow d + offset)) as [H | H].
  - rewrite (advance_slides _ _ H). apply Hslide, H.
  - rewrite (advance_grows _ _ H). apply Hgrow, H.
Qed.

(** C1, as amended: [advance(elapsed)] computes in binary64.  With
    [computed] the double nearest [end - start], it moves both ends, to the
    doubles nearest [start + elapsed] and [end + elapsed], when the double
    nearest [computed + elapsed] exceeds [timeShiftBufferDepth], and
    otherwise moves only the end, to the double nearest [end + elapsed].
    Each such double is the exact result when that is a double and lies
    within half a unit in the last place of it otherwise, so when nothing
    rounds the guard is [end - start + elapsed > timeShiftBufferDepth] and
    the shifts are by [elapsed] itself.  This is the update every fire of
    the seek range timer applies, with the wall time since the timer was
    set, in seconds as the code computes them, as [elapsed].  From stream
    limits [0, 50] and a depth of 40 the initial window is [10, 50], and
    [advance(5)] makes it [15, 55]. *)
Theorem advance_shifts_by_elapsed :
  (forall d elapsed,
      let computed := Binary64.sub (seekEndTime_ d) (seekStartTime_ d) in
      (timeShiftBufferDepth_ d < Binary64.add computed elapsed ->
       seekStartTime_ (Rounded.advance elapsed d) =
         Binary64.add (seekStartTime_ d) elapsed /\
       seekEndTime_ (Rounded.advance elapsed d) =
         Binary64.add (seekEndTime_ d) elapsed) /\
      (Binary64.add computed elapsed <= timeShiftBufferDepth_ d ->
       seekStartTime_ (Rounded.advance elapsed d) = seekStartTime_ d /\
       seekEndTime_ (Rounded.advance elapsed d) =
         Binary64.add (seekEndTime_ d) elapsed)) /\
  (forall x y,
      (Binary64.isDouble (x + y) -> Binary64.add x y == x + y) /\
      Qabs (Binary64.add x y - (x + y)) <= Binary64.maxError (x + y) /\
      (Binary64.isDouble (x - y) -> Binary64.sub x y == x - y) /\
      Qabs (Binary64.sub x y - (x - y)) <= Binary64.maxError (x - y)) /\
  (forall d elapsed,
      Binary64.isDouble (seekWindow d) ->
      Binary64.isDouble (seekWindow d + elapsed) ->
      Binary64.isDouble (seekStartTime_ d + elapsed) ->
      Binary64.isDouble (seekEndTime_ d + elapsed) ->
      (timeShiftBufferDepth_ d < seekWindow d + elapsed ->
       seekStartTime_ (Rounded.advance elapsed d) == seekStartTime_ d + elapsed /\
       seekEndTime_ (Rounded.advance elapsed d) == seekEndTime_ d + elapsed) /\
      (seekWindow d + elapsed <= timeShiftBufferDepth_ d ->
       seekStartTime_ (Rounded.advance elapsed d) == seekStartTime_ d /\
       seekEndTime_ (Rounded.advance elapsed d) == seekEndTime_ d + elapsed)) /\
  (forall wall_clock startWallTime w,
      let now := wall_clock (clockReads (host w)) in
      let elapsed :=
        Binary64.div (Binary64.sub (inject_Z now) (inject_Z startWallTime)) 1000 in
      let w' := exec (Rounded.onSeekRangeUpdate_ wall_clock startWallTime) w in
      seekStartTime_ (self w') = seekStartTime_ (Rounded.advance elapsed (self w)) /\
      seekEndTime_ (self w') = seekEndTime_ (Rounded.advance elapsed (self w))) /\
  (let w0 := worldWith (Some (manifestOf [])) 40 0 0 in
   let d := self (exec (Rounded.onStartStreams (clockAt 0) (limits 0 50)) w0) in
   (seekStartTime_ d == 10 /\ seekEndTime_ d == 50) /\
   (seekStartTime_ (Rounded.advance 5 d) == 15 /\
    seekEndTime_ (Rounded.advance 5 d) == 55)).
Proof.
  split; [| split; [| split; [| split ]]].
  - intros d elapsed computed. subst computed. split; intros H.
    + split; [ apply rounded_advance_slides, H | apply rounded_advance_seekEndTime_ ].
    + split; [ apply rounded_advance_grows, H | apply rounded_advance_seekEndTime_ ].
  - intros x y. split; [ apply add_exact |]. split; [ apply add_error |].
    split; [ apply sub_exact | apply sub_error ].
  - intros d elapsed H1 H2 H3 H4.
    destruct (rounded_advance_exact elapsed d H1 H2 H3 H4) as (Hend & Hslide & Hgrow).
    split; intros H; split; auto.
  - intros wall_clock startWallTime w.
    destruct (rounded_onSeekRangeUpdate_window wall_clock startWallTime w)
      as (H1 & H2 & _).
    split; assumption.
  - vm_compute. repeat split; reflexivity.
Qed.

(** C1, as stated, fails: the doubles nearest 11.584 and 50.584 are more than
    39 apart, so with a depth of 40 and [elapsed = 1] the exact guard
    [end - start + elapsed > timeShiftBufferDepth] holds; the code computes
    [end - start] as 39 and [39 + 1] as 40, which does not exceed 40, and
    moves only the end. *)
Lemma advance_guard_rounds :
  let d := sourceWith None 40 (Binary64.number 11.584) (Binary64.number 50.584) in
  0 <= seekWindow d /\
  0 <= 1 /\
  timeShiftBufferDepth_ d < seekWindow d + 1 /\
  seekStartTime_ (Rounded.advance 1 d) == seekStartTime_ d /\
  ~ seekStartTime_ (Rounded.advance 1 d) == seekStartTime_ d + 1.
Proof.
  cbv zeta. vm_compute.
  repeat split; try reflexivity; intros H; discriminate H.
Qed.

(** A non-negative number that rounds to at most [r] is moved by at most
    [maxError r]. *)
Lemma round_error_upto q r :
  0 <= q -> Binary64.round q <= r ->
  Qabs (Binary64.round q - q) <= Binary64.maxError r.
Proof.
  intros Hq Hr. pose proof (round_nonneg q Hq) as H0.
  apply Qle_trans with (1 := round_error_result q Hq).
  unfold Binary64.maxError. rewrite (Qabs_pos r) by lra.
  pose proof (pow2_pos (-53)) as H53.
  assert (H : Binary64.round q * Binary64.pow2 (-53) <= r * Binary64.pow2 (-53))
    by (apply Qmult_le_compat_r; lra).
  lra.
Qed.

Lemma maxError_monotone a b : 0 <= a -> a <= b -> Binary64.maxError a <= Binary64.maxError b.
Proof.
  intros Ha Hab. unfold Binary64.maxError.
  rewrite (Qabs_pos a), (Qabs_pos b) by lra.
  pose proof (pow2_pos (-53)) as H53.
  assert (H : a * Binary64.pow2 (-53) <= b * Binary64.pow2 (-53))
    by (apply Qmult_le_compat_r; lra).
  lra.
Qed.

(** One update of a window of doubles with [0 <= start <= end]: every
    rounding in it is by at most [maxError] of the new end, so the width
    falls by at most two such roundings, and rises above the larger of the
    old width and the depth by at most three. *)
Lemma rounded_advance_width_step offset d W :
  0 <= offset ->
  Binary64.isDouble (seekStartTime_ d) ->
  Binary64.isDouble (seekEndTime_ d) ->
  0 <= seekStartTime_ d ->
  seekStartTime_ d <= seekEndTime_ d ->
  timeShiftBufferDepth_ d <= W ->
  seekWindow d <= W ->
  let d' := Rounded.advance offset d in
  let rounding := Binary64.maxError (seekEndTime_ d') in
  seekWindow d - 2 * rounding <= seekWindow d' /\
  seekWindow d' <= W + 3 * rounding.
Proof.
  intros Hoffset Hstart Hend Hpos Horder Hdepth Hwidth d' rounding.
  subst d' rounding. unfold seekWindow in *.
  rewrite rounded_advance_seekEndTime_.
  set (seekStart := seekStartTime_ d) in *. set (seekEnd := seekEndTime_ d) in *.
  set (seekEnd' := Binary64.add seekEnd offset).
  pose proof (add_nonneg_r seekEnd offset Hend Hoffset) as Hup. fold seekEnd' in Hup.
  pose proof (maxError_nonneg seekEnd') as Hnonneg.
  assert (Eend : Qabs (seekEnd' - (seekEnd + offset)) <= Binary64.maxError seekEnd').
  { apply round_error_upto; [ lra | apply Qle_refl ]. }
  apply Qabs_Qle_condition in Eend.
  destruct (rounded_advance_cases offset d) as [[Hguard Heq] | [Hguard Heq]];
    cbv zeta in Hguard; fold seekStart seekEnd in Hguard, Heq; rewrite Heq.
  - assert (Estart : Qabs (Binary64.add seekStart offset - (seekStart + offset)) <=
                     Binary64.maxError seekEnd').
    { apply round_error_upto; [ lra | apply add_le_compat_r, Horder ]. }
    apply Qabs_Qle_condition in Estart.
    set (seekStart' := Binary64.add seekStart offset) in *.
    set (e := Binary64.maxError seekEnd') in *.
    clearbody seekStart' seekEnd' e seekStart seekEnd. split; lra.
  - set (computed := Binary64.sub seekEnd seekStart) in *.
    assert (Hcomputed : computed <= seekEnd).
    { unfold computed, Binary64.sub. unfold Binary64.isDouble in Hend.
      rewrite <- Hend at 2. apply round_monotone. lra. }
    assert (E1 : Qabs (computed - (seekEnd - seekStart)) <= Binary64.maxError seekEnd').
    { apply round_error_upto; [ lra | exact (Qle_trans _ _ _ Hcomputed Hup) ]. }
    assert (H0 : 0 <= computed) by (apply sub_nonneg, Horder).
    assert (E2 : Qabs (Binary64.add computed offset - (computed + offset)) <=
                 Binary64.maxError seekEnd').
    { apply round_error_upto; [ lra | apply add_le_compat_r, Hcomputed ]. }
    apply Qabs_Qle_condition in E1, E2.
    set (guard := Binary64.add computed offset) in *.
    set (e := Binary64.maxError seekEnd') in *.
    set (depth := timeShiftBufferDepth_ d) in *.
    clearbody guard computed seekEnd' e seekStart seekEnd depth. split; lra.
Qed.

(** A run of updates: the width falls below the width it had by at most
    two roundings per update, and rises above the larger of that width and
    the depth by at most three per update, each rounding being by at most
    [maxError E] for any [E] the seek end stays below. *)
Lemma rounded_advances_width elapsed :
  forall d W E,
    Forall (Qle 0) elapsed ->
    Binary64.isDouble (seekStartTime_ d) ->
    Binary64.isDouble (seekEndTime_ d) ->
    0 <= seekStartTime_ d ->
    seekStartTime_ d <= seekEndTime_ d ->
    timeShiftBufferDepth_ d <= W ->
    seekWindow d <= W ->
    seekEndTime_ (Rounded.advances elapsed d) <= E ->
    let n := inject_Z (Z.of_nat (length elapsed)) in
    seekWindow d - 2 * n * Binary64.maxError E <=
      seekWindow (Rounded.advances elapsed d) /\
    seekWindow (Rounded.advances elapsed d) <= W + 3 * n * Binary64.maxError E.
Proof.
  induction elapsed as [| offset elapsed IH];
    intros d W E Hall Hstart Hend Hpos Horder Hdepth Hwidth HE.
  - cbv zeta. cbn [length Rounded.advances fold_left] in *.
    change (inject_Z (Z.of_nat 0)) with 0. split; lra.
  - inversion Hall as [| ? ? Hoffset Hrest]; subst.
    rewrite rounded_advances_cons in *.
    destruct (rounded_advance_invariant offset d Hoffset Hstart Hend Horder)
      as (H1 & H2 & H3 & H4 & H5).
    destruct (rounded_advances_invariant elapsed (Rounded.advance offset d)
                Hrest H1 H2 H3) as (_ & _ & _ & _ & Hmono & _).
    destruct (rounded_advance_width_step offset d W Hoffset Hstart Hend Hpos Horder
                Hdepth Hwidth) as (Hlow & Hhigh).
    assert (Hend0 : 0 <= seekEndTime_ (Rounded.advance offset d)) by lra.
    pose proof (maxError_monotone _ E Hend0 (Qle_trans _ _ _ Hmono HE)) as Hstep.
    pose proof (maxError_nonneg E) as HE0.
    set (step := Binary64.maxError (seekEndTime_ (Rounded.advance offset d))) in *.
    set (e := Binary64.maxError E) in *.
    assert (Hdepth' : timeShiftBufferDepth_ (Rounded.advance offset d) <= W + 3 * e)
      by (rewrite rounded_advance_timeShiftBufferDepth_; lra).
    assert (Hwidth' : seekWindow (Rounded.advance offset d) <= W + 3 * e) by lra.
    assert (Hpos' : 0 <= seekStartTime_ (Rounded.advance offset d)) by lra.
    destruct (IH (Rounded.advance offset d) (W + 3 * e) E Hrest H1 H2 Hpos' H3
                Hdepth' Hwidth' HE) as (Ilow & Ihigh).
    fold e in Ilow, Ihigh. cbv zeta.
    cbn [length]. rewrite Nat2Z.inj_succ. unfold Z.succ. rewrite inject_Z_plus.
    change (inject_Z 1) with 1.
    set (n := inject_Z (Z.of_nat (length elapsed))) in *.
    set (width := seekWindow d) in *.
    set (width1 := seekWindow (Rounded.advance offset d)) in *.
    set (widthn := seekWindow (Rounded.advances elapsed (Rounded.advance offset d))) in *.
    assert (Hn : 2 * (n + 1) * e == 2 * n * e + 2 * e) by ring.
    assert (Hn3 : 3 * (n + 1) * e == 3 * n * e + 3 * e) by ring.
    rewrite Hn, Hn3.
    set (p2 := 2 * n * e) in *. set (p3 := 3 * n * e) in *.
    clearbody p2 p3 width width1 widthn e step. split; lra.
Qed.

(** The window [onStartStreams] sets is at most one rounding wider than
    the depth. *)
Lemma initial_window_width streamsStart streamsEnd depth E :
  Binary64.isDouble streamsEnd ->
  0 <= streamsStart ->
  streamsStart <= streamsEnd ->
  0 <= depth ->
  streamsEnd <= E ->
  let seekStart := Js.Math_max (Binary64.sub streamsEnd depth) streamsStart in
  streamsEnd - seekStart <= depth + Binary64.maxError E.
Proof.
  intros Hend Hpos Horder Hdepth HE seekStart. subst seekStart.
  pose proof (maxError_nonneg E) as HE0.
  destruct (Qlt_le_dec streamsEnd depth) as [Hshort | Hlong].
  - destruct (Math_max_cases (Binary64.sub streamsEnd depth) streamsStart)
      as [[_ ->] | [H ->]]; lra.
  - assert (Hsub : Binary64.sub streamsEnd depth <= streamsEnd)
      by (apply sub_nonneg_r; assumption).
    assert (Eq : Qabs (Binary64.sub streamsEnd depth - (streamsEnd - depth)) <=
                 Binary64.maxError E).
    { apply round_error_upto; [ lra | exact (Qle_trans _ _ _ Hsub HE) ]. }
    apply Qabs_Qle_condition in Eq.
    destruct (Math_max_cases (Binary64.sub streamsEnd depth) streamsStart)
      as [[H ->] | [H ->]]; lra.
Qed.

(** C2, as amended: a live window set by [onStartStreams] from stream limits
    that are doubles with [streamsStart <= streamsEnd], under a non-negative
    [timeShiftBufferDepth], starts at the larger of the double nearest
    [streamsEnd - timeShiftBufferDepth] and [streamsStart], and ends at
    [streamsEnd].  After any run of [advance] calls with non-negative elapsed
    times its bounds are doubles with [start <= end], and one more such call
    decreases neither the start nor the end.  The width is kept only up to
    rounding: a call that moves only the end does not narrow the window and
    leaves it within [timeShiftBufferDepth] plus the rounding of the guard
    and of the new end; a call that moves both ends changes the width by at
    most the rounding of the two sums, in either direction.  Over a run of
    [n] calls (for [streamsStart >= 0]) the width falls below the initial
    width by at most [2n] roundings and exceeds [timeShiftBufferDepth] by
    at most [3n + 1], each rounding being at most [maxError] of the seek
    end the run has reached. *)
Theorem live_window_invariant :
  forall wall_clock computeStreamLimits w m streamLimits elapsed offset,
    manifestInfo (self w) = Some m ->
    live m = true ->
    computeStreamLimits (Some m) = Some streamLimits ->
    Binary64.isDouble (limitsStart streamLimits) ->
    Binary64.isDouble (limitsEnd streamLimits) ->
    limitsStart streamLimits <= limitsEnd streamLimits ->
    0 <= timeShiftBufferDepth_ (self w) ->
    Forall (Qle 0) elapsed ->
    0 <= offset ->
    let d0 := self (exec (Rounded.onStartStreams wall_clock computeStreamLimits) w) in
    let d := Rounded.advances elapsed d0 in
    let d' := Rounded.advance offset d in
    let computed := Binary64.sub (seekEndTime_ d) (seekStartTime_ d) in
    (seekStartTime_ d0 =
       Js.Math_max
         (Binary64.sub (limitsEnd streamLimits) (timeShiftBufferDepth_ (self w)))
         (limitsStart streamLimits) /\
     seekEndTime_ d0 = limitsEnd streamLimits) /\
    timeShiftBufferDepth_ d = timeShiftBufferDepth_ (self w) /\
    (Binary64.isDouble (seekStartTime_ d) /\ Binary64.isDouble (seekEndTime_ d)) /\
    seekStartTime_ d <= seekEndTime_ d /\
    seekStartTime_ d' <= seekEndTime_ d' /\
    seekStartTime_ d <= seekStartTime_ d' /\
    seekEndTime_ d <= seekEndTime_ d' /\
    (Binary64.add computed offset <= timeShiftBufferDepth_ d ->
     seekWindow d <= seekWindow d' /\
     seekWindow d' <=
       timeShiftBufferDepth_ d +
       (Binary64.maxError (seekEndTime_ d - seekStartTime_ d) +
        Binary64.maxError (computed + offset) +
        Binary64.maxError (seekEndTime_ d + offset))) /\
    (timeShiftBufferDepth_ d < Binary64.add computed offset ->
     Qabs (seekWindow d' - seekWindow d) <=
       Binary64.maxError (seekStartTime_ d + offset) +
       Binary64.maxError (seekEndTime_ d + offset)) /\
    (0 <= limitsStart streamLimits ->
     let n := inject_Z (Z.of_nat (length elapsed)) in
     let rounding := Binary64.maxError (seekEndTime_ d) in
     seekWindow d0 - 2 * n * rounding <= seekWindow d /\
     seekWindow d <= timeShiftBufferDepth_ d + (3 * n + 1) * rounding).
Proof.
  intros wall_clock computeStreamLimits w m streamLimits elapsed offset
         Hm Hlive Hlimits Hdstart Hdend Hrange Hdepth Helapsed Hoffset d0 d d' computed.
  destruct (rounded_onStartStreams_window wall_clock computeStreamLimits w m
              streamLimits Hm Hlive Hlimits) as (Hstart & Hend & Hdepth0).
  fold d0 in Hstart, Hend, Hdepth0.
  destruct (initial_window_ordered _ _ _ Hdstart Hdend Hrange Hdepth)
    as (Hd0 & Horder0 & Hfloor0).
  rewrite <- Hstart in Hd0, Horder0, Hfloor0. rewrite <- Hend in Horder0.
  assert (Hdend0 : Binary64.isDouble (seekEndTime_ d0)) by (rewrite Hend; exact Hdend).
  destruct (rounded_advances_invariant elapsed d0 Helapsed Hd0 Hdend0 Horder0)
    as (I1 & I2 & I3 & _ & I5 & I6).
  fold d in I1, I2, I3, I5, I6.
  destruct (rounded_advance_invariant offset d Hoffset I1 I2 I3)
    as (_ & _ & J3 & J4 & J5).
  fold d' in J3, J4, J5.
  split; [ split; assumption |].
  split; [ congruence |].
  split; [ split; assumption |].
  split; [ exact I3 |]. split; [ exact J3 |]. split; [ exact J4 |].
  split; [ exact J5 |].
  split; [ intros Hguard;
           apply (rounded_advance_width_grows offset d Hoffset I2 Hguard) |].
  split; [ intros Hguard; apply (rounded_advance_width_slides offset d Hguard) |].
  intros Hpos n rounding. subst n rounding.
  pose proof (maxError_nonneg (seekEndTime_ d)) as Hnonneg.
  assert (Hpos0 : 0 <= seekStartTime_ d0) by lra.
  assert (Hinitial : seekWindow d0 <=
                     timeShiftBufferDepth_ d0 + Binary64.maxError (seekEndTime_ d)).
  { unfold seekWindow. rewrite Hdepth0, Hstart, Hend.
    apply initial_window_width; try assumption. rewrite <- Hend. exact I5. }
  assert (Hdepth1 : timeShiftBufferDepth_ d0 <=
                    timeShiftBufferDepth_ d0 + Binary64.maxError (seekEndTime_ d))
    by lra.
  destruct (rounded_advances_width elapsed d0 _ (seekEndTime_ d) Helapsed Hd0 Hdend0
              Hpos0 Horder0 Hdepth1 Hinitial (Qle_refl _)) as (Hlow & Hhigh).
  fold d in Hlow, Hhigh. cbv zeta in Hlow, Hhigh. rewrite I6.
  split; [ exact Hlow |].
  set (n := inject_Z (Z.of_nat (length elapsed))) in *.
  set (e := Binary64.maxError (seekEndTime_ d)) in *.
  assert (Hn : (3 * n + 1) * e == 3 * n * e + e) by ring.
  rewrite Hn. set (p := 3 * n * e) in *. clearbody p e. lra.
Qed.

(** C2, as stated, fails: from the window [10, 50] under a depth of 40, two
    timer fires 1.002 s and 1.011 s after the timer was set leave a width
    above the depth, and a single fire after 1.029 s narrows the window. *)
Lemma live_window_width_drifts :
  let w0 := worldWith (Some (manifestOf [])) 40 0 0 in
  let d0 := self (exec (Rounded.onStartStreams (clockAt 0) (limits 0 50)) w0) in
  let seconds := fun ms => Binary64.div (inject_Z ms) 1000 in
  Forall (Qle 0) [seconds 1002%Z; seconds 1011%Z; seconds 1029%Z] /\
  seekWindow d0 == timeShiftBufferDepth_ d0 /\
  timeShiftBufferDepth_ d0 <
    seekWindow (Rounded.advances [seconds 1002%Z; seconds 1011%Z] d0) /\
  seekWindow (Rounded.advance (seconds 1029%Z) d0) < seekWindow d0.
Proof.
  cbv zeta. split.
  - repeat (apply List.Forall_cons || apply List.Forall_nil);
      apply div_1000_nonneg; vm_compute; discriminate.
  - vm_compute. repeat split; reflexivity.
Qed.

(** C8, as amended: an [advance(elapsed)] with [elapsed > 0] on a window of
    doubles moves only the end, to the double nearest [end + elapsed], when
    the guard the code computes does not exceed [timeShiftBufferDepth]: the
    window does not narrow, and it widens by [elapsed] when [end + elapsed]
    is a double.  Otherwise both ends move to the doubles nearest their
    sums, even if the width is still below [timeShiftBufferDepth]: the width
    is kept up to the rounding of the two sums, and exactly when both sums
    are doubles.  Once the computed width exceeds the depth every call
    slides; at the depth itself a call slides when [elapsed] is large enough
    to raise the computed sum. *)
Theorem advance_grows_or_slides :
  forall d elapsed,
    0 < elapsed ->
    Binary64.isDouble (seekStartTime_ d) ->
    Binary64.isDouble (seekEndTime_ d) ->
    let computed := Binary64.sub (seekEndTime_ d) (seekStartTime_ d) in
    let d' := Rounded.advance elapsed d in
    (Binary64.add computed elapsed <= timeShiftBufferDepth_ d ->
     seekStartTime_ d' = seekStartTime_ d /\
     seekEndTime_ d' = Binary64.add (seekEndTime_ d) elapsed /\
     seekWindow d <= seekWindow d' /\
     (Binary64.isDouble (seekEndTime_ d + elapsed) ->
      seekWindow d' == seekWindow d + elapsed /\ seekWindow d < seekWindow d')) /\
    (timeShiftBufferDepth_ d < Binary64.add computed elapsed ->
     seekStartTime_ d' = Binary64.add (seekStartTime_ d) elapsed /\
     seekEndTime_ d' = Binary64.add (seekEndTime_ d) elapsed /\
     seekStartTime_ d <= seekStartTime_ d' /\
     Qabs (seekWindow d' - seekWindow d) <=
       Binary64.maxError (seekStartTime_ d + elapsed) +
       Binary64.maxError (seekEndTime_ d + elapsed) /\
     (Binary64.isDouble (seekStartTime_ d + elapsed) ->
      Binary64.isDouble (seekEndTime_ d + elapsed) ->
      seekWindow d' == seekWindow d)) /\
    (timeShiftBufferDepth_ d < computed \/
     (timeShiftBufferDepth_ d <= computed /\ computed < Binary64.add computed elapsed) ->
     seekStartTime_ d' = Binary64.add (seekStartTime_ d) elapsed /\
     seekEndTime_ d' = Binary64.add (seekEndTime_ d) elapsed).
Proof.
  intros d elapsed Hpos Hstart Hend computed d'. subst d'.
  assert (Hoffset : 0 <= elapsed) by lra.
  split; [| split ].
  - intros Hguard.
    destruct (rounded_advance_width_grows elapsed d Hoffset Hend Hguard) as (Hwide & _).
    split; [ apply rounded_advance_grows, Hguard |].
    split; [ apply rounded_advance_seekEndTime_ |].
    split; [ exact Hwide |].
    intros Hexact. unfold seekWindow.
    rewrite rounded_advance_seekEndTime_, (rounded_advance_grows elapsed d Hguard).
    rewrite (add_exact _ _ Hexact). split; lra.
  - intros Hguard.
    split; [ apply rounded_advance_slides, Hguard |].
    split; [ apply rounded_advance_seekEndTime_ |].
    split.
    { rewrite (rounded_advance_slides elapsed d Hguard).
      apply add_nonneg_r; assumption. }
    split; [ apply (rounded_advance_width_slides elapsed d Hguard) |].
    intros Hs He. unfold seekWindow.
    rewrite rounded_advance_seekEndTime_, (rounded_advance_slides elapsed d Hguard).
    rewrite (add_exact _ _ Hs), (add_exact _ _ He). lra.
  - intros Hreached.
    assert (Hguard : timeShiftBufferDepth_ d < Binary64.add computed elapsed).
    { destruct Hreached as [H | [H1 H2]]; [| lra ].
      pose proof (add_nonneg_r computed elapsed (sub_isDouble _ _) Hoffset). lra. }
    split; [ apply rounded_advance_slides, Hguard | apply rounded_advance_seekEndTime_ ].
Qed.

(** C8, as stated, fails: a window of width 39.5 under a depth of 40 is
    narrower than the depth, yet [advance(1)] leaves its width at 39.5 (no
    operation rounds here). *)
Lemma advance_may_not_widen :
  let d := sourceWith None 40 0 39.5 in
  seekWindow d < timeShiftBufferDepth_ d /\
  0 < 1 /\
  ~ seekWindow d < seekWindow (Rounded.advance 1 d).
Proof.
  cbv zeta. vm_compute. repeat split; intros H; discriminate H.
Qed.

(** ** The target update time *)

Lemma fold_left_flat_map {A B C} (f : A -> C -> A) (g : B -> list C) l :
  forall a,
    fold_left (fun acc x => fold_left f (g x) acc) l a = fold_left f (flat_map g l) a.
Proof.
  induction l as [| x l IH]; intros a; cbn.
  - reflexivity.
  - rewrite fold_left_app. apply IH.
Qed.

Lemma largestSecondLastStart_flat m :
  largestSecondLastStart m = fold_left visitStreamInfo (allStreamInfos m) 0.
Proof.
  unfold largestSecondLastStart, allStreamInfos.
  rewrite <- fold_left_flat_map. 
  induction (periodInfos m) as [| p ps IH] using rev_ind.
  - reflexivity.
  - rewrite !fold_left_app. cbn. rewrite IH. apply fold_left_flat_map.
Qed.

Lemma getReference_second_last si :
  getReference si (Z.max 0 (getNumReferences si - 2)) =
  references si !! Nat.max 0 (length (references si) - 2).
Proof.
  unfold getReference, getNumReferences.
  destruct (references si) as [| r rs] eqn:E.
  - reflexivity.
  - set (n := length (r :: rs)).
    assert (Hn : (0 < n)%nat) by (subst n; cbn; lia).
    replace (Z.to_nat (Z.max 0 (Z.of_nat n - 2))) with (Nat.max 0 (n - 2)) by lia.
    destruct (Z.ltb_spec (Z.max 0 (Z.of_nat n - 2)) 0); [ lia |].
    destruct (Z.leb_spec (Z.of_nat n) (Z.max 0 (Z.of_nat n - 2))); [ lia |].
    reflexivity.
Qed.

Lemma visitStreamInfo_referenceStart max s :
  visitStreamInfo max s =
  match referenceStart s with
  | Some t => Js.Math_max max t
  | None => max
  end.
Proof.
  unfold visitStreamInfo, referenceStart.
  destruct (segmentIndex s) as [si |]; [| reflexivity ].
  rewrite getReference_second_last.
  destruct (references si !! _); reflexivity.
Qed.

Lemma fold_visitStreamInfo l :
  forall a,
    fold_left visitStreamInfo l a = fold_left Js.Math_max (omap referenceStart l) a.
Proof.
  induction l as [| s l IH]; intros a; cbn.
  - reflexivity.
  - rewrite visitStreamInfo_referenceStart.
    destruct (referenceStart s); cbn; apply IH.
Qed.

(** What the running maximum of the code is. *)
Lemma fold_Math_max ts :
  forall a,
    let A := fold_left Js.Math_max ts a in
    a <= A /\ (forall t, t ∈ ts -> t <= A) /\ (A = a \/ A ∈ ts).
Proof.
  induction ts as [| t ts IH]; intros a; cbn.
  - repeat split; [ lra | | left; reflexivity ].
    intros t Ht. inversion Ht.
  - destruct (IH (Js.Math_max a t)) as (H1 & H2 & H3).
    destruct (Math_max_cases a t) as [[Hle Hmax] | [Hlt Hmax]]; rewrite Hmax in *.
    + repeat split.
      * lra.
      * intros x Hx. apply elem_of_cons in Hx as [-> | Hx]; [ exact H1 | auto ].
      * right. destruct H3 as [-> | H3]; [ left | right; exact H3 ].
    + repeat split.
      * exact H1.
      * intros x Hx. apply elem_of_cons in Hx as [-> | Hx]; [ lra | auto ].
      * destruct H3 as [H3 | H3]; [ left; exact H3 | right; right; exact H3 ].
Qed.

(** What the maximum of the specification is. *)
Lemma fold_Qmax ts :
  forall t,
    let m := fold_right Qmax t ts in
    (forall x, x ∈ t :: ts -> x <= m) /\ (exists x, x ∈ t :: ts /\ x == m).
Proof.
  induction ts as [| u ts IH]; intros t; cbn.
  - split.
    + intros x Hx. apply list_elem_of_singleton in Hx as ->. lra.
    + exists t. split; [ left | reflexivity ].
  - destruct (IH t) as (H1 & x0 & Hx0 & Hx0m).
    destruct (Q.max_spec u (fold_right Qmax t ts)) as [[Hlt Hmax] | [Hle Hmax]].
    + split.
      * intros x Hx. rewrite Hmax.
        apply elem_of_cons in Hx as [-> | Hx]; [ apply H1; left |].
        apply elem_of_cons in Hx as [-> | Hx]; [ lra |].
        apply H1. right. exact Hx.
      * exists x0. split; [| rewrite Hmax; exact Hx0m ].
        apply elem_of_cons in Hx0 as [-> | Hx0]; [ left | right; right; exact Hx0 ].
    + split.
      * intros x Hx. rewrite Hmax.
        apply elem_of_cons in Hx as [-> | Hx].
        { specialize (H1 t). assert (t <= fold_right Qmax t ts) by (apply H1; left). lra. }
        apply elem_of_cons in Hx as [-> | Hx]; [ lra |].
        assert (x <= fold_right Qmax t ts) by (apply H1; right; exact Hx). lra.
      * exists u. split; [ right; left | rewrite Hmax; reflexivity ].
Qed.

Lemma targetUpdateTime_cases m :
  let A := fold_left Js.Math_max (omap referenceStart (allStreamInfos m)) 0 in
  (0 <= A - 2 /\ targetUpdateTime m = Some (A - 2)) \/
  (A - 2 < 0 /\ targetUpdateTime m = None).
Proof.
  cbv zeta. unfold targetUpdateTime.
  rewrite largestSecondLastStart_flat, fold_visitStreamInfo.
  js_case (Js.ge (fold_left Js.Math_max (omap referenceStart (allStreamInfos m)) 0 - 2) 0).
  - left. split; [ exact E | reflexivity ].
  - right. split; [ exact E | reflexivity ].
Qed.

Lemma targetUpdateTime_refines_spec m :
  sameTime (targetUpdateTime m) (spec_estimate m).
Proof.
  destruct (targetUpdateTime_cases m) as [[HA ->] | [HA ->]];
    unfold spec_estimate;
    destruct (fold_Math_max (omap referenceStart (allStreamInfos m)) 0)
      as (H0 & Hub & Hin);
    destruct (omap referenceStart (allStreamInfos m)) as [| t ts] eqn:Ets;
    cbn in HA, H0, Hub, Hin |- *.
  - lra.
  - set (A := fold_left Js.Math_max ts (Js.Math_max 0 t)) in *.
    destruct (fold_Qmax ts t) as (Hspec & x & Hx & Hxm).
    set (m' := fold_right Qmax t ts) in *.
    assert (HAm : A == m').
    { destruct Hin as [Hin | Hin]; [ rewrite Hin in HA; lra |].
      apply Qle_antisym; [ apply Hspec, Hin | rewrite <- Hxm; apply Hub, Hx ]. }
    js_case (Qle_bool 0 (m' - 2)); cbn; lra.
  - exact I.
  - set (A := fold_left Js.Math_max ts (Js.Math_max 0 t)) in *.
    destruct (fold_Qmax ts t) as (Hspec & x & Hx & Hxm).
    set (m' := fold_right Qmax t ts) in *.
    assert (HAm : m' <= A) by (rewrite <- Hxm; apply Hub, Hx).
    js_case (Qle_bool 0 (m' - 2)); cbn; [ lra | exact I ].
Qed.

(** C3: the value [setTargetUpdateTime_] stores is the estimate of the
    specification: over the streams that have a segment index, the maximum
    [m] of the start time of the reference at index
    [max(0, referenceCount - 2)], less 2, when [m - 2 >= 0], and [null]
    otherwise; streams without a segment index are skipped.  Reference start
    times [10, 20, 30] and [15, 25] give [max(20, 15) - 2 = 18]. *)
Theorem targetUpdateTime_is_estimate :
  (forall m, sameTime (targetUpdateTime m) (spec_estimate m)) /\
  (forall w,
      match manifestInfo (self w) with
      | Some m =>
          sameTime (targetUpdateTime_ (self (exec setTargetUpdateTime_ w)))
                   (spec_estimate m)
      | None => completes setTargetUpdateTime_ w = false
      end) /\
  (let m := manifestOf [Some [10; 20; 30]; Some [15; 25]] in
   targetUpdateTime m = Some 18 /\
   targetUpdateTime_ (self (exec setTargetUpdateTime_ (worldWith (Some m) 0 0 0)))
     = Some 18).
Proof.
  split; [| split ].
  - apply targetUpdateTime_refines_spec.
  - intros w. destruct (manifestInfo (self w)) as [m |] eqn:Hm.
    + unfold exec. rewrite (setTargetUpdateTime_run w m Hm). fields.
      apply targetUpdateTime_refines_spec.
    + unfold completes. rewrite (setTargetUpdateTime_throws w Hm). reflexivity.
  - vm_compute. split; reflexivity.
Qed.

(** C4, as amended: when every stream that has a segment index has no
    reference, or a single reference that starts before 2 seconds, the target
    update time is [null].  (A stream's only reference is the one at index
    [max(0, 1 - 2) = 0], so it counts like any second-to-last one.) *)
Theorem targetUpdateTime_null_when_sole_references_early :
  forall m,
    (forall s si,
        s ∈ allStreamInfos m ->
        segmentIndex s = Some si ->
        references si = [] \/
        exists r, references si = [r] /\ startTime r < 2) ->
    targetUpdateTime m = None.
Proof.
  intros m Hstreams.
  pose proof (targetUpdateTime_cases m) as Hcases.
  pose proof (fold_Math_max (omap referenceStart (allStreamInfos m)) 0) as Hfold.
  cbv zeta in Hcases, Hfold.
  set (A := fold_left Js.Math_max _ 0) in *. clearbody A.
  destruct Hcases as [[HA _] | [_ H]]; [| exact H ].
  exfalso.
  destruct Hfold as (_ & _ & [Hin | Hin]).
  - rewrite Hin in HA. lra.
  - apply list_elem_of_omap in Hin as (s & Hs & Hstart).
    unfold referenceStart in Hstart.
    destruct (segmentIndex s) as [si |] eqn:Hsi; [| discriminate ].
    destruct (Hstreams s si Hs Hsi) as [Hnone | (r & Hone & Hearly)];
      rewrite ?Hnone, ?Hone in Hstart; cbn in Hstart; [ discriminate |].
    injection Hstart as Hstart. rewrite <- Hstart in HA. lra.
Qed.

(** C4, as stated, fails: a stream whose only reference starts at 100 seconds
    gives the target update time 98, not [null]. *)
Lemma sole_reference_defines_target :
  let m := manifestOf [Some [100]; Some []; None] in
  Forall
    (fun s => forall si, segmentIndex s = Some si -> (length (references si) <= 1)%nat)
    (allStreamInfos m) /\
  targetUpdateTime m = Some 98 /\
  targetUpdateTime m <> None.
Proof.
  cbv zeta. split; [| split ].
  - cbn. repeat (apply List.Forall_cons || apply List.Forall_nil);
      intros si Hsi; inversion Hsi; subst; cbn; lia.
  - vm_compute. reflexivity.
  - vm_compute. discriminate.
Qed.

(** ** Seeking *)

Lemma onSeeking_run w :
  let d := self w in
  let currentTime := videoCurrentTime (host w) in
  onSeeking w =
    (Normal tt,
     if Js.ge currentTime (seekStartTime_ d - 0.01) &&
        Qle_bool currentTime (seekEndTime_ d + 0.01)
     then mkWorld (set_streamResyncs (S (streamResyncs d)) d) (host w)
     else
       let targetTime :=
         if Js.lt currentTime (seekStartTime_ d) then seekStartTime_ d
         else seekEndTime_ d in
       mkWorld d (set_videoCurrentTime targetTime (host w))).
Proof.
  cbv zeta. unfold onSeeking, assert_. do 3 step.
  destruct (Js.ge _ _ && _); [ reflexivity |].
  destruct (Js.lt _ _); reflexivity.
Qed.

Lemma eqb_succ_false n : (n =? S n)%nat = false.
Proof. apply Nat.eqb_neq. lia. Qed.

(** C6, as amended: with the seek window [5, 100] and the tolerance 0.01,
    [validate(5.0)] and [validate(4.99)] are accepted, [validate(4.98)] and
    [validate(4.0)] are rejected with the clamped time 5, and [validate(150)]
    is rejected with the clamped time 100. *)
Theorem validate_5_100 :
  validate seekWorld 5.0 = Accepted /\
  validate seekWorld 4.99 = Accepted /\
  validate seekWorld 4.98 = Clamped 5 /\
  validate seekWorld 4.0 = Clamped 5 /\
  validate seekWorld 150 = Clamped 100.
Proof. vm_compute. repeat split; reflexivity. Qed.

(** C6, as stated, fails: 4.98 lies 0.02 below the start of the window
    [5, 100], outside the tolerance, so [validate(4.98)] is not accepted. *)
Lemma validate_4_98_not_accepted :
  4.98 < seekStartTime_ (self seekWorld) - 0.01 /\
  validate seekWorld 4.98 <> Accepted.
Proof. vm_compute. split; [ reflexivity | discriminate ]. Qed.

(** ** Seeking, in binary64 *)

Lemma rounded_onSeeking_run w :
  let d := self w in
  let currentTime := videoCurrentTime (host w) in
  let tolerance := Binary64.number 0.01 in
  Rounded.onSeeking w =
    (Normal tt,
     if Js.ge currentTime (Binary64.sub (seekStartTime_ d) tolerance) &&
        Qle_bool currentTime (Binary64.add (seekEndTime_ d) tolerance)
     then mkWorld (set_streamResyncs (S (streamResyncs d)) d) (host w)
     else
       let targetTime :=
         if Js.lt currentTime (seekStartTime_ d) then seekStartTime_ d
         else seekEndTime_ d in
       mkWorld d (set_videoCurrentTime targetTime (host w))).
Proof.
  cbv zeta. unfold Rounded.onSeeking, assert_. do 3 step.
  destruct (Js.ge _ _ && _); [ reflexivity |].
  destruct (Js.lt _ _); reflexivity.
Qed.

Lemma tolerance_nonneg : 0 <= Binary64.number 0.01.
Proof. apply number_nonneg. unfold Qle. cbn. lia. Qed.

(** The bounds the code computes enclose the seek window. *)
Lemma tolerance_encloses seekStart seekEnd :
  Binary64.isDouble seekStart ->
  Binary64.isDouble seekEnd ->
  Binary64.sub seekStart (Binary64.number 0.01) <= seekStart /\
  seekEnd <= Binary64.add seekEnd (Binary64.number 0.01).
Proof.
  intros Hstart Hend. pose proof tolerance_nonneg as Htol.
  split; [ apply sub_nonneg_r | apply add_nonneg_r ]; assumption.
Qed.

Lemma rounded_seekTo_accepted w t :
  Binary64.sub (seekStartTime_ (self w)) (Binary64.number 0.01) <= t ->
  t <= Binary64.add (seekEndTime_ (self w)) (Binary64.number 0.01) ->
  Rounded.seekTo t w =
    mkWorld (set_streamResyncs (S (streamResyncs (self w))) (self w))
            (set_videoCurrentTime t (host w)).
Proof.
  intros Hlow Hhigh. unfold Rounded.seekTo, exec. rewrite rounded_onSeeking_run. fields.
  apply ge_true in Hlow. apply le_true in Hhigh. rewrite Hlow, Hhigh. reflexivity.
Qed.

Lemma rounded_seekTo_below w t :
  Binary64.isDouble (seekStartTime_ (self w)) ->
  t < Binary64.sub (seekStartTime_ (self w)) (Binary64.number 0.01) ->
  Rounded.seekTo t w =
    mkWorld (self w) (set_videoCurrentTime (seekStartTime_ (self w)) (host w)).
Proof.
  intros Hstart Hlow. unfold Rounded.seekTo, exec. rewrite rounded_onSeeking_run. fields.
  pose proof (sub_nonneg_r _ _ Hstart tolerance_nonneg) as Hbound.
  assert (Hlt : Js.lt t (seekStartTime_ (self w)) = true) by (apply lt_true; lra).
  apply ge_false in Hlow. rewrite Hlow, Hlt. reflexivity.
Qed.

Lemma rounded_seekTo_above w t :
  Binary64.isDouble (seekEndTime_ (self w)) ->
  seekStartTime_ (self w) <= seekEndTime_ (self w) ->
  Binary64.add (seekEndTime_ (self w)) (Binary64.number 0.01) < t ->
  Rounded.seekTo t w =
    mkWorld (self w) (set_videoCurrentTime (seekEndTime_ (self w)) (host w)).
Proof.
  intros Hend Horder Hhigh. unfold Rounded.seekTo, exec.
  rewrite rounded_onSeeking_run. fields.
  pose proof (add_nonneg_r _ _ Hend tolerance_nonneg) as Hbound.
  assert (Hlt : Js.lt t (seekStartTime_ (self w)) = false) by (apply lt_false; lra).
  apply le_false in Hhigh. rewrite Hhigh, Hlt, andb_false_r. reflexivity.
Qed.

(** How far the computed bounds lie from [start - 0.01] and [end + 0.01]. *)
Lemma tolerance_error x :
  Qabs (Binary64.sub x (Binary64.number 0.01) - (x - 0.01)) <=
    Binary64.maxError (x - Binary64.number 0.01) + Binary64.maxError 0.01 /\
  Qabs (Binary64.add x (Binary64.number 0.01) - (x + 0.01)) <=
    Binary64.maxError (x + Binary64.number 0.01) + Binary64.maxError 0.01.
Proof.
  pose proof (sub_error x (Binary64.number 0.01)) as E1.
  pose proof (add_error x (Binary64.number 0.01)) as E2.
  pose proof (round_error_relative 0.01) as E3.
  fold (Binary64.number 0.01) in E3. fold (Binary64.maxError 0.01) in E3.
  apply Qabs_Qle_condition in E1, E2, E3.
  split; apply Qabs_Qle_condition; split; lra.
Qed.

(** C5, as amended: for a seek window of doubles with [start <= end] and a
    requested time [t], the code compares [t] with the doubles nearest
    [start - tolerance] and [end + tolerance], where [tolerance] is the
    double nearest 0.01.  These two bounds enclose the window; within them
    the seek is accepted (handed to the base class) and the video's time
    stays [t]; below the lower one it is rejected and the video's time
    becomes [start]; above the upper one it is rejected and the video's time
    becomes [end].  The bounds lie within the stated rounding of
    [start - 0.01] and [end + 0.01].  The 'play' handler, which [attach]
    registers for a live stream, is this same validation of the video's
    current time. *)
Theorem onSeeking_validates :
  forall w t,
    Binary64.isDouble (seekStartTime_ (self w)) ->
    Binary64.isDouble (seekEndTime_ (self w)) ->
    seekStartTime_ (self w) <= seekEndTime_ (self w) ->
    let seekStart := seekStartTime_ (self w) in
    let seekEnd := seekEndTime_ (self w) in
    let tolerance := Binary64.number 0.01 in
    let low := Binary64.sub seekStart tolerance in
    let high := Binary64.add seekEnd tolerance in
    (low <= seekStart /\ seekEnd <= high) /\
    (low <= t /\ t <= high ->
     Rounded.validate w t = Accepted /\
     videoCurrentTime (host (Rounded.seekTo t w)) = t) /\
    (t < low ->
     Rounded.validate w t = Clamped seekStart /\
     videoCurrentTime (host (Rounded.seekTo t w)) = seekStart /\
     streamResyncs (self (Rounded.seekTo t w)) = streamResyncs (self w)) /\
    (high < t ->
     Rounded.validate w t = Clamped seekEnd /\
     videoCurrentTime (host (Rounded.seekTo t w)) = seekEnd /\
     streamResyncs (self (Rounded.seekTo t w)) = streamResyncs (self w)) /\
    (Qabs (low - (seekStart - 0.01)) <=
       Binary64.maxError (seekStart - tolerance) + Binary64.maxError 0.01 /\
     Qabs (high - (seekEnd + 0.01)) <=
       Binary64.maxError (seekEnd + tolerance) + Binary64.maxError 0.01) /\
    (forall w', Rounded.onPlay_ w' = Rounded.onSeeking w') /\
    (forall w',
        Rounded.video_play (exec attach_then w') =
        Rounded.onSeeking (exec attach_then w')).
Proof.
  intros w t Hstart Hend Horder seekStart seekEnd tolerance low high.
  subst seekStart seekEnd tolerance low high.
  split; [ apply tolerance_encloses; assumption |].
  split; [| split; [| split; [| split; [| split ]]]].
  - intros [Hlow Hhigh]. unfold Rounded.validate.
    rewrite (rounded_seekTo_accepted w t Hlow Hhigh). fields.
    rewrite Nat.eqb_refl. split; reflexivity.
  - intros Hlow. unfold Rounded.validate.
    rewrite (rounded_seekTo_below w t Hstart Hlow). fields.
    rewrite eqb_succ_false. repeat split; reflexivity.
  - intros Hhigh. unfold Rounded.validate.
    rewrite (rounded_seekTo_above w t Hend Horder Hhigh). fields.
    rewrite eqb_succ_false. repeat split; reflexivity.
  - split; [ apply (tolerance_error (seekStartTime_ (self w)))
           | apply (tolerance_error (seekEndTime_ (self w))) ].
  - reflexivity.
  - reflexivity.
Qed.

(** C5, as stated, fails: the double nearest 100.01 is greater than
    [100 + 0.01], yet on the window [5, 100] the code accepts it: the upper
    bound it computes, the double nearest [100 + tolerance], is that same
    double. *)
Lemma seek_above_tolerance_accepted :
  let t := Binary64.number 100.01 in
  seekStartTime_ (self seekWorld) <= seekEndTime_ (self seekWorld) /\
  seekEndTime_ (self seekWorld) + 0.01 < t /\
  Rounded.validate seekWorld t = Accepted /\
  Rounded.validate seekWorld t <> Clamped (seekEndTime_ (self seekWorld)).
Proof.
  cbv zeta. vm_compute.
  split; [ intros H; discriminate H |].
  split; [ reflexivity |]. split; [ reflexivity | discriminate ].
Qed.

(** The same validations on the window [5, 100], as binary64 computes
    them on the doubles nearest the requested times. *)
Lemma binary64_validation_on_5_100 :
  Rounded.validate seekWorld 5.0 = Accepted /\
  Rounded.validate seekWorld (Binary64.number 4.99) = Accepted /\
  Rounded.validate seekWorld (Binary64.number 4.98) = Clamped 5 /\
  Rounded.validate seekWorld 4.0 = Clamped 5 /\
  Rounded.validate seekWorld 150 = Clamped 100.
Proof. vm_compute. repeat split; reflexivity. Qed.

(** ** Refreshing the manifest *)

Lemma truthy_iff x :
  Js.truthy x = true <-> exists t, x = Some t /\ ~ t == 0.
Proof.
  unfold Js.truthy. destruct x as [t |].
  - rewrite negb_true_iff, <- not_true_iff_false, Qeq_bool_iff. split.
    + intros H. exists t. split; [ reflexivity | exact H ].
    + intros (t' & Ht & H). injection Ht as ->. exact H.
  - split; [ discriminate | intros (t & Ht & _); discriminate ].
Qed.

(** C7, at the failing input: references at 0, 2 and 4 seconds give the
    defined target update time 0; the seek range timer set at 9 seconds fires
    at 10 seconds, the seek end advances from 10 to 11 (beyond the target) and
    the last fetch is 10 seconds old, yet no request is sent and the fetch
    time stays as it was.  With references at 0, 3 and 6 seconds (target 1)
    the same fire does send the request. *)
Theorem refresh_skipped_when_target_is_zero :
  let w := timerWorld [0; 2; 4] in
  let w' := exec (timer_fires clock_9_10 1) w in
  (targetUpdateTime_ (self w) = Some 0 /\
   seekEndTime_ (self w') == 11 /\
   Js.to_number (targetUpdateTime_ (self w')) <= seekEndTime_ (self w') /\
   MIN_UPDATE_INTERVAL_ <=
     inject_Z (clock_9_10 2) / 1000 - Js.to_number (lastMpdFetchTime_ (self w))) /\
  (mpdRequests (host w') = [] /\
   lastMpdFetchTime_ (self w') = lastMpdFetchTime_ (self w)) /\
  (let v := timerWorld [0; 3; 6] in
   let v' := exec (timer_fires clock_9_10 1) v in
   targetUpdateTime_ (self v) = Some 1 /\
   mpdRequests (host v') = [mpdUrl_ (self v)]).
Proof.
  cbv zeta. vm_compute. repeat split; try reflexivity; intros H; discriminate H.
Qed.

(** ** The refresh from the seek range timer, in binary64 *)

Lemma rounded_advance_after_cancel offset d :
  let d' := Rounded.advance offset (set_seekRangeUpdateTimer_ None d) in
  seekStartTime_ d' = seekStartTime_ (Rounded.advance offset d) /\
  seekEndTime_ d' = seekEndTime_ (Rounded.advance offset d) /\
  timeShiftBufferDepth_ d' = timeShiftBufferDepth_ d /\
  targetUpdateTime_ d' = targetUpdateTime_ d /\
  lastMpdFetchTime_ d' = lastMpdFetchTime_ d /\
  mpdUrl_ d' = mpdUrl_ d.
Proof.
  unfold Rounded.advance.
  cbn [seekEndTime_ seekStartTime_ timeShiftBufferDepth_ set_seekRangeUpdateTimer_].
  destruct (Js.gt _ _); repeat split; reflexivity.
Qed.

(** The requests a timer fire sends: one, to the MPD URL, when the code's
    condition holds as binary64 computes it, none otherwise. *)
Lemma rounded_onSeekRangeUpdate_requests wall_clock startWallTime w :
  let w' := exec (Rounded.onSeekRangeUpdate_ wall_clock startWallTime) w in
  let offset :=
    Binary64.div
      (Binary64.sub (inject_Z (wall_clock (clockReads (host w))))
                    (inject_Z startWallTime))
      1000 in
  let now := wall_clock (S (clockReads (host w))) in
  let secondsSinceLastUpdate :=
    Binary64.sub (Binary64.div (inject_Z now) 1000)
                 (Js.to_number (lastMpdFetchTime_ (self w))) in
  mpdRequests (host w') =
    mpdRequests (host w) ++
    (if Js.truthy (targetUpdateTime_ (self w)) &&
        Js.ge (Binary64.add (seekEndTime_ (self w)) offset)
              (Js.to_number (targetUpdateTime_ (self w))) &&
        Js.ge secondsSinceLastUpdate MIN_UPDATE_INTERVAL_
     then [mpdUrl_ (self w)] else []).
Proof.
  cbv zeta. unfold exec at 1. rewrite rounded_onSeekRangeUpdate_run. cbv zeta.
  rewrite cleared_clockReads.
  set (offset := Binary64.div _ 1000).
  destruct (rounded_advance_after_cancel offset (self w)) as (_ & H2 & _ & H4 & H5 & H6).
  rewrite H2, H4, H5, rounded_advance_seekEndTime_.
  cbn [clockReads set_clockReads].
  set (d2 := Rounded.advance _ _) in *. clearbody d2.
  destruct (Js.truthy _ && _); [ destruct (Js.ge _ MIN_UPDATE_INTERVAL_) |];
    unfold exec;
    rewrite ?rounded_onUpdate_run, ?fireSeekRangeChangedEvent_run,
      ?setSeekRangeUpdateTimer_run;
    fields; cbn [andb]; rewrite ?cleared_mpdRequests, ?H6, ?app_nil_r;
    fields; rewrite ?cleared_mpdRequests; reflexivity.
Qed.

(** What [onSeekRangeUpdate_] does about the manifest, in binary64: it sends
    one request exactly when the target update time is truthy (defined and
    not 0), the seek end it has computed has reached it, and the seconds
    since the last fetch, as the code computes them, are at least
    [MIN_UPDATE_INTERVAL_]. *)
Lemma rounded_onSeekRangeUpdate_refreshes wall_clock startWallTime w :
  let w' := exec (Rounded.onSeekRangeUpdate_ wall_clock startWallTime) w in
  let now := wall_clock (S (clockReads (host w))) in
  let secondsSinceLastUpdate :=
    Binary64.sub (Binary64.div (inject_Z now) 1000)
                 (Js.to_number (lastMpdFetchTime_ (self w))) in
  let due :=
    exists T, targetUpdateTime_ (self w) = Some T /\ ~ T == 0 /\
              T <= seekEndTime_ (self w') /\
              MIN_UPDATE_INTERVAL_ <= secondsSinceLastUpdate in
  (due -> mpdRequests (host w') = mpdRequests (host w) ++ [mpdUrl_ (self w)]) /\
  (~ due -> mpdRequests (host w') = mpdRequests (host w)).
Proof.
  cbv zeta.
  destruct (rounded_onSeekRangeUpdate_window wall_clock startWallTime w)
    as (_ & Hend & _).
  rewrite Hend, rounded_advance_seekEndTime_.
  rewrite (rounded_onSeekRangeUpdate_requests wall_clock startWallTime w).
  set (seekEnd := Binary64.add (seekEndTime_ (self w)) _).
  set (secs := Binary64.sub _ (Js.to_number (lastMpdFetchTime_ (self w)))).
  destruct (Js.truthy (targetUpdateTime_ (self w))) eqn:Etruthy.
  - apply truthy_iff in Etruthy as (T & HT & Hnz). rewrite HT. cbn [Js.to_number andb].
    js_case (Js.ge seekEnd T); [ js_case (Js.ge secs MIN_UPDATE_INTERVAL_) |];
      cbn [andb]; split; intros H;
      try reflexivity; try (rewrite app_nil_r; reflexivity).
    + exfalso. apply H. exists T. auto.
    + destruct H as (T' & HT' & _ & _ & Hsecs). lra.
    + destruct H as (T' & HT' & _ & Hreach & _). injection HT' as <-. lra.
  - cbn [andb]. split; intros H; [| rewrite app_nil_r; reflexivity ].
    destruct H as (T & HT & Hnz & _).
    assert (Hyes : Js.truthy (targetUpdateTime_ (self w)) = true)
      by (apply truthy_iff; exists T; auto).
    congruence.
Qed.

(** The same timer fire in binary64: the target update time 0 is skipped
    all the same, and the target 1 is not. *)
Lemma binary64_refresh_skipped_at_target_zero :
  let w := roundedTimerWorld [0; 2; 4] in
  let w' := exec (Rounded.timer_fires clock_9_10 1) w in
  (targetUpdateTime_ (self w) = Some 0 /\
   seekEndTime_ (self w') == 11 /\
   Js.to_number (targetUpdateTime_ (self w')) <= seekEndTime_ (self w') /\
   MIN_UPDATE_INTERVAL_ <=
     Binary64.sub (Binary64.div (inject_Z (clock_9_10 2)) 1000)
                  (Js.to_number (lastMpdFetchTime_ (self w)))) /\
  (mpdRequests (host w') = [] /\
   lastMpdFetchTime_ (self w') = lastMpdFetchTime_ (self w)) /\
  (let v := roundedTimerWorld [0; 3; 6] in
   let v' := exec (Rounded.timer_fires clock_9_10 1) v in
   Js.truthy (targetUpdateTime_ (self v)) = true /\
   mpdRequests (host v') = [mpdUrl_ (self v)]).
Proof.
  cbv zeta. vm_compute. repeat split; try reflexivity; intros H; discriminate H.
Qed.

(** ** A refresh that fails *)

(** C9: when the request of a refresh is rejected, no code of the object
    runs: the world stays as [onUpdate_] left it.  Compared with the world
    before the attempt, the manifest, the seek window, the
    [timeShiftBufferDepth] and the target update time are unchanged, the
    update timer the attempt cancelled is not set again, the seek range timer
    is as it was, and no timer was added to the pending ones. *)
Theorem rejected_refresh_keeps_state :
  forall wall_clock process w reason,
    let w1 := exec (onUpdate_ wall_clock) w in
    let w2 := exec (onUpdate_settled process (Rejected reason)) w1 in
    w2 = w1 /\
    manifestInfo (self w2) = manifestInfo (self w) /\
    seekStartTime_ (self w2) = seekStartTime_ (self w) /\
    seekEndTime_ (self w2) = seekEndTime_ (self w) /\
    timeShiftBufferDepth_ (self w2) = timeShiftBufferDepth_ (self w) /\
    targetUpdateTime_ (self w2) = targetUpdateTime_ (self w) /\
    updateTimer_ (self w2) = None /\
    seekRangeUpdateTimer_ (self w2) = seekRangeUpdateTimer_ (self w) /\
    timers (host w2) ⊆ timers (host w) /\
    nextTimer (host w2) = nextTimer (host w).
Proof.
  intros wall_clock process w reason. cbv zeta.
  unfold exec. cbn [onUpdate_settled ret snd]. rewrite onUpdate_run. fields.
  repeat split; try reflexivity.
  - apply cleared_timers.
  - destruct (updateTimer_ (self w)); reflexivity.
Qed.

(** ** Teardown *)

Lemma cleared_twice_lookup h1 h2 b h :
  h1 = Some h \/ h2 = Some h ->
  timers (cleared h2 (cleared h1 b)) !! h = None.
Proof.
  intros [-> | ->].
  - destruct h2 as [h' |]; cbn; [| apply lookup_delete_eq ].
    apply lookup_delete_None. right. apply lookup_delete_eq.
  - cbn. apply lookup_delete_eq.
Qed.

(** C10, as amended: [destroy] calls both cancel routines unconditionally,
    after which neither timer field is set, neither handle is pending and no
    timer was added; cancelling an unset timer changes nothing.  The function
    [onUpdate_] passed to [then] has no liveness guard: when the request in
    flight at teardown is fulfilled afterwards, it still stores the new
    [timeShiftBufferDepth] and manifest, sets the update timer again (for
    [max(minUpdatePeriod, 3)] seconds) and recomputes the target update time;
    only a rejected request leaves the torn-down state as it is. *)
Theorem destroy_cancels_timers_then_unguarded :
  forall process w mpd,
    let w1 := exec destroy w in
    let w2 := exec (onUpdate_settled process (Fulfilled mpd)) w1 in
    (updateTimer_ (self w1) = None /\
     seekRangeUpdateTimer_ (self w1) = None /\
     (forall h,
         updateTimer_ (self w) = Some h \/ seekRangeUpdateTimer_ (self w) = Some h ->
         timers (host w1) !! h = None) /\
     timers (host w1) ⊆ timers (host w) /\
     nextTimer (host w1) = nextTimer (host w)) /\
    ((updateTimer_ (self w) = None -> exec cancelUpdateTimer_ w = w) /\
     (seekRangeUpdateTimer_ (self w) = None ->
      exec cancelSeekRangeUpdateTimer_ w = w)) /\
    (timeShiftBufferDepth_ (self w2) = Js.or_zero (timeShiftBufferDepth mpd) /\
     manifestInfo (self w2) = Some (process None mpd) /\
     targetUpdateTime_ (self w2) = targetUpdateTime (process None mpd) /\
     updateTimer_ (self w2) = Some (nextTimer (host w1)) /\
     timers (host w2) !! nextTimer (host w1) =
       Some (OnUpdate,
             1000 * Js.Math_max (Js.or_zero (minUpdatePeriod mpd)) MIN_UPDATE_INTERVAL_)) /\
    (forall reason, exec (onUpdate_settled process (Rejected reason)) w1 = w1).
Proof.
  intros process w mpd. cbv zeta.
  unfold exec. cbn [onUpdate_settled]. rewrite onUpdate_then_run, destroy_run. fields.
  split; [| split; [| split ]].
  - repeat split.
    + intros h Hh. apply cleared_twice_lookup. exact Hh.
    + etransitivity; apply cleared_timers.
    + destruct (seekRangeUpdateTimer_ (self w)), (updateTimer_ (self w)); reflexivity.
  - split; intros H.
    + rewrite cancelUpdateTimer_run. destruct w as [[] b]. cbn in H. subst.
      reflexivity.
    + rewrite cancelSeekRangeUpdateTimer_run. destruct w as [[] b]. cbn in H. subst.
      reflexivity.
  - repeat split. apply lookup_insert_eq.
  - reflexivity.
Qed.

(** C10, as stated, fails: tear down a source whose refresh request is in
    flight, then let that request be fulfilled.  The callback is not a no-op:
    the [timeShiftBufferDepth] goes from 40 to 60 and the update timer that
    [destroy] cancelled is set again, for 3000 ms. *)
Lemma refresh_after_destroy_changes_state :
  let w1 := exec destroy refreshingWorld in
  let w2 :=
    exec (onUpdate_settled (processTo (manifestOf [Some [10; 20; 30; 40]]))
            (Fulfilled refreshedMpd)) w1 in
  (updateTimer_ (self w1) = None /\ timers (host w1) = ∅ /\
   timeShiftBufferDepth_ (self w1) = 40) /\
  (timeShiftBufferDepth_ (self w2) = 60 /\
   updateTimer_ (self w2) = Some 3%positive /\
   timers (host w2) !! 3%positive = Some (OnUpdate, 3000) /\
   targetUpdateTime_ (self w2) = Some 28) /\
  w2 <> w1.
Proof.
  cbv zeta. split; [| split ].
  - vm_compute. repeat split; reflexivity.
  - vm_compute. repeat split; reflexivity.
  - intros H.
    apply (f_equal (fun w => timeShiftBufferDepth_ (self w))) in H.
    vm_compute in H. discriminate H.
Qed.

(** ** The theorems on concrete inputs *)

Lemma advance_shifts_by_elapsed_witness :
  let d := sourceWith None 40 (Binary64.number 11.584) (Binary64.number 50.584) in
  Binary64.add (Binary64.sub (seekEndTime_ d) (seekStartTime_ d)) 1 <=
    timeShiftBufferDepth_ d /\
  seekStartTime_ (Rounded.advance 1 d) = seekStartTime_ d /\
  seekEndTime_ (Rounded.advance 1 d) = Binary64.add (seekEndTime_ d) 1.
Proof.
  cbv zeta.
  set (d := sourceWith None 40 (Binary64.number 11.584) (Binary64.number 50.584)).
  assert (H : Binary64.add (Binary64.sub (seekEndTime_ d) (seekStartTime_ d)) 1 <=
              timeShiftBufferDepth_ d)
    by (vm_compute; discriminate).
  split; [ exact H |].
  destruct advance_shifts_by_elapsed as (Hcases & _).
  destruct (Hcases d 1) as (_ & Hgrow).
  exact (Hgrow H).
Defined.

Lemma live_window_invariant_witness :
  let w := worldWith (Some (manifestOf [])) 40 0 0 in
  let d0 := self (exec (Rounded.onStartStreams (clockAt 0) (limits 0 50)) w) in
  let d := Rounded.advances [Binary64.div 1002 1000] d0 in
  let d' := Rounded.advance (Binary64.div 1011 1000) d in
  seekStartTime_ d <= seekEndTime_ d /\
  seekStartTime_ d' <= seekEndTime_ d' /\
  seekStartTime_ d <= seekStartTime_ d' /\
  seekEndTime_ d <= seekEndTime_ d' /\
  seekWindow d <=
    timeShiftBufferDepth_ d +
    (3 * inject_Z (Z.of_nat (length [Binary64.div 1002 1000])) + 1) *
    Binary64.maxError (seekEndTime_ d).
Proof.
  cbv zeta.
  assert (Helapsed : Forall (Qle 0) [Binary64.div 1002 1000]).
  { apply List.Forall_cons; [ vm_compute; discriminate | apply List.Forall_nil ]. }
  assert (Hstart : Binary64.isDouble (limitsStart {| limitsStart := 0; limitsEnd := 50 |}))
    by (vm_compute; reflexivity).
  assert (Hend : Binary64.isDouble (limitsEnd {| limitsStart := 0; limitsEnd := 50 |}))
    by (vm_compute; reflexivity).
  assert (Hrange : limitsStart {| limitsStart := 0; limitsEnd := 50 |}
                   <= limitsEnd {| limitsStart := 0; limitsEnd := 50 |})
    by (vm_compute; discriminate).
  assert (Hdepth : 0 <= timeShiftBufferDepth_
                          (self (worldWith (Some (manifestOf [])) 40 0 0)))
    by (vm_compute; discriminate).
  assert (Hoffset : 0 <= Binary64.div 1011 1000) by (vm_compute; discriminate).
  destruct (live_window_invariant (clockAt 0) (limits 0 50)
              (worldWith (Some (manifestOf [])) 40 0 0) (manifestOf [])
              {| limitsStart := 0; limitsEnd := 50 |}
              [Binary64.div 1002 1000] (Binary64.div 1011 1000)
              eq_refl eq_refl eq_refl Hstart Hend Hrange Hdepth Helapsed Hoffset)
    as (_ & _ & _ & H1 & H2 & H3 & H4 & _ & _ & Hrun).
  assert (Hpos : 0 <= limitsStart {| limitsStart := 0; limitsEnd := 50 |})
    by (vm_compute; discriminate).
  destruct (Hrun Hpos) as (_ & H5).
  exact (conj H1 (conj H2 (conj H3 (conj H4 H5)))).
Defined.

Lemma advance_grows_or_slides_witness :
  let d := sourceWith None 40 0 39 in
  0 < 1 /\
  Binary64.add (Binary64.sub (seekEndTime_ d) (seekStartTime_ d)) 1 <=
    timeShiftBufferDepth_ d /\
  seekStartTime_ (Rounded.advance 1 d) = seekStartTime_ d /\
  seekWindow d <= seekWindow (Rounded.advance 1 d) /\
  seekWindow (Rounded.advance 1 d) == seekWindow d + 1.
Proof.
  cbv zeta. set (d := sourceWith None 40 0 39).
  assert (Hpos : 0 < 1) by (vm_compute; reflexivity).
  assert (Hstart : Binary64.isDouble (seekStartTime_ d)) by (vm_compute; reflexivity).
  assert (Hend : Binary64.isDouble (seekEndTime_ d)) by (vm_compute; reflexivity).
  assert (Hroom : Binary64.add (Binary64.sub (seekEndTime_ d) (seekStartTime_ d)) 1 <=
                  timeShiftBufferDepth_ d)
    by (vm_compute; discriminate).
  assert (Hexact : Binary64.isDouble (seekEndTime_ d + 1)) by (vm_compute; reflexivity).
  destruct (advance_grows_or_slides d 1 Hpos Hstart Hend) as (Hgrow & _).
  destruct (Hgrow Hroom) as (H1 & _ & H2 & H3).
  destruct (H3 Hexact) as (H4 & _).
  exact (conj Hpos (conj Hroom (conj H1 (conj H2 H4)))).
Defined.

Lemma targetUpdateTime_null_when_sole_references_early_witness :
  targetUpdateTime (manifestOf [Some [1]; Some []; None]) = None.
Proof.
  apply targetUpdateTime_null_when_sole_references_early.
  intros s si Hs Hsi. cbn in Hs.
  apply elem_of_cons in Hs as [-> | Hs].
  { right. injection Hsi as <-. exists {| startTime := 1 |}.
    split; [ reflexivity | vm_compute; reflexivity ]. }
  apply elem_of_cons in Hs as [-> | Hs].
  { left. injection Hsi as <-. reflexivity. }
  apply elem_of_cons in Hs as [-> | Hs].
  { discriminate Hsi. }
  inversion Hs.
Defined.

Lemma onSeeking_validates_witness :
  (Binary64.isDouble (seekStartTime_ (self seekWorld)) /\
   Binary64.isDouble (seekEndTime_ (self seekWorld)) /\
   seekStartTime_ (self seekWorld) <= seekEndTime_ (self seekWorld)) /\
  Rounded.validate seekWorld (Binary64.number 100.01) = Accepted /\
  Rounded.validate seekWorld 4 = Clamped 5 /\
  Rounded.validate seekWorld 150 = Clamped 100.
Proof.
  assert (Hstart : Binary64.isDouble (seekStartTime_ (self seekWorld)))
    by (vm_compute; reflexivity).
  assert (Hend : Binary64.isDouble (seekEndTime_ (self seekWorld)))
    by (vm_compute; reflexivity).
  assert (Horder : seekStartTime_ (self seekWorld) <= seekEndTime_ (self seekWorld))
    by (vm_compute; discriminate).
  split; [ exact (conj Hstart (conj Hend Horder)) |].
  split; [| split ].
  - destruct (onSeeking_validates seekWorld (Binary64.number 100.01) Hstart Hend Horder)
      as (_ & Hin & _).
    apply Hin. split; vm_compute; discriminate.
  - destruct (onSeeking_validates seekWorld 4 Hstart Hend Horder) as (_ & _ & Hbelow & _).
    apply Hbelow. vm_compute; reflexivity.
  - destruct (onSeeking_validates seekWorld 150 Hstart Hend Horder)
      as (_ & _ & _ & Habove & _).
    apply Habove. vm_compute; reflexivity.
Defined.

Lemma destroy_cancels_timers_then_unguarded_witness :
  let w1 := exec destroy refreshingWorld in
  updateTimer_ (self w1) = None /\
  seekRangeUpdateTimer_ (self w1) = None /\
  timers (host w1) !! 2%positive = None /\
  exec cancelUpdateTimer_ refreshingWorld = refreshingWorld.
Proof.
  cbv zeta.
  destruct (destroy_cancels_timers_then_unguarded
              (processTo (manifestOf [])) refreshingWorld refreshedMpd)
    as ((H1 & H2 & H3 & _) & (H4 & _) & _).
  split; [ exact H1 |]. split; [ exact H2 |]. split.
  - apply H3. right. vm_compute. reflexivity.
  - apply H4. vm_compute. reflexivity.
Defined.

(** * Further properties of the code *)

(** ** The update timer *)


(** ** The seek window and the wall clock *)

Lemma rounded_advance_zero d :
  Binary64.isDouble (seekStartTime_ d) ->
  Binary64.isDouble (seekEndTime_ d) ->
  seekStartTime_ (Rounded.advance 0 d) == seekStartTime_ d /\
  seekEndTime_ (Rounded.advance 0 d) == seekEndTime_ d.
Proof.
  intros Hstart Hend. rewrite rounded_advance_seekEndTime_.
  split; [| apply add_zero_r, Hend ].
  destruct (rounded_advance_cases 0 d) as [[_ ->] | [_ ->]];
    [ apply add_zero_r, Hstart | reflexivity ].
Qed.

Lemma rounded_advances_seekEndTime_ elapsed :
  forall d,
    seekEndTime_ (Rounded.advances elapsed d) =
    fold_left Binary64.add elapsed (seekEndTime_ d).
Proof.
  induction elapsed as [| offset elapsed IH]; intros d; [ reflexivity |].
  rewrite rounded_advances_cons, IH, rounded_advance_seekEndTime_. reflexivity.
Qed.

(** A running sum of non-negative numbers, rounded after every addition,
    lies within one rounding per addition of the exact sum. *)
Lemma running_sum_error elapsed :
  forall x,
    Forall (Qle 0) elapsed ->
    Binary64.isDouble x ->
    0 <= x ->
    let y := fold_left Binary64.add elapsed x in
    x <= y /\
    Qabs (y - (x + total elapsed)) <=
      inject_Z (Z.of_nat (length elapsed)) *
      (y * Binary64.pow2 (-53) + Binary64.pow2 (-1075)).
Proof.
  induction elapsed as [| offset elapsed IH]; intros x Hall Hx Hpos.
  - cbv zeta. cbn [fold_left length]. change (total []) with 0.
    change (inject_Z (Z.of_nat 0)) with 0.
    split; [ lra |]. apply Qabs_Qle_condition. split; lra.
  - inversion Hall as [| ? ? Hoffset Hrest]; subst.
    pose proof (add_nonneg_r x offset Hx Hoffset) as Hup.
    assert (Hpos1 : 0 <= Binary64.add x offset) by lra.
    destruct (IH (Binary64.add x offset) Hrest (add_isDouble x offset) Hpos1)
      as (Hle & Herr).
    cbn [fold_left length]. set (x1 := Binary64.add x offset) in *.
    set (y := fold_left Binary64.add elapsed x1) in *.
    change (total (offset :: elapsed)) with (offset + total elapsed).
    assert (Hstep : Qabs (x1 - (x + offset)) <=
                    x1 * Binary64.pow2 (-53) + Binary64.pow2 (-1075)).
    { apply round_error_result. lra. }
    pose proof (pow2_pos (-53)) as H53.
    assert (Hmono : x1 * Binary64.pow2 (-53) <= y * Binary64.pow2 (-53))
      by (apply Qmult_le_compat_r; lra).
    rewrite Nat2Z.inj_succ. unfold Z.succ. rewrite inject_Z_plus.
    change (inject_Z 1) with 1.
    rewrite Qmult_plus_distr_l, Qmult_1_l.
    set (rest := inject_Z (Z.of_nat (length elapsed)) * _) in *.
    set (p1 := x1 * Binary64.pow2 (-53)) in *.
    set (py := y * Binary64.pow2 (-53)) in *.
    set (least := Binary64.pow2 (-1075)) in *.
    set (sum := total elapsed) in *.
    apply Qabs_Qle_condition in Herr, Hstep.
    clearbody rest p1 py least sum y x1.
    split; [ lra |]. apply Qabs_Qle_condition. split; lra.
Qed.

(** X2: However the wall time is cut into updates, the seek end is the
    running sum of the elapsed times on the end it had, rounded after every
    addition, whichever ends the updates moved; it never moves backwards
    and lies within one rounding per update of the end it had plus the time
    that has passed.  The seek start never moves backwards and never passes
    the end; an update by no time at all leaves the window as it is. *)
Theorem seek_end_tracks_wall_time :
  forall elapsed d,
    Forall (Qle 0) elapsed ->
    Binary64.isDouble (seekStartTime_ d) ->
    Binary64.isDouble (seekEndTime_ d) ->
    seekStartTime_ d <= seekEndTime_ d ->
    0 <= seekEndTime_ d ->
    let d' := Rounded.advances elapsed d in
    seekEndTime_ d' = fold_left Binary64.add elapsed (seekEndTime_ d) /\
    Qabs (seekEndTime_ d' - (seekEndTime_ d + total elapsed)) <=
      inject_Z (Z.of_nat (length elapsed)) *
      (seekEndTime_ d' * Binary64.pow2 (-53) + Binary64.pow2 (-1075)) /\
    seekEndTime_ d <= seekEndTime_ d' /\
    seekStartTime_ d <= seekStartTime_ d' /\
    seekStartTime_ d' <= seekEndTime_ d' /\
    timeShiftBufferDepth_ d' = timeShiftBufferDepth_ d /\
    (seekStartTime_ (Rounded.advance 0 d') == seekStartTime_ d' /\
     seekEndTime_ (Rounded.advance 0 d') == seekEndTime_ d').
Proof.
  intros elapsed d Hall Hstart Hend Horder Hpos d'.
  destruct (rounded_advances_invariant elapsed d Hall Hstart Hend Horder)
    as (I1 & I2 & I3 & I4 & I5 & I6).
  fold d' in I1, I2, I3, I4, I5, I6.
  pose proof (rounded_advances_seekEndTime_ elapsed d) as Hsum. fold d' in Hsum.
  destruct (running_sum_error elapsed (seekEndTime_ d) Hall Hend Hpos) as (_ & Herr).
  rewrite <- Hsum in Herr.
  split; [ exact Hsum |]. split; [ exact Herr |]. split; [ exact I5 |].
  split; [ exact I4 |]. split; [ exact I3 |]. split; [ exact I6 |].
  apply rounded_advance_zero; assumption.
Qed.

(** ** Timers that fire *)

Lemma timer_fires_run wall_clock handle callback ms w :
  timers (host w) !! handle = Some (callback, ms) ->
  timer_fires wall_clock handle w =
    run wall_clock callback
      (mkWorld (self w) (set_timers (delete handle (timers (host w))) (host w))).
Proof.
  intros H. unfold timer_fires. step. rewrite H. step. reflexivity.
Qed.

Lemma timer_fires_idle wall_clock handle w :
  timers (host w) !! handle = None ->
  timer_fires wall_clock handle w = (Normal tt, w).
Proof.
  intros H. unfold timer_fires. step. rewrite H. reflexivity.
Qed.

(** The difference of two clock readings is exact. *)
Lemma clock_difference_exact a b :
  (Z.abs (a - b) <= 2 ^ 53)%Z ->
  Binary64.sub (inject_Z a) (inject_Z b) == inject_Z (a - b).
Proof.
  intros H. unfold Binary64.sub.
  assert (Heq : inject_Z a - inject_Z b == inject_Z (a - b)).
  { unfold Z.sub. rewrite inject_Z_plus, inject_Z_opp. reflexivity. }
  rewrite Heq. apply isDouble_Z, H.
Qed.

Lemma elapsed_nonneg a b :
  (a <= b)%Z -> 0 <= Binary64.div (Binary64.sub (inject_Z b) (inject_Z a)) 1000.
Proof.
  intros H. apply div_1000_nonneg, sub_nonneg. rewrite <- Zle_Qle. exact H.
Qed.

(** X3: From the moment [setSeekRangeUpdateTimer_] sets the timer to the
    moment it fires, the seek range is updated by the wall time between the
    two clock readings, in seconds as the code computes them: the
    difference of the readings (exact for readings less than [2^53] ms
    apart) divided by 1000 and rounded.  If the clock did not go backwards,
    neither the seek start nor the seek end of a window of doubles does. *)
Theorem armed_timer_advances_by_wall_time :
  forall wall_clock w,
    let n := clockReads (host w) in
    let handle := nextTimer (host w) in
    let w1 := exec (setSeekRangeUpdateTimer_ wall_clock) w in
    let w2 := exec (Rounded.timer_fires wall_clock handle) w1 in
    let elapsed :=
      Binary64.div
        (Binary64.sub (inject_Z (wall_clock (S n))) (inject_Z (wall_clock n)))
        1000 in
    (seekStartTime_ (self w1) = seekStartTime_ (self w) /\
     seekEndTime_ (self w1) = seekEndTime_ (self w)) /\
    (seekStartTime_ (self w2) = seekStartTime_ (Rounded.advance elapsed (self w)) /\
     seekEndTime_ (self w2) = Binary64.add (seekEndTime_ (self w)) elapsed /\
     timeShiftBufferDepth_ (self w2) = timeShiftBufferDepth_ (self w)) /\
    ((Z.abs (wall_clock (S n) - wall_clock n) <= 2 ^ 53)%Z ->
     elapsed == Binary64.div (inject_Z (wall_clock (S n) - wall_clock n)) 1000) /\
    ((wall_clock n <= wall_clock (S n))%Z ->
     Binary64.isDouble (seekStartTime_ (self w)) ->
     Binary64.isDouble (seekEndTime_ (self w)) ->
     seekStartTime_ (self w) <= seekStartTime_ (self w2) /\
     seekEndTime_ (self w) <= seekEndTime_ (self w2)).
Proof.
  intros wall_clock w. cbv zeta.
  set (n := clockReads (host w)). set (handle := nextTimer (host w)).
  set (w1 := exec (setSeekRangeUpdateTimer_ wall_clock) w).
  assert (Hself : self w1 = set_seekRangeUpdateTimer_ (Some handle) (self w))
    by reflexivity.
  assert (Hreads : clockReads (host w1) = S n) by reflexivity.
  assert (Hpending :
            timers (host w1) !! handle = Some (OnSeekRangeUpdate (wall_clock n), 1000))
    by (subst w1; unfold exec; rewrite setSeekRangeUpdateTimer_run; fields;
        apply lookup_insert_eq).
  assert (Hfire :
            exec (Rounded.timer_fires wall_clock handle) w1 =
            exec (Rounded.onSeekRangeUpdate_ wall_clock (wall_clock n))
              (mkWorld (self w1)
                 (set_timers (delete handle (timers (host w1))) (host w1)))).
  { unfold exec. rewrite (rounded_timer_fires_run _ _ _ _ _ Hpending). reflexivity. }
  rewrite Hfire. clear Hfire.
  destruct (rounded_onSeekRangeUpdate_window wall_clock (wall_clock n)
              (mkWorld (self w1)
                 (set_timers (delete handle (timers (host w1))) (host w1))))
    as (Hstart & Hend & Hdepth).
  cbn [self host clockReads set_timers] in Hstart, Hend, Hdepth.
  rewrite Hstart, Hend, Hdepth, Hreads, Hself. clear Hstart Hend Hdepth.
  set (elapsed := Binary64.div _ 1000) in *.
  destruct (rounded_advance_with_timer elapsed (Some handle) (self w)) as (H1 & H2 & H3).
  rewrite H1, H2, rounded_advance_seekEndTime_.
  split; [ split; reflexivity |].
  split; [ split; [ reflexivity | split; reflexivity ] |].
  split.
  - intros Hclose. subst elapsed. unfold Binary64.div.
    rewrite (clock_difference_exact _ _ Hclose). reflexivity.
  - intros Hclock Hdstart Hdend.
    assert (Hpos : 0 <= elapsed) by (apply elapsed_nonneg, Hclock).
    split; [| apply add_nonneg_r; assumption ].
    destruct (rounded_advance_cases elapsed (self w)) as [[_ ->] | [_ ->]];
      [ apply add_nonneg_r; assumption | lra ].
Qed.

Lemma cleared_dispatched handle b : dispatched (cleared handle b) = dispatched b.
Proof. destruct handle; reflexivity. Qed.

Lemma cleared_nextTimer handle b : nextTimer (cleared handle b) = nextTimer b.
Proof. destruct handle; reflexivity. Qed.

(** The last two statements of [onSeekRangeUpdate_] and of [onStartStreams]
    for a live stream. *)
Lemma notify_and_arm wall_clock w :
  let w' := exec (setSeekRangeUpdateTimer_ wall_clock)
              (exec fireSeekRangeChangedEvent_ w) in
  seekRangeUpdateTimer_ (self w') = Some (nextTimer (host w)) /\
  clockReads (host w') = S (clockReads (host w)) /\
  timers (host w') !! nextTimer (host w) =
    Some (OnSeekRangeUpdate (wall_clock (clockReads (host w))), 1000) /\
  dispatched (host w') = dispatched (host w) ++ [seekRange (self w)] /\
  seekRange (self w') = seekRange (self w).
Proof.
  cbv zeta. unfold exec.
  rewrite fireSeekRangeChangedEvent_run, setSeekRangeUpdateTimer_run. fields.
  repeat split. apply lookup_insert_eq.
Qed.

(** X4: Whatever it finds, [onSeekRangeUpdate_] completes, sets the seek range
    timer again (for 1000 ms, remembering the last clock reading it took) and
    dispatches exactly one 'seekrangechanged' event, which carries the seek
    range the call leaves. *)
Theorem seek_range_update_rearms_and_notifies :
  forall wall_clock startWallTime w,
    let w' := exec (onSeekRangeUpdate_ wall_clock startWallTime) w in
    completes (onSeekRangeUpdate_ wall_clock startWallTime) w = true /\
    (exists handle k,
        seekRangeUpdateTimer_ (self w') = Some handle /\
        clockReads (host w') = S k /\
        timers (host w') !! handle =
          Some (OnSeekRangeUpdate (wall_clock k), 1000)) /\
    dispatched (host w') = dispatched (host w) ++ [seekRange (self w')].
Proof.
  intros wall_clock startWallTime w. cbv zeta.
  unfold completes, exec at 1 2 3 4 5.
  rewrite onSeekRangeUpdate_run. cbv zeta. cbn [fst snd].
  set (w3 := if Js.truthy _ && _ then _ else _).
  assert (Hdispatched : dispatched (host w3) = dispatched (host w)).
  { subst w3.
    destruct (Js.truthy _ && _); [ destruct (Js.ge _ MIN_UPDATE_INTERVAL_) |];
      unfold exec; rewrite ?onUpdate_run; fields;
      rewrite ?cleared_dispatched; fields; rewrite ?cleared_dispatched;
      reflexivity. }
  destruct (notify_and_arm wall_clock w3) as (Hfield & Hreads & Hpending & Hevent & Hrange).
  split; [ reflexivity |]. split.
  - exists (nextTimer (host w3)), (clockReads (host w3)).
    split; [ exact Hfield |]. split; [ exact Hreads | exact Hpending ].
  - rewrite Hevent, Hrange, Hdispatched. reflexivity.
Qed.

(** ** The minimum interval between fetches *)

Lemma load_run wall_clock w :
  load wall_clock w =
    (Normal tt,
     let currentTime := inject_Z (wall_clock (clockReads (host w))) / 1000 in
     mkWorld (set_lastMpdFetchTime_ (Some currentTime) (self w))
       (set_mpdRequests (mpdRequests (host w) ++ [mpdUrl_ (self w)])
          (set_clockReads (S (clockReads (host w))) (host w)))).
Proof. reflexivity. Qed.

Lemma seconds_below_interval a b :
  (a - b < 3000)%Z ->
  Js.ge (inject_Z a / 1000 - inject_Z b / 1000) MIN_UPDATE_INTERVAL_ = false.
Proof.
  intros H. apply ge_false. unfold MIN_UPDATE_INTERVAL_.
  assert (H0 : inject_Z (a - b) < inject_Z 3000) by (rewrite <- Zlt_Qlt; exact H).
  unfold Z.sub in H0. rewrite inject_Z_plus, inject_Z_opp in H0.
  change (inject_Z 3000) with 3000 in H0.
  set (x := inject_Z a) in *. set (y := inject_Z b) in *. clearbody x y.
  unfold Qdiv. change (/ 1000) with (1 # 1000). lra.
Qed.

(** X5: A fire of the seek range timer never fetches the MPD when its clock
    reading is less than [MIN_UPDATE_INTERVAL_] seconds after the reading
    [onUpdate_] (or [load]) took for the last fetch, whatever the target
    update time is: that fetch's request stays the only one. *)
Theorem no_fetch_within_min_interval :
  forall wall_clock startWallTime w,
    let n := clockReads (host w) in
    (wall_clock (S (S n)) - wall_clock n < 3000)%Z ->
    mpdRequests
      (host (exec (onSeekRangeUpdate_ wall_clock startWallTime)
               (exec (onUpdate_ wall_clock) w))) =
      mpdRequests (host w) ++ [mpdUrl_ (self w)] /\
    mpdRequests
      (host (exec (onSeekRangeUpdate_ wall_clock startWallTime)
               (exec (load wall_clock) w))) =
      mpdRequests (host w) ++ [mpdUrl_ (self w)].
Proof.
  intros wall_clock startWallTime w n Hsoon. subst n.
  split.
  - rewrite onSeekRangeUpdate_requests. unfold exec. rewrite onUpdate_run. fields.
    rewrite cleared_clockReads, cleared_mpdRequests. cbn [Js.to_number].
    rewrite (seconds_below_interval _ _ Hsoon), andb_false_r, app_nil_r.
    reflexivity.
  - rewrite onSeekRangeUpdate_requests. unfold exec. rewrite load_run. fields.
    cbn [Js.to_number].
    rewrite (seconds_below_interval _ _ Hsoon), andb_false_r, app_nil_r.
    reflexivity.
Qed.

(** The seconds between two time values less than three seconds apart come
    out below [MIN_UPDATE_INTERVAL_] in binary64 too: each quotient is off
    by at most [2^-11], and the difference stays below the double before
    [3]. *)
Lemma rounded_seconds_below_interval a b :
  (0 <= a <= maxTimeValue)%Z ->
  (0 <= b <= maxTimeValue)%Z ->
  (a - b < 3000)%Z ->
  Js.ge (Binary64.sub (Binary64.div (inject_Z a) 1000)
                      (Binary64.div (inject_Z b) 1000))
        MIN_UPDATE_INTERVAL_ = false.
Proof.
  intros Ha Hb Hsoon. apply ge_false. unfold MIN_UPDATE_INTERVAL_, maxTimeValue in *.
  assert (Hquotient : forall t, (0 <= t <= 8640000000000000)%Z ->
             Qabs (Binary64.div (inject_Z t) 1000 - inject_Z t / 1000) <=
             Binary64.pow2 (-11)).
  { intros t Ht. unfold Binary64.div.
    apply (round_error_below (inject_Z t / 1000) 42); [| lia ].
    assert (H0 : 0 <= inject_Z t) by (change 0 with (inject_Z 0); rewrite <- Zle_Qle; lia).
    assert (H1 : inject_Z t <= inject_Z 8640000000000000) by (rewrite <- Zle_Qle; lia).
    rewrite Qabs_pos by (apply Qle_shift_div_l; [ reflexivity | lra ]).
    apply Qlt_shift_div_r; [ reflexivity |].
    apply Qle_lt_trans with (1 := H1). vm_compute. reflexivity. }
  pose proof (Hquotient a Ha) as Ea. pose proof (Hquotient b Hb) as Eb.
  apply Qabs_Qle_condition in Ea, Eb.
  assert (Hdiff : inject_Z a / 1000 - inject_Z b / 1000 <= 2999 # 1000).
  { assert (H0 : inject_Z (a - b) <= inject_Z 2999) by (rewrite <- Zle_Qle; lia).
    unfold Z.sub in H0. rewrite inject_Z_plus, inject_Z_opp in H0.
    change (inject_Z 2999) with 2999 in H0.
    set (x := inject_Z a) in *. set (y := inject_Z b) in *. clearbody x y.
    unfold Qdiv. change (/ 1000) with (1 # 1000). lra. }
  set (before3 := inject_Z (3 * 2 ^ 51 - 1) * Binary64.pow2 (-51)).
  assert (Hbefore : Binary64.round before3 == before3)
    by (apply round_representable; vm_compute; intros H; discriminate H).
  assert (Hlt : before3 < 3) by (vm_compute; reflexivity).
  assert (Hroom : (2999 # 1000) + 2 * Binary64.pow2 (-11) <= before3)
    by (vm_compute; intros H; discriminate H).
  set (A := Binary64.div (inject_Z a) 1000) in *.
  set (B := Binary64.div (inject_Z b) 1000) in *.
  assert (Hle : Binary64.sub A B <= Binary64.round before3).
  { apply round_monotone.
    set (qa := inject_Z a / 1000) in *. set (qb := inject_Z b / 1000) in *.
    set (e := Binary64.pow2 (-11)) in *.
    clearbody A B qa qb e before3. lra. }
  rewrite Hbefore in Hle. lra.
Qed.

(** The same in binary64, for clock readings that are time values of a
    [Date]: a fire of the seek range timer less than
    [MIN_UPDATE_INTERVAL_] seconds after the fetch sends no request. *)
Lemma binary64_no_fetch_before_min_interval wall_clock startWallTime w :
  let n := clockReads (host w) in
  (0 <= wall_clock n <= maxTimeValue)%Z ->
  (0 <= wall_clock (S (S n)) <= maxTimeValue)%Z ->
  (wall_clock (S (S n)) - wall_clock n < 3000)%Z ->
  mpdRequests
    (host (exec (Rounded.onSeekRangeUpdate_ wall_clock startWallTime)
             (exec (Rounded.onUpdate_ wall_clock) w))) =
    mpdRequests (host w) ++ [mpdUrl_ (self w)].
Proof.
  intros n Hfetch Hfire Hsoon. subst n.
  rewrite rounded_onSeekRangeUpdate_requests. unfold exec.
  rewrite rounded_onUpdate_run. fields.
  rewrite cleared_clockReads, cleared_mpdRequests. cbn [Js.to_number].
  rewrite (rounded_seconds_below_interval _ _ Hfire Hfetch Hsoon), andb_false_r,
    app_nil_r.
  reflexivity.
Qed.

(** ** One pending timer per role *)

Section Owned.

Implicit Types (ut srt : option positive) (tm : gmap positive (Callback * Q)).

Lemma owned_cancel_update ut srt nx tm :
  map_Forall (ownedBy ut srt nx) tm ->
  map_Forall (ownedBy None srt nx)
    (match ut with Some h => delete h tm | None => tm end).
Proof.
  intros H h [callback ms] Hh.
  assert (Hin : tm !! h = Some (callback, ms) /\ ut <> Some h).
  { destruct ut as [h0 |].
    - apply lookup_delete_Some in Hh as [Hne Hh]. split; [ exact Hh | congruence ].
    - split; [ exact Hh | discriminate ]. }
  destruct Hin as [Hin Hne]. destruct (H h _ Hin) as [Hlt Hrole].
  split; [ exact Hlt |]. cbn in *. destruct callback; [ contradiction | exact Hrole ].
Qed.

Lemma owned_cancel_seek ut srt nx tm :
  map_Forall (ownedBy ut srt nx) tm ->
  map_Forall (ownedBy ut None nx)
    (match srt with Some h => delete h tm | None => tm end).
Proof.
  intros H h [callback ms] Hh.
  assert (Hin : tm !! h = Some (callback, ms) /\ srt <> Some h).
  { destruct srt as [h0 |].
    - apply lookup_delete_Some in Hh as [Hne Hh]. split; [ exact Hh | congruence ].
    - split; [ exact Hh | discriminate ]. }
  destruct Hin as [Hin Hne]. destruct (H h _ Hin) as [Hlt Hrole].
  split; [ exact Hlt |]. cbn in *. destruct callback; [ exact Hrole | contradiction ].
Qed.

Lemma owned_set_update srt nx tm ms :
  map_Forall (ownedBy None srt nx) tm ->
  map_Forall (ownedBy (Some nx) srt (Pos.succ nx)) (<[nx := (OnUpdate, ms)]> tm).
Proof.
  intros H h [callback ms'] Hh.
  apply lookup_insert_Some in Hh as [[<- Heq] | [Hne Hh]].
  - injection Heq as <- <-. split; [ lia | reflexivity ].
  - destruct (H h _ Hh) as [Hlt Hrole]. split; [ lia |].
    cbn in *. destruct callback; [ discriminate | exact Hrole ].
Qed.

Lemma owned_set_seek ut nx tm now ms :
  map_Forall (ownedBy ut None nx) tm ->
  map_Forall (ownedBy ut (Some nx) (Pos.succ nx))
    (<[nx := (OnSeekRangeUpdate now, ms)]> tm).
Proof.
  intros H h [callback ms'] Hh.
  apply lookup_insert_Some in Hh as [[<- Heq] | [Hne Hh]].
  - injection Heq as <- <-. split; [ lia | reflexivity ].
  - destruct (H h _ Hh) as [Hlt Hrole]. split; [ lia |].
    cbn in *. destruct callback; [ exact Hrole | discriminate ].
Qed.

Lemma owned_none_empty nx tm :
  map_Forall (ownedBy None None nx) tm -> tm = ∅.
Proof.
  intros H. apply map_empty. intros h.
  destruct (tm !! h) as [[callback ms] |] eqn:Hh; [| reflexivity ].
  destruct (H h _ Hh) as [_ Hrole]. cbn in Hrole. destruct callback; discriminate.
Qed.

Lemma owned_unique ut srt nx tm h1 h2 t1 t2 :
  map_Forall (ownedBy ut srt nx) tm ->
  tm !! h1 = Some t1 -> tm !! h2 = Some t2 ->
  match fst t1, fst t2 with
  | OnUpdate, OnUpdate => h1 = h2
  | OnSeekRangeUpdate _, OnSeekRangeUpdate _ => h1 = h2
  | _, _ => True
  end.
Proof.
  intros H H1 H2.
  destruct (H h1 _ H1) as [_ R1]. destruct (H h2 _ H2) as [_ R2].
  destruct (fst t1), (fst t2); try exact I; congruence.
Qed.

End Owned.

Lemma cleared_timers_eq handle b :
  timers (cleared handle b) =
  match handle with Some h => delete h (timers b) | None => timers b end.
Proof. destruct handle; reflexivity. Qed.

Lemma advance_timer_fields offset d :
  updateTimer_ (advance offset d) = updateTimer_ d /\
  seekRangeUpdateTimer_ (advance offset d) = seekRangeUpdateTimer_ d.
Proof. unfold advance. destruct (Js.gt _ _); split; reflexivity. Qed.

Lemma timersOwned_onUpdate_ wall_clock w :
  timersOwned w ->
  timersOwned (exec (onUpdate_ wall_clock) w) /\
  updateTimer_ (self (exec (onUpdate_ wall_clock) w)) = None.
Proof.
  unfold timersOwned, exec. rewrite onUpdate_run. fields.
  rewrite cleared_timers_eq, cleared_nextTimer. intros H.
  split; [ apply owned_cancel_update, H | reflexivity ].
Qed.

Lemma timersOwned_destroy w :
  timersOwned w -> timersOwned (exec destroy w).
Proof.
  unfold timersOwned, exec. rewrite destroy_run. fields.
  rewrite !cleared_timers_eq, !cleared_nextTimer. intros H.
  apply owned_cancel_seek, owned_cancel_update, H.
Qed.

Lemma timersOwned_setUpdateTimer_ minUpdatePeriod w :
  timersOwned w -> updateTimer_ (self w) = None ->
  timersOwned (exec (setUpdateTimer_ minUpdatePeriod) w).
Proof.
  unfold timersOwned, exec. rewrite setUpdateTimer_run. fields.
  intros H Hnone. rewrite Hnone in H. apply owned_set_update, H.
Qed.

Lemma timersOwned_onUpdate_then process mpd w :
  timersOwned w -> updateTimer_ (self w) = None ->
  timersOwned (exec (onUpdate_then process mpd) w).
Proof.
  unfold timersOwned, exec. rewrite onUpdate_then_run. fields.
  intros H Hnone. rewrite Hnone in H. apply owned_set_update, H.
Qed.

Lemma timersOwned_notify_and_arm wall_clock w :
  timersOwned w -> seekRangeUpdateTimer_ (self w) = None ->
  timersOwned (exec (setSeekRangeUpdateTimer_ wall_clock)
                 (exec fireSeekRangeChangedEvent_ w)).
Proof.
  unfold timersOwned, exec.
  rewrite fireSeekRangeChangedEvent_run, setSeekRangeUpdateTimer_run. fields.
  intros H Hnone. rewrite Hnone in H. apply owned_set_seek, H.
Qed.

Lemma timersOwned_onSeekRangeUpdate_ wall_clock startWallTime w :
  timersOwned w ->
  timersOwned (exec (onSeekRangeUpdate_ wall_clock startWallTime) w).
Proof.
  intros H. unfold exec at 1. rewrite onSeekRangeUpdate_run. cbv zeta. cbn [snd].
  set (d2 := advance _ _).
  assert (Hd2 : updateTimer_ d2 = updateTimer_ (self w) /\
                seekRangeUpdateTimer_ d2 = None).
  { subst d2. destruct (advance_timer_fields
                          (inject_Z
                             (wall_clock
                                (clockReads
                                   (cleared (seekRangeUpdateTimer_ (self w)) (host w)))
                              - startWallTime) / 1000)
                          (set_seekRangeUpdateTimer_ None (self w))) as [-> ->].
    split; reflexivity. }
  destruct Hd2 as [Hut Hsrt].
  assert (Hbase : forall k,
            timersOwned
              (mkWorld d2
                 (set_clockReads k (cleared (seekRangeUpdateTimer_ (self w)) (host w))))).
  { intros k. unfold timersOwned. fields.
    rewrite Hut, Hsrt, cleared_timers_eq, cleared_nextTimer.
    apply owned_cancel_seek, H. }
  apply timersOwned_notify_and_arm.
  - destruct (Js.truthy _ && _); [ destruct (Js.ge _ MIN_UPDATE_INTERVAL_) |].
    + apply timersOwned_onUpdate_, Hbase.
    + apply Hbase.
    + apply Hbase.
  - destruct (Js.truthy _ && _); [ destruct (Js.ge _ MIN_UPDATE_INTERVAL_) |];
      try exact Hsrt.
    unfold exec. rewrite onUpdate_run. fields. exact Hsrt.
Qed.

Lemma timersOwned_timer_fires wall_clock handle w :
  timersOwned w -> timersOwned (exec (timer_fires wall_clock handle) w).
Proof.
  intros H. unfold exec.
  destruct (timers (host w) !! handle) as [[callback ms] |] eqn:Hh.
  - rewrite (timer_fires_run _ _ _ _ _ Hh).
    assert (H' : timersOwned
                   (mkWorld (self w)
                      (set_timers (delete handle (timers (host w))) (host w)))).
    { unfold timersOwned. fields. apply map_Forall_delete, H. }
    destruct callback; cbn [run].
    + apply timersOwned_onUpdate_, H'.
    + apply timersOwned_onSeekRangeUpdate_, H'.
  - rewrite (timer_fires_idle _ _ _ Hh). exact H.
Qed.

(** ** [onStartStreams] *)

Lemma onStartStreams_run wall_clock computeStreamLimits w m streamLimits :
  manifestInfo (self w) = Some m ->
  computeStreamLimits (Some m) = Some streamLimits ->
  onStartStreams wall_clock computeStreamLimits w =
    (Normal tt,
     let seekStart :=
       if live m then
         Js.Math_max (limitsEnd streamLimits - timeShiftBufferDepth_ (self w))
                     (limitsStart streamLimits)
       else limitsStart streamLimits in
     let d1 :=
       set_targetUpdateTime_ (targetUpdateTime m)
         (set_seekEndTime_ (limitsEnd streamLimits)
            (set_seekStartTime_ seekStart (self w))) in
     let w1 := exec fireSeekRangeChangedEvent_ (mkWorld d1 (host w)) in
     if live m then exec (setSeekRangeUpdateTimer_ wall_clock) w1 else w1).
Proof.
  intros Hm Hlimits. cbv zeta.
  unfold onStartStreams. step. rewrite Hm, Hlimits.
  erewrite bind_normal by (apply this_manifestInfo_run; exact Hm).
  destruct (live m) eqn:Hlive.
  - do 2 step.
    erewrite bind_normal by (apply setTargetUpdateTime_run; exact Hm).
    step_with fireSeekRangeChangedEvent_run.
    erewrite bind_normal by (apply this_manifestInfo_run; exact Hm).
    rewrite Hlive, setSeekRangeUpdateTimer_run. reflexivity.
  - do 2 step.
    erewrite bind_normal by (apply setTargetUpdateTime_run; exact Hm).
    step_with fireSeekRangeChangedEvent_run.
    erewrite bind_normal by (apply this_manifestInfo_run; exact Hm).
    rewrite Hlive. reflexivity.
Qed.

Lemma onStartStreams_no_limits wall_clock computeStreamLimits w :
  computeStreamLimits (manifestInfo (self w)) = None ->
  onStartStreams wall_clock computeStreamLimits w = (Normal tt, w).
Proof. intros H. unfold onStartStreams. step. rewrite H. reflexivity. Qed.

Lemma onStartStreams_no_manifest wall_clock computeStreamLimits w streamLimits :
  manifestInfo (self w) = None ->
  computeStreamLimits None = Some streamLimits ->
  onStartStreams wall_clock computeStreamLimits w = (Throw Js.TypeError, w).
Proof.
  intros Hm Hlimits. unfold onStartStreams. step. rewrite Hm, Hlimits.
  unfold bind, this_manifestInfo, bind, this. rewrite Hm. reflexivity.
Qed.

(** X11: Without stream limits [onStartStreams] returns at once and changes
    nothing: no seek range, no target update time, no event, no timer.  With
    stream limits but no manifest it raises a TypeError before it has
    assigned anything. *)
Theorem onStartStreams_without_limits_or_manifest :
  forall wall_clock computeStreamLimits w,
    (computeStreamLimits (manifestInfo (self w)) = None ->
     onStartStreams wall_clock computeStreamLimits w = (Normal tt, w)) /\
    (manifestInfo (self w) = None ->
     computeStreamLimits None <> None ->
     onStartStreams wall_clock computeStreamLimits w = (Throw Js.TypeError, w)).
Proof.
  intros wall_clock computeStreamLimits w. split.
  - apply onStartStreams_no_limits.
  - intros Hm Hlimits.
    destruct (computeStreamLimits None) as [streamLimits |] eqn:E; [| congruence ].
    apply (onStartStreams_no_manifest _ _ _ streamLimits Hm E).
Qed.

(** X12: With a manifest and stream limits, [onStartStreams] completes, ends the
    seek range at the streams' end, stores the target update time of the
    manifest and dispatches exactly one event, which carries the seek range
    it has set.  For a stream that is not live the seek range is the stream
    limits themselves, and no timer is set and the clock is not read; for a
    live stream the seek range timer is set for 1000 ms. *)
Theorem onStartStreams_sets_range_and_notifies :
  forall wall_clock computeStreamLimits w m streamLimits,
    manifestInfo (self w) = Some m ->
    computeStreamLimits (Some m) = Some streamLimits ->
    let w' := exec (onStartStreams wall_clock computeStreamLimits) w in
    completes (onStartStreams wall_clock computeStreamLimits) w = true /\
    seekEndTime_ (self w') = limitsEnd streamLimits /\
    targetUpdateTime_ (self w') = targetUpdateTime m /\
    dispatched (host w') = dispatched (host w) ++ [seekRange (self w')] /\
    (live m = false ->
     seekStartTime_ (self w') = limitsStart streamLimits /\
     seekRangeUpdateTimer_ (self w') = seekRangeUpdateTimer_ (self w) /\
     timers (host w') = timers (host w) /\
     clockReads (host w') = clockReads (host w)) /\
    (live m = true ->
     seekRangeUpdateTimer_ (self w') = Some (nextTimer (host w)) /\
     timers (host w') !! nextTimer (host w) =
       Some (OnSeekRangeUpdate (wall_clock (clockReads (host w))), 1000)).
Proof.
  intros wall_clock computeStreamLimits w m streamLimits Hm Hlimits. cbv zeta.
  unfold completes, exec at 1 2 3 4 5 6 7 8 9 10.
  rewrite (onStartStreams_run _ _ _ _ _ Hm Hlimits). cbv zeta. cbn [fst snd].
  destruct (live m); unfold exec;
    rewrite fireSeekRangeChangedEvent_run, ?setSeekRangeUpdateTimer_run; fields.
  - split; [ reflexivity |]. split; [ reflexivity |]. split; [ reflexivity |].
    split; [ reflexivity |]. split; [ discriminate |].
    intros _. split; [ reflexivity | apply lookup_insert_eq ].
  - split; [ reflexivity |]. split; [ reflexivity |]. split; [ reflexivity |].
    split; [ reflexivity |]. split; [| discriminate ].
    intros _. repeat split; reflexivity.
Qed.

Lemma timersOwned_frame w w' :
  updateTimer_ (self w') = updateTimer_ (self w) ->
  seekRangeUpdateTimer_ (self w') = seekRangeUpdateTimer_ (self w) ->
  timers (host w') = timers (host w) ->
  nextTimer (host w') = nextTimer (host w) ->
  timersOwned w -> timersOwned w'.
Proof. unfold timersOwned. intros -> -> -> ->. exact id. Qed.

Lemma timersOwned_onSeeking w : timersOwned w -> timersOwned (exec onSeeking w).
Proof.
  unfold exec. rewrite onSeeking_run. cbv zeta. cbn [snd].
  destruct (Js.ge _ _ && _); [| destruct (Js.lt _ _) ];
    apply timersOwned_frame; reflexivity.
Qed.

Lemma timersOwned_onStartStreams wall_clock computeStreamLimits w :
  timersOwned w -> seekRangeUpdateTimer_ (self w) = None ->
  timersOwned (exec (onStartStreams wall_clock computeStreamLimits) w).
Proof.
  intros H Hnone. unfold exec.
  destruct (computeStreamLimits (manifestInfo (self w))) as [streamLimits |] eqn:Hlimits.
  - destruct (manifestInfo (self w)) as [m |] eqn:Hm.
    + rewrite (onStartStreams_run _ _ _ _ _ Hm Hlimits). cbv zeta. cbn [snd].
      destruct (live m).
      * apply timersOwned_notify_and_arm; [| exact Hnone ].
        revert H. apply timersOwned_frame; reflexivity.
      * revert H. apply timersOwned_frame; reflexivity.
    + rewrite (onStartStreams_no_manifest _ _ _ _ Hm Hlimits). exact H.
  - rewrite (onStartStreams_no_limits _ _ _ Hlimits). exact H.
Qed.

(** X7: The code keeps at most one pending timer per role, each held by its
    field: this holds when no timer is pending, and [load], [onSeeking],
    [onUpdate_], [onSeekRangeUpdate_], any timer that fires, [destroy] and a
    rejected request keep it; a fulfilled request (and [load]'s own timer)
    keeps it when no update timer is set at that moment, and [onStartStreams]
    when no seek range timer is. *)
Theorem timers_stay_owned :
  forall wall_clock process computeStreamLimits w,
    (timers (host w) = ∅ -> timersOwned w) /\
    (timersOwned w ->
     (forall h1 h2 t1 t2,
         timers (host w) !! h1 = Some t1 -> timers (host w) !! h2 = Some t2 ->
         match fst t1, fst t2 with
         | OnUpdate, OnUpdate => h1 = h2
         | OnSeekRangeUpdate _, OnSeekRangeUpdate _ => h1 = h2
         | _, _ => True
         end) /\
     timersOwned (exec (load wall_clock) w) /\
     timersOwned (exec onSeeking w) /\
     timersOwned (exec (onUpdate_ wall_clock) w) /\
     (forall startWallTime,
         timersOwned (exec (onSeekRangeUpdate_ wall_clock startWallTime) w)) /\
     (forall handle, timersOwned (exec (timer_fires wall_clock handle) w)) /\
     timersOwned (exec destroy w) /\
     (forall reason, timersOwned (exec (onUpdate_settled process (Rejected reason)) w)) /\
     (updateTimer_ (self w) = None ->
      forall mpd,
        timersOwned (exec (onUpdate_settled process (Fulfilled mpd)) w) /\
        timersOwned (exec (load_then_then mpd) w)) /\
     (seekRangeUpdateTimer_ (self w) = None ->
      timersOwned (exec (onStartStreams wall_clock computeStreamLimits) w))).
Proof.
  intros wall_clock process computeStreamLimits w. split.
  - intros Hempty. unfold timersOwned. rewrite Hempty. apply map_Forall_empty.
  - intros H.
    split; [ intros h1 h2 t1 t2; apply (owned_unique _ _ _ _ _ _ _ _ H) |].
    split; [ revert H; apply timersOwned_frame; reflexivity |].
    split; [ apply timersOwned_onSeeking, H |].
    split; [ apply timersOwned_onUpdate_, H |].
    split; [ intros t0; apply timersOwned_onSeekRangeUpdate_, H |].
    split; [ intros h; apply timersOwned_timer_fires, H |].
    split; [ apply timersOwned_destroy, H |].
    split; [ intros reason; exact H |].
    split.
    + intros Hnone mpd. split.
      * apply timersOwned_onUpdate_then; assumption.
      * apply timersOwned_setUpdateTimer_; assumption.
    + intros Hnone. apply timersOwned_onStartStreams; assumption.
Qed.

(** ** Teardown and overlapping refreshes *)

(** X8: When every pending timer is held by its field, [destroy] leaves no timer
    pending at all, so nothing the object has scheduled can fire after it. *)
Theorem destroy_leaves_nothing_pending :
  forall wall_clock w,
    timersOwned w ->
    let w' := exec destroy w in
    timers (host w') = ∅ /\
    (forall handle, timer_fires wall_clock handle w' = (Normal tt, w')).
Proof.
  intros wall_clock w H w'.
  assert (Hempty : timers (host w') = ∅).
  { subst w'. unfold exec. rewrite destroy_run. fields.
    rewrite !cleared_timers_eq. eapply owned_none_empty.
    apply owned_cancel_seek, owned_cancel_update, H. }
  split; [ exact Hempty |].
  intros handle. apply timer_fires_idle. rewrite Hempty. apply lookup_empty.
Qed.

(** X9: [onUpdate_]'s continuation sets the update timer without cancelling the
    one that is set: if a request is fulfilled while an update timer is
    pending (two refreshes overlapped), the field moves on to the new handle,
    the earlier timer stays pending, and [destroy] no longer cancels it. *)
Theorem overlapping_refresh_orphans_timer :
  forall process mpd w handle timer,
    updateTimer_ (self w) = Some handle ->
    timers (host w) !! handle = Some timer ->
    (handle < nextTimer (host w))%positive ->
    seekRangeUpdateTimer_ (self w) <> Some handle ->
    let w1 := exec (onUpdate_then process mpd) w in
    let w2 := exec destroy w1 in
    updateTimer_ (self w1) = Some (nextTimer (host w)) /\
    timers (host w1) !! handle = Some timer /\
    updateTimer_ (self w2) = None /\
    timers (host w2) !! handle = Some timer.
Proof.
  intros process mpd w handle timer Hfield Hpending Hlt Hseek. cbv zeta.
  unfold exec. rewrite destroy_run, onUpdate_then_run. fields.
  assert (Hne : nextTimer (host w) <> handle) by lia.
  split; [ reflexivity |].
  split; [ rewrite lookup_insert_ne by exact Hne; exact Hpending |].
  split; [ reflexivity |].
  rewrite !cleared_timers_eq. fields.
  destruct (seekRangeUpdateTimer_ (self w)) as [h' |].
  - rewrite lookup_delete_ne by congruence.
    rewrite lookup_delete_ne by exact Hne.
    rewrite lookup_insert_ne by exact Hne. exact Hpending.
  - rewrite lookup_delete_ne by exact Hne.
    rewrite lookup_insert_ne by exact Hne. exact Hpending.
Qed.

(** X10: The update timer is one-shot: when it fires, [onUpdate_] sends one
    request for the MPD URL and records the clock reading as the fetch time,
    leaves the seek range alone, and sets no update timer; none is pending
    until a request is fulfilled. *)
Theorem update_timer_is_one_shot :
  forall wall_clock w handle ms,
    timersOwned w ->
    timers (host w) !! handle = Some (OnUpdate, ms) ->
    let w' := exec (timer_fires wall_clock handle) w in
    mpdRequests (host w') = mpdRequests (host w) ++ [mpdUrl_ (self w)] /\
    lastMpdFetchTime_ (self w') =
      Some (inject_Z (wall_clock (clockReads (host w))) / 1000) /\
    seekRange (self w') = seekRange (self w) /\
    updateTimer_ (self w') = None /\
    (forall h ms', timers (host w') !! h <> Some (OnUpdate, ms')).
Proof.
  intros wall_clock w handle ms H Hpending w'.
  assert (Hw' : w' = exec (onUpdate_ wall_clock)
                       (mkWorld (self w)
                          (set_timers (delete handle (timers (host w))) (host w)))).
  { subst w'. unfold exec. rewrite (timer_fires_run _ _ _ _ _ Hpending).
    reflexivity. }
  assert (Howned : timersOwned w').
  { rewrite Hw'. apply timersOwned_onUpdate_. unfold timersOwned. fields.
    apply map_Forall_delete, H. }
  assert (Hfield : updateTimer_ (self w') = None).
  { rewrite Hw'. unfold exec. rewrite onUpdate_run. reflexivity. }
  split; [| split; [| split; [| split ]]].
  - rewrite Hw'. unfold exec. rewrite onUpdate_run. fields.
    rewrite cleared_mpdRequests. reflexivity.
  - rewrite Hw'. unfold exec. rewrite onUpdate_run. fields.
    rewrite cleared_clockReads. reflexivity.
  - rewrite Hw'. unfold exec. rewrite onUpdate_run. reflexivity.
  - exact Hfield.
  - intros h ms' Hh. destruct (Howned h _ Hh) as [_ Hrole].
    cbn in Hrole. congruence.
Qed.

(** ** Seeking settles *)

(** X13: Whatever time the video reports, after [onSeeking] its current time
    lies within the bounds the code computes for the seek window (of
    doubles, with [start <= end]), and [onSeeking] has not touched the seek
    range.  So the 'seeking' event that a clamp raises is accepted if the
    seek range is still the same when the event is delivered.  A fire of the
    seek range timer in between can move the window past the clamped time:
    on [5, 100] under a depth of 40, a seek to 4 is clamped to 5, and after
    an update by one second the seek to 5 is clamped to 6. *)
Theorem clamped_seek_is_then_accepted :
  forall w t,
    Binary64.isDouble (seekStartTime_ (self w)) ->
    Binary64.isDouble (seekEndTime_ (self w)) ->
    seekStartTime_ (self w) <= seekEndTime_ (self w) ->
    let w' := Rounded.seekTo t w in
    let t' := videoCurrentTime (host w') in
    let tolerance := Binary64.number 0.01 in
    (Binary64.sub (seekStartTime_ (self w)) tolerance <= t' /\
     t' <= Binary64.add (seekEndTime_ (self w)) tolerance) /\
    seekRange (self w') = seekRange (self w) /\
    Rounded.validate w' t' = Accepted /\
    videoCurrentTime (host (Rounded.seekTo t' w')) = t' /\
    (let w0 := worldWith (Some (manifestOf [])) 40 5 100 in
     let w1 := Rounded.seekTo 4 w0 in
     let w2 := mkWorld (Rounded.advance 1 (self w1)) (host w1) in
     Rounded.validate w0 4 = Clamped 5 /\
     exists clampedTime,
       Rounded.validate w2 5 = Clamped clampedTime /\ clampedTime == 6).
Proof.
  intros w t Hstart Hend Horder. cbv zeta.
  destruct (tolerance_encloses _ _ Hstart Hend) as (Hlow0 & Hhigh0).
  assert (Hsettled : forall w0 t0,
             Binary64.sub (seekStartTime_ (self w0)) (Binary64.number 0.01) <= t0 ->
             t0 <= Binary64.add (seekEndTime_ (self w0)) (Binary64.number 0.01) ->
             Rounded.validate w0 t0 = Accepted /\
             videoCurrentTime (host (Rounded.seekTo t0 w0)) = t0).
  { intros w0 t0 Hlow Hhigh. unfold Rounded.validate.
    rewrite (rounded_seekTo_accepted w0 t0 Hlow Hhigh). fields.
    rewrite Nat.eqb_refl. split; reflexivity. }
  assert (Hexample :
            let w0 := worldWith (Some (manifestOf [])) 40 5 100 in
            let w1 := Rounded.seekTo 4 w0 in
            let w2 := mkWorld (Rounded.advance 1 (self w1)) (host w1) in
            Rounded.validate w0 4 = Clamped 5 /\
            exists clampedTime,
              Rounded.validate w2 5 = Clamped clampedTime /\ clampedTime == 6).
  { cbv zeta. split; [ vm_compute; reflexivity |].
    eexists. split; [ vm_compute; reflexivity | vm_compute; reflexivity ]. }
  destruct (Qlt_le_dec t (Binary64.sub (seekStartTime_ (self w)) (Binary64.number 0.01)))
    as [Hbelow | Hlow].
  - rewrite (rounded_seekTo_below w t Hstart Hbelow). fields.
    split; [ split; lra |]. split; [ reflexivity |].
    destruct (Hsettled (mkWorld (self w)
                          (set_videoCurrentTime (seekStartTime_ (self w)) (host w)))
                (seekStartTime_ (self w))) as (Hv & Ht); fields; try lra.
    split; [ exact Hv |]. split; [ exact Ht | exact Hexample ].
  - destruct (Qlt_le_dec (Binary64.add (seekEndTime_ (self w)) (Binary64.number 0.01)) t)
      as [Habove | Hhigh].
    + rewrite (rounded_seekTo_above w t Hend Horder Habove). fields.
      split; [ split; lra |]. split; [ reflexivity |].
      destruct (Hsettled (mkWorld (self w)
                            (set_videoCurrentTime (seekEndTime_ (self w)) (host w)))
                  (seekEndTime_ (self w))) as (Hv & Ht); fields; try lra.
      split; [ exact Hv |]. split; [ exact Ht | exact Hexample ].
    + rewrite (rounded_seekTo_accepted w t Hlow Hhigh). fields.
      split; [ split; assumption |]. split; [ reflexivity |].
      destruct (Hsettled (mkWorld
                            (set_streamResyncs (S (streamResyncs (self w))) (self w))
                            (set_videoCurrentTime t (host w))) t)
        as (Hv & Ht); fields; try assumption.
      split; [ exact Hv |]. split; [ exact Ht | exact Hexample ].
Qed.

(** ** The target update time and the streams *)

(** X14: The target update time depends only on which streams the manifest has,
    not on their order or on how periods and stream sets group them, and
    more streams never lower it: if every stream of one manifest is a stream
    of another and the first has a target update time, the second has one
    that is at least as late. *)
Theorem targetUpdateTime_monotone_in_streams :
  forall m1 m2 t1,
    (forall s, s ∈ allStreamInfos m1 -> s ∈ allStreamInfos m2) ->
    targetUpdateTime m1 = Some t1 ->
    exists t2, targetUpdateTime m2 = Some t2 /\ t1 <= t2.
Proof.
  intros m1 m2 t1 Hsub Ht1.
  pose proof (targetUpdateTime_cases m1) as Hc1.
  pose proof (targetUpdateTime_cases m2) as Hc2.
  pose proof (fold_Math_max (omap referenceStart (allStreamInfos m1)) 0) as Hf1.
  pose proof (fold_Math_max (omap referenceStart (allStreamInfos m2)) 0) as Hf2.
  cbv zeta in Hc1, Hc2, Hf1, Hf2.
  set (A1 := fold_left Js.Math_max (omap referenceStart (allStreamInfos m1)) 0) in *.
  set (A2 := fold_left Js.Math_max (omap referenceStart (allStreamInfos m2)) 0) in *.
  destruct Hc1 as [[HA1 Heq1] | [_ Heq1]]; [| congruence ].
  rewrite Heq1 in Ht1. injection Ht1 as <-.
  destruct Hf1 as (_ & _ & [Hzero | Hin]); [ rewrite Hzero in HA1; lra |].
  apply list_elem_of_omap in Hin as (s & Hs & Hstart).
  assert (Hin2 : A1 ∈ omap referenceStart (allStreamInfos m2)).
  { apply list_elem_of_omap. exists s. split; [ apply Hsub, Hs | exact Hstart ]. }
  destruct Hf2 as (_ & Hub & _). specialize (Hub A1 Hin2).
  destruct Hc2 as [[HA2 Heq2] | [HA2 _]]; [| lra ].
  exists (A2 - 2). split; [ exact Heq2 | lra ].
Qed.

(** ** The depth of the time shift buffer *)

Lemma load_then_run process mpd w :
  let m := process (interpretContentProtection_ (self w)) mpd in
  load_then process mpd w =
    (Normal (live m),
     mkWorld
       (set_manifestInfo (Some m)
          (set_timeShiftBufferDepth_ (Js.or_zero (timeShiftBufferDepth mpd)) (self w)))
       (host w)).
Proof. reflexivity. Qed.

(** A window of no width under a depth of 0 stays one. *)
Lemma rounded_advance_point offset d :
  0 <= offset ->
  Binary64.isDouble offset ->
  Binary64.isDouble (seekEndTime_ d) ->
  timeShiftBufferDepth_ d = 0 ->
  seekStartTime_ d == seekEndTime_ d ->
  let d' := Rounded.advance offset d in
  Binary64.isDouble (seekEndTime_ d') /\
  timeShiftBufferDepth_ d' = 0 /\
  seekStartTime_ d' == seekEndTime_ d' /\
  seekEndTime_ d <= seekEndTime_ d'.
Proof.
  intros Hoffset Hdouble Hend Hdepth Hpoint d'. subst d'.
  rewrite rounded_advance_timeShiftBufferDepth_, rounded_advance_seekEndTime_.
  split; [ apply add_isDouble |]. split; [ exact Hdepth |].
  split; [| apply add_nonneg_r; assumption ].
  assert (Hguard :
            Binary64.add (Binary64.sub (seekEndTime_ d) (seekStartTime_ d)) offset ==
            offset).
  { unfold Binary64.add, Binary64.sub.
    assert (H0 : seekEndTime_ d - seekStartTime_ d == 0) by lra.
    rewrite H0. change (Binary64.round 0) with 0.
    assert (H1 : 0 + offset == offset) by ring. rewrite H1. exact Hdouble. }
  destruct (rounded_advance_cases offset d) as [[_ ->] | [Hle ->]].
  - unfold Binary64.add. rewrite Hpoint. reflexivity.
  - cbv zeta in Hle. rewrite Hguard, Hdepth in Hle.
    assert (H0 : offset == 0) by lra.
    unfold Binary64.add. rewrite H0.
    assert (H1 : seekEndTime_ d + 0 == seekEndTime_ d) by ring.
    unfold Binary64.isDouble in Hend. rewrite H1, Hend. exact Hpoint.
Qed.

Lemma rounded_advances_point elapsed :
  forall d,
    Forall (fun offset => 0 <= offset /\ Binary64.isDouble offset) elapsed ->
    Binary64.isDouble (seekEndTime_ d) ->
    timeShiftBufferDepth_ d = 0 ->
    seekStartTime_ d == seekEndTime_ d ->
    let d' := Rounded.advances elapsed d in
    seekStartTime_ d' == seekEndTime_ d' /\ seekEndTime_ d <= seekEndTime_ d'.
Proof.
  induction elapsed as [| offset elapsed IH]; intros d Hall Hend Hdepth Hpoint.
  - cbn. split; [ exact Hpoint | lra ].
  - inversion Hall as [| ? ? [Hoffset Hdouble] Hrest]; subst.
    destruct (rounded_advance_point offset d Hoffset Hdouble Hend Hdepth Hpoint)
      as (H1 & H2 & H3 & H4).
    destruct (IH (Rounded.advance offset d) Hrest H1 H2 H3) as (I1 & I2).
    rewrite rounded_advances_cons. cbv zeta. split; [ exact I1 | lra ].
Qed.

(** X15: An MPD without a [timeShiftBufferDepth] (or with 0) gives a live
    stream a seek range of no width: [load]'s continuation stores a depth of
    0, [onStartStreams] sets both ends to the streams' end, and after every
    later update (by the non-negative doubles the timer computes) the seek
    start still equals the seek end, which has not moved backwards. *)
Theorem missing_depth_gives_point_window :
  forall wall_clock process computeStreamLimits w mpd streamLimits elapsed,
    let m := process (interpretContentProtection_ (self w)) mpd in
    Js.truthy (timeShiftBufferDepth mpd) = false ->
    live m = true ->
    computeStreamLimits (Some m) = Some streamLimits ->
    Binary64.isDouble (limitsEnd streamLimits) ->
    limitsStart streamLimits <= limitsEnd streamLimits ->
    Forall (fun offset => 0 <= offset /\ Binary64.isDouble offset) elapsed ->
    let w1 := exec (load_then process mpd) w in
    let w2 := exec (Rounded.onStartStreams wall_clock computeStreamLimits) w1 in
    let d := Rounded.advances elapsed (self w2) in
    timeShiftBufferDepth_ (self w2) = 0 /\
    (seekStartTime_ (self w2) == limitsEnd streamLimits /\
     seekEndTime_ (self w2) = limitsEnd streamLimits) /\
    seekStartTime_ d == seekEndTime_ d /\
    limitsEnd streamLimits <= seekEndTime_ d.
Proof.
  intros wall_clock process computeStreamLimits w mpd streamLimits elapsed m
         Hfalsy Hlive Hlimits Hdend Hrange Helapsed w1 w2 d.
  assert (Hm : manifestInfo (self w1) = Some m) by reflexivity.
  assert (Hdepth1 : timeShiftBufferDepth_ (self w1) = 0).
  { subst w1. unfold exec. rewrite load_then_run. fields.
    unfold Js.or_zero. rewrite Hfalsy. reflexivity. }
  destruct (rounded_onStartStreams_window wall_clock computeStreamLimits w1 m
              streamLimits Hm Hlive Hlimits) as (Hstart & Hend & Hdepth).
  fold w2 in Hstart, Hend, Hdepth. rewrite Hdepth1 in Hstart, Hdepth.
  assert (Hsub : Binary64.sub (limitsEnd streamLimits) 0 == limitsEnd streamLimits).
  { unfold Binary64.sub.
    assert (H : limitsEnd streamLimits - 0 == limitsEnd streamLimits) by ring.
    rewrite H. exact Hdend. }
  assert (Hpoint : seekStartTime_ (self w2) == seekEndTime_ (self w2)).
  { rewrite Hstart, Hend.
    destruct (Math_max_cases (Binary64.sub (limitsEnd streamLimits) 0)
                (limitsStart streamLimits)) as [[H ->] | [H ->]]; lra. }
  assert (Hdend2 : Binary64.isDouble (seekEndTime_ (self w2)))
    by (rewrite Hend; exact Hdend).
  destruct (rounded_advances_point elapsed (self w2) Helapsed Hdend2 Hdepth Hpoint)
    as (H1 & H2).
  fold d in H1, H2. rewrite Hend in H2.
  split; [ exact Hdepth |].
  split; [ split; [ rewrite Hpoint, Hend; reflexivity | exact Hend ] |].
  split; assumption.
Qed.

(** No update narrows a window of doubles by more than the rounding of its
    two sums. *)
Lemma rounded_advance_never_cuts offset d :
  0 <= offset ->
  Binary64.isDouble (seekEndTime_ d) ->
  seekWindow d -
    (Binary64.maxError (seekStartTime_ d + offset) +
     Binary64.maxError (seekEndTime_ d + offset)) <=
  seekWindow (Rounded.advance offset d).
Proof.
  intros Hoffset Hend.
  pose proof (maxError_nonneg (seekStartTime_ d + offset)) as E1.
  pose proof (maxError_nonneg (seekEndTime_ d + offset)) as E2.
  destruct (Qlt_le_dec (timeShiftBufferDepth_ d)
              (Binary64.add (Binary64.sub (seekEndTime_ d) (seekStartTime_ d)) offset))
    as [H | H].
  - pose proof (rounded_advance_width_slides offset d H) as Hw. cbv zeta in Hw.
    apply Qabs_Qle_condition in Hw. lra.
  - destruct (rounded_advance_width_grows offset d Hoffset Hend H) as (Hw & _). lra.
Qed.

(** X16: A refresh stores the new [timeShiftBufferDepth] but does not move
    the seek range, and later updates do not cut the window down to a
    smaller depth: the next one narrows the window by no more than the
    rounding of its two sums, and when the new depth is below the width the
    code computes, it slides both ends forward, to the doubles nearest their
    sums; a run of [n] updates (of a window with [0 <= start <= end])
    narrows it by at most [2n] roundings, each at most [maxError] of the
    seek end the run has reached. *)
Theorem refresh_does_not_cut_window :
  forall process mpd w offset elapsed,
    0 <= offset ->
    Forall (Qle 0) elapsed ->
    Binary64.isDouble (seekStartTime_ (self w)) ->
    Binary64.isDouble (seekEndTime_ (self w)) ->
    let w1 := exec (Rounded.onUpdate_then process mpd) w in
    let d' := Rounded.advance offset (self w1) in
    let rounding :=
      Binary64.maxError (seekStartTime_ (self w) + offset) +
      Binary64.maxError (seekEndTime_ (self w) + offset) in
    seekRange (self w1) = seekRange (self w) /\
    timeShiftBufferDepth_ (self w1) = Js.or_zero (timeShiftBufferDepth mpd) /\
    seekWindow (self w) - rounding <= seekWindow d' /\
    (Js.or_zero (timeShiftBufferDepth mpd) <
       Binary64.sub (seekEndTime_ (self w)) (seekStartTime_ (self w)) ->
     seekStartTime_ d' = Binary64.add (seekStartTime_ (self w)) offset /\
     seekEndTime_ d' = Binary64.add (seekEndTime_ (self w)) offset /\
     seekStartTime_ (self w) <= seekStartTime_ d' /\
     Qabs (seekWindow d' - seekWindow (self w)) <= rounding) /\
    (0 <= seekStartTime_ (self w) ->
     seekStartTime_ (self w) <= seekEndTime_ (self w) ->
     let later := Rounded.advances elapsed (self w1) in
     let n := inject_Z (Z.of_nat (length elapsed)) in
     seekWindow (self w) - 2 * n * Binary64.maxError (seekEndTime_ later) <=
       seekWindow later).
Proof.
  intros process mpd w offset elapsed Hoffset Helapsed Hstart Hend w1 d' rounding.
  assert (Hrange : seekRange (self w1) = seekRange (self w)) by reflexivity.
  assert (Hnew : timeShiftBufferDepth_ (self w1) = Js.or_zero (timeShiftBufferDepth mpd))
    by reflexivity.
  assert (Hs : seekStartTime_ (self w1) = seekStartTime_ (self w)) by reflexivity.
  assert (He : seekEndTime_ (self w1) = seekEndTime_ (self w)) by reflexivity.
  assert (Hwidth : seekWindow (self w1) = seekWindow (self w))
    by (unfold seekWindow; rewrite Hs, He; reflexivity).
  split; [ exact Hrange |]. split; [ exact Hnew |].
  split; [| split ].
  - subst d' rounding. rewrite <- Hs, <- He, <- Hwidth.
    apply rounded_advance_never_cuts; [ exact Hoffset | rewrite He; exact Hend ].
  - intros Hdepth.
    assert (Hguard :
              timeShiftBufferDepth_ (self w1) <
              Binary64.add
                (Binary64.sub (seekEndTime_ (self w1)) (seekStartTime_ (self w1)))
                offset).
    { rewrite Hnew, Hs, He.
      pose proof (add_nonneg_r _ offset
                    (sub_isDouble (seekEndTime_ (self w)) (seekStartTime_ (self w)))
                    Hoffset).
      lra. }
    subst d' rounding.
    rewrite (rounded_advance_slides offset (self w1) Hguard),
      rounded_advance_seekEndTime_.
    pose proof (rounded_advance_width_slides offset (self w1) Hguard) as Hw.
    cbv zeta in Hw. rewrite Hwidth, Hs, He in *.
    split; [ reflexivity |]. split; [ reflexivity |].
    split; [ apply add_nonneg_r; assumption | exact Hw ].
  - intros Hpos Horder later n. subst later n.
    rewrite <- Hs in Hstart, Hpos, Horder. rewrite <- He in Hend, Horder.
    destruct (rounded_advances_width elapsed (self w1)
                (Qmax (timeShiftBufferDepth_ (self w1)) (seekWindow (self w1)))
                (seekEndTime_ (Rounded.advances elapsed (self w1)))
                Helapsed Hstart Hend Hpos Horder
                (Q.le_max_l _ _) (Q.le_max_r _ _) (Qle_refl _)) as (Hlow & _).
    cbv zeta in Hlow. rewrite Hwidth in Hlow. exact Hlow.
Qed.

(** ** A refresh from the seek range timer *)



(** ** The further properties on concrete inputs *)

Lemma seek_end_tracks_wall_time_witness :
  let d := sourceWith None 40 10 49 in
  let elapsed := [Binary64.div 1002 1000; Binary64.div 1011 1000] in
  let d' := Rounded.advances elapsed d in
  seekEndTime_ d' = fold_left Binary64.add elapsed (seekEndTime_ d) /\
  Qabs (seekEndTime_ d' - (seekEndTime_ d + total elapsed)) <=
    inject_Z (Z.of_nat (length elapsed)) *
    (seekEndTime_ d' * Binary64.pow2 (-53) + Binary64.pow2 (-1075)) /\
  seekStartTime_ d <= seekStartTime_ d'.
Proof.
  cbv zeta. set (d := sourceWith None 40 10 49).
  assert (Helapsed : Forall (Qle 0) [Binary64.div 1002 1000; Binary64.div 1011 1000]).
  { apply List.Forall_cons; [ vm_compute; discriminate |].
    apply List.Forall_cons; [ vm_compute; discriminate | apply List.Forall_nil ]. }
  assert (Hstart : Binary64.isDouble (seekStartTime_ d)) by (vm_compute; reflexivity).
  assert (Hend : Binary64.isDouble (seekEndTime_ d)) by (vm_compute; reflexivity).
  assert (Horder : seekStartTime_ d <= seekEndTime_ d) by (vm_compute; discriminate).
  assert (Hpos : 0 <= seekEndTime_ d) by (vm_compute; discriminate).
  destruct (seek_end_tracks_wall_time
              [Binary64.div 1002 1000; Binary64.div 1011 1000] d
              Helapsed Hstart Hend Horder Hpos)
    as (H1 & H2 & _ & H3 & _).
  exact (conj H1 (conj H2 H3)).
Defined.

Lemma armed_timer_advances_by_wall_time_witness :
  let w := worldWith (Some (manifestOf [])) 40 10 50 in
  let w2 :=
    exec (Rounded.timer_fires clockTicking 1)
      (exec (setSeekRangeUpdateTimer_ clockTicking) w) in
  (clockTicking 0 <= clockTicking 1)%Z /\
  seekStartTime_ (self w) <= seekStartTime_ (self w2) /\
  seekEndTime_ (self w) <= seekEndTime_ (self w2).
Proof.
  cbv zeta. set (w := worldWith (Some (manifestOf [])) 40 10 50).
  assert (Hclock : (clockTicking 0 <= clockTicking 1)%Z) by (vm_compute; discriminate).
  assert (Hstart : Binary64.isDouble (seekStartTime_ (self w)))
    by (vm_compute; reflexivity).
  assert (Hend : Binary64.isDouble (seekEndTime_ (self w)))
    by (vm_compute; reflexivity).
  split; [ exact Hclock |].
  destruct (armed_timer_advances_by_wall_time clockTicking w) as (_ & _ & _ & Hmono).
  exact (Hmono Hclock Hstart Hend).
Defined.

Lemma no_fetch_within_min_interval_witness :
  let w := timerWorld [0; 3; 6] in
  (clockTicking (S (S (clockReads (host w)))) - clockTicking (clockReads (host w))
   < 3000)%Z /\
  mpdRequests
    (host (exec (onSeekRangeUpdate_ clockTicking 0)
             (exec (onUpdate_ clockTicking) w))) =
    mpdRequests (host w) ++ [mpdUrl_ (self w)].
Proof.
  cbv zeta.
  assert (Hsoon : (clockTicking (S (S (clockReads (host (timerWorld [0; 3; 6]%Q)))))
                   - clockTicking (clockReads (host (timerWorld [0; 3; 6]%Q)))
                   < 3000)%Z) by (vm_compute; reflexivity).
  split; [ exact Hsoon |].
  destruct (no_fetch_within_min_interval clockTicking 0%Z (timerWorld [0; 3; 6]) Hsoon)
    as (H & _).
  exact H.
Defined.

Lemma timers_stay_owned_witness :
  let w := worldWith (Some (manifestOf [])) 40 10 50 in
  timersOwned w /\
  timersOwned (exec (onStartStreams clockTicking (limits 0 50)) w) /\
  timersOwned (exec (timer_fires clockTicking 1) w).
Proof.
  cbv zeta.
  destruct (timers_stay_owned clockTicking (processTo (manifestOf [])) (limits 0 50)
              (worldWith (Some (manifestOf [])) 40 10 50)) as (Hfresh & Hkept).
  assert (Howned : timersOwned (worldWith (Some (manifestOf [])) 40 10 50))
    by (apply Hfresh; reflexivity).
  destruct (Hkept Howned) as (_ & _ & _ & _ & _ & Hfires & _ & _ & _ & Hstart).
  split; [ exact Howned |].
  split; [ apply Hstart; reflexivity | apply Hfires ].
Defined.

Lemma refreshedWorld_owned : timersOwned refreshedWorld.
Proof.
  apply timersOwned_onUpdate_then; [| reflexivity ].
  unfold timersOwned. apply map_Forall_empty.
Qed.

Lemma destroy_leaves_nothing_pending_witness :
  timers (host refreshedWorld) !! 1%positive = Some (OnUpdate, 3000) /\
  timers (host (exec destroy refreshedWorld)) = ∅.
Proof.
  split; [ vm_compute; reflexivity |].
  destruct (destroy_leaves_nothing_pending clockTicking refreshedWorld
              refreshedWorld_owned) as (H & _).
  exact H.
Defined.

Lemma overlapping_refresh_orphans_timer_witness :
  let w1 :=
    exec (onUpdate_then (processTo (manifestOf [])) refreshedMpd) refreshedWorld in
  updateTimer_ (self refreshedWorld) = Some 1%positive /\
  updateTimer_ (self w1) = Some 2%positive /\
  timers (host (exec destroy w1)) !! 1%positive = Some (OnUpdate, 3000).
Proof.
  cbv zeta.
  assert (Hfield : updateTimer_ (self refreshedWorld) = Some 1%positive)
    by reflexivity.
  assert (Hpending : timers (host refreshedWorld) !! 1%positive = Some (OnUpdate, 3000))
    by (vm_compute; reflexivity).
  assert (Hlt : (1 < nextTimer (host refreshedWorld))%positive)
    by (vm_compute; reflexivity).
  assert (Hseek : seekRangeUpdateTimer_ (self refreshedWorld) <> Some 1%positive)
    by (vm_compute; discriminate).
  destruct (overlapping_refresh_orphans_timer (processTo (manifestOf [])) refreshedMpd
              refreshedWorld 1%positive (OnUpdate, 3000) Hfield Hpending Hlt Hseek)
    as (H1 & _ & _ & H4).
  exact (conj Hfield (conj H1 H4)).
Defined.

Lemma update_timer_is_one_shot_witness :
  let w' := exec (timer_fires clockTicking 1) refreshedWorld in
  mpdRequests (host w') = mpdRequests (host refreshedWorld) ++ [mpdUrl_ (self refreshedWorld)] /\
  updateTimer_ (self w') = None.
Proof.
  cbv zeta.
  assert (Hpending : timers (host refreshedWorld) !! 1%positive = Some (OnUpdate, 3000))
    by (vm_compute; reflexivity).
  destruct (update_timer_is_one_shot clockTicking refreshedWorld 1%positive 3000
              refreshedWorld_owned Hpending) as (H1 & _ & _ & H4 & _).
  exact (conj H1 H4).
Defined.

Lemma onStartStreams_without_limits_or_manifest_witness :
  let w := worldWith None 40 0 0 in
  onStartStreams clockTicking (fun _ => None) w = (Normal tt, w) /\
  onStartStreams clockTicking (limits 0 50) w = (Throw Js.TypeError, w).
Proof.
  cbv zeta. split.
  - destruct (onStartStreams_without_limits_or_manifest clockTicking (fun _ => None)
                (worldWith None 40 0 0)) as (H & _).
    apply H. reflexivity.
  - destruct (onStartStreams_without_limits_or_manifest clockTicking (limits 0 50)
                (worldWith None 40 0 0)) as (_ & H).
    apply H; [ reflexivity | discriminate ].
Defined.

Lemma onStartStreams_sets_range_and_notifies_witness :
  let w := worldWith (Some (staticManifestOf [Some [10; 20; 30]])) 40 0 0 in
  let w' := exec (onStartStreams clockTicking (limits 5 50)) w in
  seekStartTime_ (self w') = 5 /\
  seekEndTime_ (self w') = 50 /\
  timers (host w') = timers (host w) /\
  dispatched (host w') = dispatched (host w) ++ [seekRange (self w')].
Proof.
  cbv zeta.
  destruct (onStartStreams_sets_range_and_notifies clockTicking (limits 5 50)
              (worldWith (Some (staticManifestOf [Some [10; 20; 30]])) 40 0 0)
              (staticManifestOf [Some [10; 20; 30]])
              {| limitsStart := 5; limitsEnd := 50 |} eq_refl eq_refl)
    as (_ & Hend & _ & Hevent & Hstatic & _).
  destruct (Hstatic eq_refl) as (Hstart & _ & Htimers & _).
  exact (conj Hstart (conj Hend (conj Htimers Hevent))).
Defined.

Lemma clamped_seek_is_then_accepted_witness :
  let w' := Rounded.seekTo 150 seekWorld in
  seekStartTime_ (self seekWorld) <= seekEndTime_ (self seekWorld) /\
  Rounded.validate w' (videoCurrentTime (host w')) = Accepted.
Proof.
  cbv zeta.
  assert (Hstart : Binary64.isDouble (seekStartTime_ (self seekWorld)))
    by (vm_compute; reflexivity).
  assert (Hend : Binary64.isDouble (seekEndTime_ (self seekWorld)))
    by (vm_compute; reflexivity).
  assert (Horder : seekStartTime_ (self seekWorld) <= seekEndTime_ (self seekWorld))
    by (vm_compute; discriminate).
  destruct (clamped_seek_is_then_accepted seekWorld 150 Hstart Hend Horder)
    as (_ & _ & H & _).
  exact (conj Horder H).
Defined.

Lemma targetUpdateTime_monotone_in_streams_witness :
  exists t2,
    targetUpdateTime (manifestOf [Some [15; 25]; Some [10; 20; 30]]) = Some t2 /\
    18 <= t2.
Proof.
  apply (targetUpdateTime_monotone_in_streams
           (manifestOf [Some [10; 20; 30]])
           (manifestOf [Some [15; 25]; Some [10; 20; 30]]) 18).
  - intros s Hs. cbn in Hs |- *.
    apply list_elem_of_singleton in Hs as ->. right. left.
  - vm_compute. reflexivity.
Defined.

Lemma missing_depth_gives_point_window_witness :
  let w := worldWith None 40 0 0 in
  let w2 :=
    exec (Rounded.onStartStreams clockTicking (limits 0 50))
      (exec (load_then (processTo (manifestOf [])) bareMpd) w) in
  let d :=
    Rounded.advances [Binary64.div 1002 1000; Binary64.div 1011 1000] (self w2) in
  timeShiftBufferDepth_ (self w2) = 0 /\
  seekStartTime_ d == seekEndTime_ d /\
  50 <= seekEndTime_ d.
Proof.
  cbv zeta.
  assert (Helapsed :
            Forall (fun offset => 0 <= offset /\ Binary64.isDouble offset)
              [Binary64.div 1002 1000; Binary64.div 1011 1000]).
  { apply List.Forall_cons;
      [ split; [ vm_compute; discriminate | apply div_isDouble ] |].
    apply List.Forall_cons;
      [ split; [ vm_compute; discriminate | apply div_isDouble ] |].
    apply List.Forall_nil. }
  assert (Hend : Binary64.isDouble (limitsEnd {| limitsStart := 0; limitsEnd := 50 |}))
    by (vm_compute; reflexivity).
  assert (Hrange : limitsStart {| limitsStart := 0; limitsEnd := 50 |}
                   <= limitsEnd {| limitsStart := 0; limitsEnd := 50 |})
    by (vm_compute; discriminate).
  destruct (missing_depth_gives_point_window clockTicking (processTo (manifestOf []))
              (limits 0 50) (worldWith None 40 0 0) bareMpd
              {| limitsStart := 0; limitsEnd := 50 |}
              [Binary64.div 1002 1000; Binary64.div 1011 1000]
              eq_refl eq_refl eq_refl Hend Hrange Helapsed)
    as (H1 & _ & H2 & H3).
  exact (conj H1 (conj H2 H3)).
Defined.

Lemma refresh_does_not_cut_window_witness :
  let w := worldWith (Some (manifestOf [])) 40 10 50 in
  let w1 := exec (Rounded.onUpdate_then (processTo (manifestOf [])) shallowMpd) w in
  let offset := Binary64.div 1002 1000 in
  let elapsed := [Binary64.div 1002 1000; Binary64.div 1011 1000] in
  let d' := Rounded.advance offset (self w1) in
  let later := Rounded.advances elapsed (self w1) in
  timeShiftBufferDepth_ (self w1) = 20 /\
  seekStartTime_ d' = Binary64.add (seekStartTime_ (self w)) offset /\
  seekEndTime_ d' = Binary64.add (seekEndTime_ (self w)) offset /\
  Qabs (seekWindow d' - seekWindow (self w)) <=
    Binary64.maxError (seekStartTime_ (self w) + offset) +
    Binary64.maxError (seekEndTime_ (self w) + offset) /\
  seekWindow (self w) -
    2 * inject_Z (Z.of_nat (length elapsed)) *
    Binary64.maxError (seekEndTime_ later) <=
  seekWindow later.
Proof.
  cbv zeta. set (w := worldWith (Some (manifestOf [])) 40 10 50).
  assert (Hoffset : 0 <= Binary64.div 1002 1000) by (vm_compute; discriminate).
  assert (Helapsed : Forall (Qle 0) [Binary64.div 1002 1000; Binary64.div 1011 1000]).
  { apply List.Forall_cons; [ vm_compute; discriminate |].
    apply List.Forall_cons; [ vm_compute; discriminate | apply List.Forall_nil ]. }
  assert (Hstart : Binary64.isDouble (seekStartTime_ (self w)))
    by (vm_compute; reflexivity).
  assert (Hend : Binary64.isDouble (seekEndTime_ (self w)))
    by (vm_compute; reflexivity).
  assert (Hdepth : Js.or_zero (timeShiftBufferDepth shallowMpd) <
                   Binary64.sub (seekEndTime_ (self w)) (seekStartTime_ (self w)))
    by (vm_compute; reflexivity).
  assert (Hpos : 0 <= seekStartTime_ (self w)) by (vm_compute; discriminate).
  assert (Horder : seekStartTime_ (self w) <= seekEndTime_ (self w))
    by (vm_compute; discriminate).
  destruct (refresh_does_not_cut_window (processTo (manifestOf [])) shallowMpd w
              (Binary64.div 1002 1000)
              [Binary64.div 1002 1000; Binary64.div 1011 1000]
              Hoffset Helapsed Hstart Hend)
    as (_ & H1 & _ & Hslide & Hrun).
  destruct (Hslide Hdepth) as (H2 & H3 & _ & H4).
  exact (conj H1 (conj H2 (conj H3 (conj H4 (Hrun Hpos Horder))))).
Defined.

